(** * Whisper: ring container, batch assembler, permit gate, worker, marketing

    A shallow embedding of the TypeScript sources of the whisper server
    (RingBuffer, LoreBatcher, Semaphore / withNearAiPermit, LoreWorker,
    marketing policy and poster) together with the properties its
    specification states about them.

    Conventions of the embedding
    - a JS array with holes is a [list (option A)]: [None] is [undefined];
    - a JS string is the list of its UTF-16 code units, so that [.length]
      and [.slice] count what the engine counts;
    - a call that throws returns [Err]; an awaited collaborator is a function
      handed in by the environment;
    - mutable objects are threaded as explicit state. *)

From Stdlib Require Import ZArith Lia Bool.
From stdpp Require Import base option list numbers strings pretty sorting gmap.

(** ** Outcomes of calls that may throw *)

(** What a call ends with: a value, or a thrown error ([String(err)] of it).
    Two more endings are the embedding's own.  [Fuel]: a loop of the model
    was given too few iterations; the theorems show where it cannot happen.
    [Parked]: the call is suspended at an [await] that only another actor
    can resume (a permit that is not free). *)
Inductive outcome (A : Type) : Type :=
| Val (a : A)
| Exn (e : string)
| Fuel
| Parked.
Arguments Val {A} a.
Arguments Exn {A} e.
Arguments Fuel {A}.
Arguments Parked {A}.

(** What an awaited collaborator, or a function that only computes, ends
    with: its value, or the error it threw. *)
Inductive result (A : Type) : Type :=
| Ok (a : A)
| Err (e : string).
Arguments Ok {A} a.
Arguments Err {A} e.

#[global] Instance result_ret : MRet result := @Ok.
#[global] Instance result_bind : MBind result :=
  λ A B f r, match r with Ok a => f a | Err e => Err e end.

Definition to_outcome {A} (r : result A) : outcome A :=
  match r with Ok a => Val a | Err e => Exn e end.

(** ** JavaScript arrays *)

Module Js.
Section Arrays.
Context {A : Type}.

(** [a[i]]: a hole, and an index past the end, read as [undefined]. *)
Definition arr_get (a : list (option A)) (i : nat) : option A :=
  match a !! i with
  | Some v => v
  | None => None
  end.

(** [a[i] = v]: overwrites in range; past the end the engine grows the array,
    leaving holes in between. *)
Definition arr_set (a : list (option A)) (i : nat) (v : option A) : list (option A) :=
  if decide (i < length a) then <[i:=v]> a
  else a ++ replicate (i - length a) None ++ [v].

Lemma arr_get_set_eq a i v : i < length a → arr_get (arr_set a i v) i = v.
Proof.
  intros Hi. unfold arr_get, arr_set.
  rewrite decide_True by done. by rewrite list_lookup_insert_eq.
Qed.

Lemma arr_get_set_ne a i j v : i < length a → i ≠ j → arr_get (arr_set a i v) j = arr_get a j.
Proof.
  intros Hi Hne. unfold arr_get, arr_set.
  rewrite decide_True by done. by rewrite list_lookup_insert_ne.
Qed.

Lemma arr_set_length a i v : i < length a → length (arr_set a i v) = length a.
Proof.
  intros Hi. unfold arr_set. rewrite decide_True by done. apply length_insert.
Qed.

End Arrays.
End Js.

(** ** Modular index arithmetic used by the ring *)

Lemma mod_add_inj (h i j c : nat) :
  i < c → j < c → (h + i) mod c = (h + j) mod c → i = j.
Proof.
  intros Hi Hj H.
  assert (Hc : c ≠ 0) by lia.
  pose proof (Nat.div_mod (h + i) c Hc) as E1.
  pose proof (Nat.div_mod (h + j) c Hc) as E2.
  rewrite H in E1.
  set (a := (h + i) / c) in *. set (b := (h + j) / c) in *.
  destruct (lt_eq_lt_dec a b) as [[L|L]|L]; [| subst; lia |].
  - assert (c * (a + 1) ≤ c * b) by (apply Nat.mul_le_mono_l; lia). lia.
  - assert (c * (b + 1) ≤ c * a) by (apply Nat.mul_le_mono_l; lia). lia.
Qed.

Lemma mod_add_shift (h k i c : nat) :
  c ≠ 0 → ((h + k) mod c + i) mod c = (h + (k + i)) mod c.
Proof.
  intros Hc. rewrite Nat.Div0.add_mod_idemp_l. f_equal. lia.
Qed.

Lemma omap_seq_ext {B} (f g : nat → option B) a n :
  (∀ i, a ≤ i < a + n → f i = g i) → omap f (seq a n) = omap g (seq a n).
Proof.
  revert a. induction n as [|n IH]; intros a H; [done|].
  cbn. rewrite (H a) by lia. rewrite (IH (S a)); [done|].
  intros i Hi. apply H. lia.
Qed.

Lemma omap_seq_shift {B} (f : nat → option B) k a n :
  omap f (seq (k + a) n) = omap (λ i, f (k + i)) (seq a n).
Proof.
  revert a. induction n as [|n IH]; intros a; [done|].
  cbn. replace (S (k + a)) with (k + S a) by lia. by rewrite IH.
Qed.

Lemma omap_seq_length {B} (f : nat → option B) a n :
  (∀ i, a ≤ i < a + n → is_Some (f i)) → length (omap f (seq a n)) = n.
Proof.
  revert a. induction n as [|n IH]; intros a H; [done|].
  cbn. destruct (H a) as [x ->]; [lia|]. cbn.
  rewrite IH; [done|]. intros i Hi. apply H. lia.
Qed.

(** ** Ring container ([src/utils/logger.ts], class [RingBuffer]) *)

Module RingBuffer.
Section Ring.
Context {T : Type}.

(** The fields of the class. [T] is the type of defined items; a slot of
    [buf] is [T | undefined]. *)
Record t := Ring {
  buf : list (option T);
  head : nat;      (* points to oldest element *)
  size : nat;
  capacity : nat;
}.

(** [new Array(n)] raises a RangeError above this length. *)
Definition MAX_ARRAY_LENGTH : Z := 4294967295.

(** The constructor: a non-positive capacity throws, and so does the array
    allocation for a capacity no array can have. *)
Definition new_RingBuffer (cap : Z) : option t :=
  if (cap <=? 0)%Z then None
  else if (MAX_ARRAY_LENGTH <? cap)%Z then None
  else Some (Ring (replicate (Z.to_nat cap) None) 0 0 (Z.to_nat cap)).

Definition rb_length (rb : t) : nat := size rb.
Definition maxSize (rb : t) : nat := capacity rb.

(** [push(item)]: the new state and the [dropped] field of the result. *)
Definition push (rb : t) (item : T) : t * option T :=
  let '(rb1, dropped) :=
    if decide (size rb = capacity rb) then
      (Ring (Js.arr_set (buf rb) (head rb) None)
            ((head rb + 1) mod capacity rb)
            (size rb - 1)
            (capacity rb),
       Js.arr_get (buf rb) (head rb))
    else (rb, None) in
  let tail := (head rb1 + size rb1) mod capacity rb1 in
  (Ring (Js.arr_set (buf rb1) tail (Some item)) (head rb1) (size rb1 + 1) (capacity rb1),
   dropped).

(** [toArray()]: the slots of the window, oldest first, holes skipped. *)
Definition toArray (rb : t) : list T :=
  omap (λ i, Js.arr_get (buf rb) ((head rb + i) mod capacity rb)) (seq 0 (size rb)).

(** The body of the [for] loop of [drain], over the remaining values of [i]. *)
Fixpoint drain_loop (cap hd : nat) (ixs : list nat) (b : list (option T)) (out : list T)
  : list (option T) * list T :=
  match ixs with
  | [] => (b, out)
  | i :: ixs' =>
      let idx := (hd + i) mod cap in
      let out' := match Js.arr_get b idx with
                  | Some v => out ++ [v]
                  | None => out
                  end in
      drain_loop cap hd ixs' (Js.arr_set b idx None) out'
  end.

(** [drain(n)] for an integer [n]. *)
Definition drain (rb : t) (n : Z) : t * list T :=
  if (n <=? 0)%Z then (rb, [])
  else
    let count := Nat.min (Z.to_nat n) (size rb) in
    let '(b, out) := drain_loop (capacity rb) (head rb) (seq 0 count) (buf rb) [] in
    (Ring b ((head rb + count) mod capacity rb) (size rb - count) (capacity rb), out).

(** The states a program can reach: built by the constructor, then changed
    by [push] and [drain] only (the fields are private). *)
Inductive reachable : t → Prop :=
| reach_new cap rb : new_RingBuffer cap = Some rb → reachable rb
| reach_push rb x : reachable rb → reachable (push rb x).1
| reach_drain rb n : reachable rb → reachable (drain rb n).1.

(** The representation invariant. *)
Record wf (rb : t) : Prop := Wf {
  wf_cap : 0 < capacity rb;
  wf_len : length (buf rb) = capacity rb;
  wf_head : head rb < capacity rb;
  wf_size : size rb ≤ capacity rb;
  wf_full : ∀ i, i < size rb → is_Some (Js.arr_get (buf rb) ((head rb + i) mod capacity rb));
}.

Definition slot (rb : t) (i : nat) : option T :=
  Js.arr_get (buf rb) ((head rb + i) mod capacity rb).

Lemma toArray_slot rb : toArray rb = omap (slot rb) (seq 0 (size rb)).
Proof. done. Qed.

Lemma toArray_length rb : wf rb → length (toArray rb) = size rb.
Proof.
  intros W. rewrite toArray_slot. apply omap_seq_length.
  intros i Hi. apply (wf_full _ W). lia.
Qed.

Lemma new_wf cap rb : new_RingBuffer cap = Some rb → wf rb.
Proof.
  unfold new_RingBuffer. intros H.
  destruct (cap <=? 0)%Z eqn:E1; [done|].
  destruct (MAX_ARRAY_LENGTH <? cap)%Z eqn:E2; [done|].
  injection H as <-. split; cbn; try lia.
  by rewrite length_replicate.
Qed.

Lemma new_toArray cap rb : new_RingBuffer cap = Some rb → toArray rb = [].
Proof.
  unfold new_RingBuffer. intros H.
  destruct (cap <=? 0)%Z; [done|]. destruct (MAX_ARRAY_LENGTH <? cap)%Z; [done|].
  by injection H as <-.
Qed.

(** *** [push] on the abstract contents *)

Lemma push_not_full rb x :
  wf rb → size rb < capacity rb →
  wf (push rb x).1 ∧ toArray (push rb x).1 = toArray rb ++ [x] ∧ (push rb x).2 = None.
Proof.
  intros W Hlt. destruct W as [Hc Hl Hh Hs Hf].
  unfold push. rewrite decide_False by lia. cbn.
  assert (Ht : (head rb + size rb) mod capacity rb < length (buf rb)).
  { rewrite Hl. apply Nat.mod_upper_bound. lia. }
  split; [|split; [|done]].
  - split; cbn; try lia.
    + by rewrite Js.arr_set_length.
    + intros i Hi. destruct (decide (i = size rb)) as [->|Hne].
      * rewrite Js.arr_get_set_eq by done. eauto.
      * rewrite Js.arr_get_set_ne; [apply Hf; lia|done|].
        intros E. apply mod_add_inj in E; lia.
  - unfold toArray. cbn. rewrite Nat.add_1_r, seq_S, omap_app. cbn.
    rewrite Js.arr_get_set_eq by done. f_equal.
    apply omap_seq_ext. intros i Hi.
    rewrite Js.arr_get_set_ne; [done|done|].
    intros E. apply mod_add_inj in E; lia.
Qed.

Lemma push_full rb x :
  wf rb → size rb = capacity rb →
  ∃ y ys, toArray rb = y :: ys ∧
    wf (push rb x).1 ∧ toArray (push rb x).1 = ys ++ [x] ∧ (push rb x).2 = Some y.
Proof.
  intros W Heq. destruct W as [Hc Hl Hh Hs Hf].
  destruct (Hf 0) as [y Hy]; [lia|]. rewrite Nat.add_0_r, Nat.mod_small in Hy by done.
  assert (Hc0 : capacity rb ≠ 0) by lia.
  assert (Htail : ((head rb + 1) mod capacity rb + (size rb - 1)) mod capacity rb = head rb).
  { rewrite mod_add_shift by done.
    replace (head rb + (1 + (size rb - 1))) with (head rb + 1 * capacity rb) by lia.
    rewrite Nat.Div0.mod_add. by apply Nat.mod_small. }
  assert (Hslot : ∀ i, i < capacity rb - 1 →
            ((head rb + 1) mod capacity rb + i) mod capacity rb ≠ head rb).
  { intros i Hi E. rewrite mod_add_shift in E by done.
    rewrite <- (Nat.mod_small (head rb) (capacity rb)) in E at 2 by done.
    rewrite <- (Nat.add_0_r (head rb)) in E at 2.
    apply mod_add_inj in E; lia. }
  exists y, (omap (slot rb) (seq 1 (size rb - 1))). split.
  { rewrite toArray_slot. replace (size rb) with (S (size rb - 1)) at 1 by lia.
    cbn. unfold slot at 1. rewrite Nat.add_0_r, Nat.mod_small by done.
    by rewrite Hy. }
  unfold push. rewrite decide_True by done. cbn.
  rewrite Htail. split; [|split; [|done]].
  - split; cbn; try lia.
    + rewrite !Js.arr_set_length; rewrite ?Js.arr_set_length; lia.
    + by apply Nat.mod_upper_bound.
    + intros i Hi. destruct (decide (i = size rb - 1)) as [->|Hne].
      * rewrite Htail. rewrite Js.arr_get_set_eq; [eauto|].
        rewrite Js.arr_set_length; lia.
      * assert (Hi' : i < capacity rb - 1) by lia.
        specialize (Hslot i Hi').
        rewrite !Js.arr_get_set_ne; rewrite ?Js.arr_set_length; try lia.
        rewrite mod_add_shift by done. apply Hf. lia.
  - unfold toArray. cbn. replace (size rb - 1 + 1) with (S (size rb - 1)) by lia.
    rewrite seq_S, omap_app. cbn. rewrite Htail.
    rewrite Js.arr_get_set_eq by (rewrite Js.arr_set_length; lia). f_equal.
    change 1 with (1 + 0) at 3. rewrite omap_seq_shift.
    apply omap_seq_ext. intros i Hi.
    assert (Hi' : i < capacity rb - 1) by lia.
    specialize (Hslot i Hi').
    rewrite !Js.arr_get_set_ne; rewrite ?Js.arr_set_length; try lia.
    unfold slot. by rewrite mod_add_shift.
Qed.

Lemma push_wf rb x : wf rb → wf (push rb x).1.
Proof.
  intros W. destruct (decide (size rb = capacity rb)) as [E|E].
  - destruct (push_full rb x W E) as (?&?&?&?&?). done.
  - apply push_not_full; [done|]. pose proof (wf_size _ W). lia.
Qed.

Lemma push_capacity rb x : capacity (push rb x).1 = capacity rb.
Proof. unfold push. by destruct (decide (size rb = capacity rb)). Qed.

(** *** [drain] on the abstract contents *)

Lemma omap_elem_ext {A B} (f g : A → option B) (l : list A) :
  (∀ a, a ∈ l → f a = g a) → omap f l = omap g l.
Proof.
  induction l as [|a l IH]; intros H; [done|]. cbn.
  rewrite (H a) by left. rewrite IH; [done|]. intros b Hb. apply H. by right.
Qed.

Lemma drain_loop_spec cap hd ixs b out :
  length b = cap → NoDup ixs → (∀ i, i ∈ ixs → i < cap) →
  length (drain_loop cap hd ixs b out).1 = cap ∧
  (drain_loop cap hd ixs b out).2 = out ++ omap (λ i, Js.arr_get b ((hd + i) mod cap)) ixs ∧
  (∀ j, j < cap → j ∉ ixs →
     Js.arr_get (drain_loop cap hd ixs b out).1 ((hd + j) mod cap)
     = Js.arr_get b ((hd + j) mod cap)).
Proof.
  revert b out. induction ixs as [|i ixs IH]; intros b out Hl Hnd Hlt.
  { cbn. rewrite app_nil_r. done. }
  inversion_clear Hnd as [|? ? Hni Hnd'].
  assert (Hi : i < cap) by (apply Hlt; left).
  assert (Hidx : (hd + i) mod cap < length b).
  { rewrite Hl. apply Nat.mod_upper_bound. lia. }
  cbn [drain_loop].
  set (out' := match Js.arr_get b ((hd + i) mod cap) with
               | Some v => out ++ [v] | None => out end).
  destruct (IH (Js.arr_set b ((hd + i) mod cap) None) out') as (H1 & H2 & H3).
  { by rewrite Js.arr_set_length. }
  { exact Hnd'. }
  { intros k Hk. apply Hlt. by right. }
  split; [done|]. split.
  - rewrite H2. cbn. subst out'.
    assert (E : omap (λ k, Js.arr_get (Js.arr_set b ((hd + i) mod cap) None) ((hd + k) mod cap)) ixs
              = omap (λ k, Js.arr_get b ((hd + k) mod cap)) ixs).
    { apply omap_elem_ext. intros k Hk. apply Js.arr_get_set_ne; [done|].
      intros E. apply mod_add_inj in E; [subst; done|done|]. apply Hlt. by right. }
    rewrite E. destruct (Js.arr_get b ((hd + i) mod cap)); [|done].
    by rewrite <- app_assoc.
  - intros j Hj Hnj. rewrite H3; [|done|]. 2:{ intros ?. apply Hnj. by right. }
    apply Js.arr_get_set_ne; [done|].
    intros E. apply mod_add_inj in E; [|done..]. subst. apply Hnj. left.
Qed.

Lemma drain_nonpositive rb n : (n ≤ 0)%Z → drain rb n = (rb, []).
Proof. intros Hn. unfold drain. by rewrite (proj2 (Z.leb_le n 0)). Qed.

Lemma drain_spec rb n :
  wf rb → (0 < n)%Z →
  wf (drain rb n).1 ∧
  (drain rb n).2 = take (Nat.min (Z.to_nat n) (size rb)) (toArray rb) ∧
  toArray (drain rb n).1 = drop (Nat.min (Z.to_nat n) (size rb)) (toArray rb).
Proof.
  intros W Hn. pose proof W as [Hc Hl Hh Hs Hf].
  unfold drain. rewrite (proj2 (Z.leb_gt n 0)) by done.
  set (k := Nat.min (Z.to_nat n) (size rb)).
  assert (Hk : k ≤ size rb) by lia.
  destruct (drain_loop_spec (capacity rb) (head rb) (seq 0 k) (buf rb) [] Hl (NoDup_seq 0 k))
    as (H1 & H2 & H3).
  { intros i Hi. apply elem_of_seq in Hi. lia. }
  destruct (drain_loop (capacity rb) (head rb) (seq 0 k) (buf rb) []) as [b out] eqn:E.
  cbn in H1, H2, H3. cbn [fst snd].
  assert (Hc0 : capacity rb ≠ 0) by lia.
  assert (Hsplit : toArray rb = omap (slot rb) (seq 0 k) ++ omap (slot rb) (seq k (size rb - k))).
  { rewrite toArray_slot. replace (size rb) with (k + (size rb - k)) at 1 by lia.
    by rewrite seq_app, omap_app. }
  assert (Hlen : length (omap (slot rb) (seq 0 k)) = k).
  { apply omap_seq_length. intros i Hi. apply Hf. lia. }
  assert (Hkeep : ∀ i, i < size rb - k →
            Js.arr_get b (((head rb + k) mod capacity rb + i) mod capacity rb) = slot rb (k + i)).
  { intros i Hi. rewrite mod_add_shift by done. unfold slot. apply H3; [lia|].
    rewrite elem_of_seq. lia. }
  split; [|split].
  - split; cbn; try lia.
    + by apply Nat.mod_upper_bound.
    + intros i Hi. rewrite Hkeep by done. apply Hf. lia.
  - rewrite H2, Hsplit. cbn. symmetry. by apply take_app_length'.
  - rewrite Hsplit, drop_app_length' by done.
    unfold toArray. cbn.
    transitivity (omap (λ i, slot rb (k + i)) (seq 0 (size rb - k))).
    + apply omap_seq_ext. intros i Hi. apply Hkeep. lia.
    + rewrite <- omap_seq_shift. by rewrite Nat.add_0_r.
Qed.

Lemma drain_wf rb n : wf rb → wf (drain rb n).1.
Proof.
  intros W. destruct (Z_lt_le_dec 0 n) as [Hn|Hn].
  - by apply drain_spec.
  - by rewrite drain_nonpositive.
Qed.

Lemma reachable_wf rb : reachable rb → wf rb.
Proof.
  induction 1 as [cap rb H|rb x _ IH|rb n _ IH].
  - by eapply new_wf.
  - by apply push_wf.
  - by apply drain_wf.
Qed.

(** *** A run of [push] calls *)

(** [push] called on each item of [xs] in turn: the final state and, per call,
    the [dropped] field it returned. *)
Fixpoint push_all (rb : t) (xs : list T) : t * list (option T) :=
  match xs with
  | [] => (rb, [])
  | x :: xs' =>
      let '(rb1, d) := push rb x in
      let '(rb2, ds) := push_all rb1 xs' in
      (rb2, d :: ds)
  end.

Lemma push_all_cons rb x xs :
  push_all rb (x :: xs) =
  ((push_all (push rb x).1 xs).1, (push rb x).2 :: (push_all (push rb x).1 xs).2).
Proof.
  cbn [push_all]. destruct (push rb x) as [rb1 d]. cbn.
  by destruct (push_all rb1 xs).
Qed.

Lemma push_all_reachable rb xs : reachable rb → reachable (push_all rb xs).1.
Proof.
  revert rb. induction xs as [|x xs IH]; intros rb R; [done|].
  rewrite push_all_cons. cbn. apply IH. by constructor.
Qed.

Lemma push_all_spec xs : ∀ rb,
  wf rb →
  capacity (push_all rb xs).1 = capacity rb ∧
  toArray (push_all rb xs).1
    = drop (length (toArray rb) + length xs - capacity rb) (toArray rb ++ xs) ∧
  (∀ k, k < length xs →
     (push_all rb xs).2 !! k
     = Some (if decide (capacity rb ≤ length (toArray rb) + k)
             then (toArray rb ++ xs) !! (length (toArray rb) + k - capacity rb)
             else None)).
Proof.
  induction xs as [|x xs IH]; intros rb W.
  { cbn. rewrite app_nil_r. pose proof (toArray_length rb W). pose proof (wf_size _ W).
    split; [done|]. split; [|intros; lia].
    replace (length (toArray rb) + 0 - capacity rb) with 0 by lia. done. }
  rewrite push_all_cons. cbn [fst snd].
  pose proof (toArray_length rb W) as HL. pose proof (wf_size _ W) as HS.
  destruct (decide (size rb = capacity rb)) as [Hfull|Hnf].
  - destruct (push_full rb x W Hfull) as (y & ys & Hl & W1 & Hl1 & Hd).
    destruct (IH _ W1) as (Hc & Ht & Hk).
    rewrite push_capacity in Hc, Ht, Hk. rewrite Hl1 in Ht, Hk.
    rewrite Hl in HL |- *. cbn [length] in HL |- *.
    rewrite length_app in Ht, Hk. cbn [length] in Ht, Hk.
    assert (Hys : length ys + 1 = capacity rb) by lia.
    split; [done|]. split.
    + rewrite Ht. rewrite <- app_assoc. cbn.
      match goal with |- drop ?a _ = drop ?b _ =>
        replace a with (length xs) by lia; replace b with (S (length xs)) by lia
      end. done.
    + intros [|k] Hlt.
      * cbn. rewrite Hd. rewrite decide_True by lia.
        match goal with |- context [_ !! ?a] => replace a with 0 by lia end. done.
      * cbn in Hlt. change ((?a :: ?l) !! S ?i) with (l !! i).
        rewrite Hk by lia. rewrite !decide_True by lia. f_equal.
        rewrite <- app_assoc.
        match goal with |- _ !! ?a = _ !! ?b =>
          replace a with k by lia; replace b with (S k) by lia
        end. done.
  - destruct (push_not_full rb x W ltac:(lia)) as (W1 & Hl1 & Hd).
    destruct (IH _ W1) as (Hc & Ht & Hk).
    rewrite push_capacity in Hc, Ht, Hk. rewrite Hl1 in Ht, Hk.
    rewrite length_app in Ht, Hk. cbn [length] in Ht, Hk.
    split; [done|]. split.
    + rewrite Ht. rewrite <- app_assoc. cbn. f_equal. lia.
    + intros [|k] Hlt.
      * cbn. rewrite Hd. rewrite decide_False by lia. done.
      * cbn in Hlt. change ((?a :: ?l) !! S ?i) with (l !! i).
        rewrite Hk by lia. rewrite <- app_assoc. cbn. f_equal.
        destruct (decide (capacity rb ≤ length (toArray rb) + S k)) as [Hle|Hgt].
        -- rewrite decide_True by lia. f_equal. lia.
        -- by rewrite decide_False by lia.
Qed.

(** One [push] on the contents: append, and drop the oldest when full. *)
Lemma push_toArray rb x :
  wf rb →
  toArray (push rb x).1 = drop (length (toArray rb) + 1 - capacity rb) (toArray rb ++ [x]) ∧
  last (toArray (push rb x).1) = Some x ∧
  length (toArray (push rb x).1) ≤ capacity rb.
Proof.
  intros W. destruct (push_all_spec [x] rb W) as (Hc & Ht & _).
  rewrite push_all_cons in Hc, Ht. cbn [push_all fst length] in Hc, Ht.
  pose proof (push_wf rb x W) as W1.
  split; [exact Ht|]. split.
  - rewrite Ht. pose proof (toArray_length rb W). pose proof (wf_size _ W).
    pose proof (wf_cap _ W).
    rewrite last_lookup, length_drop, length_app, lookup_drop. cbn [length].
    rewrite lookup_app_r by lia.
    match goal with |- [x] !! ?i = _ => replace i with 0 by lia end. done.
  - rewrite toArray_length by done. rewrite <- (push_capacity rb x). by apply wf_size.
Qed.

(** C7. For a RingBuffer constructed with capacity [C] (the constructor
    succeeds, so [C > 0]) and any run of [push] calls from the fresh buffer:
    the buffer's length never exceeds [C], and for every [n > C] the [n]-th
    call (counted from 1) returns as [dropped] exactly the [(n-C)]-th pushed
    item, which is the oldest element held and is no longer in the buffer. *)
Theorem ring_push_bounded_evicts_oldest (C : Z) (rb0 : t) (xs : list T) :
  new_RingBuffer C = Some rb0 →
  (0 < C)%Z ∧
  rb_length (push_all rb0 xs).1 ≤ Z.to_nat C ∧
  toArray (push_all rb0 xs).1 = drop (length xs - Z.to_nat C) xs ∧
  ∀ n, Z.to_nat C < n ≤ length xs →
    ∃ x, xs !! (n - Z.to_nat C - 1) = Some x ∧
         (push_all rb0 xs).2 !! (n - 1) = Some (Some x) ∧
         toArray (push_all rb0 (take (n - 1) xs)).1 !! 0 = Some x.
Proof.
  intros Hnew.
  pose proof (new_wf _ _ Hnew) as W. pose proof (new_toArray _ _ Hnew) as Hnil.
  assert (Hcap : capacity rb0 = Z.to_nat C ∧ (0 < C)%Z).
  { unfold new_RingBuffer in Hnew. destruct (C <=? 0)%Z eqn:E; [done|].
    destruct (MAX_ARRAY_LENGTH <? C)%Z; [done|]. injection Hnew as <-.
    split; [done|]. by apply Z.leb_gt. }
  destruct Hcap as [Hcap HC].
  destruct (push_all_spec xs rb0 W) as (Hc & Ht & Hk).
  rewrite Hnil, Hcap in Ht, Hk. cbn in Ht, Hk.
  split; [done|]. split; [|split; [done|]].
  - unfold rb_length. rewrite <- Hcap, <- Hc. apply wf_size.
    apply reachable_wf, push_all_reachable. by econstructor.
  - intros n Hn.
    destruct (lookup_lt_is_Some_2 xs (n - Z.to_nat C - 1)) as [x Hx]; [lia|].
    exists x. split; [done|]. split.
    + rewrite Hk by lia. rewrite decide_True by lia. f_equal.
      replace (n - 1 - Z.to_nat C) with (n - Z.to_nat C - 1) by lia. done.
    + destruct (push_all_spec (take (n - 1) xs) rb0 W) as (_ & Ht' & _).
      rewrite Hnil, Hcap in Ht'. cbn in Ht'. rewrite Ht'.
      rewrite length_take, lookup_drop, lookup_take_lt by lia.
      rewrite <- Hx. f_equal. lia.
Qed.

(** C8. For every reachable RingBuffer state holding [e1..ek] (what
    [toArray] shows, oldest first) and every [n >= 1], [drain(n)] returns the
    first [min(n,k)] of them in order, and [toArray()] right after returns
    the remaining ones in their order. *)
Theorem ring_drain_then_toArray (rb : t) (n : Z) :
  reachable rb → (1 ≤ n)%Z →
  (drain rb n).2 = take (Nat.min (Z.to_nat n) (length (toArray rb))) (toArray rb) ∧
  toArray (drain rb n).1 = drop (Nat.min (Z.to_nat n) (length (toArray rb))) (toArray rb) ∧
  (drain rb n).2 ++ toArray (drain rb n).1 = toArray rb.
Proof.
  intros R Hn. apply reachable_wf in R.
  destruct (drain_spec rb n R ltac:(lia)) as (_ & H1 & H2).
  rewrite toArray_length by done. rewrite H1, H2.
  split; [done|]. split; [done|]. apply take_drop.
Qed.

End Ring.

Arguments t : clear implicits.

(** Witness of C7: capacity 2 and the pushes 10, 20, 30. *)
Lemma ring_push_bounded_evicts_oldest_witness :
  @new_RingBuffer nat 2 = Some (Ring [None; None] 0 0 2) ∧
  ∃ x, [10; 20; 30] !! (3 - Z.to_nat 2 - 1) = Some x ∧
       (push_all (Ring [None; None] 0 0 2) [10; 20; 30]).2 !! (3 - 1) = Some (Some x).
Proof.
  split; [reflexivity|].
  destruct (ring_push_bounded_evicts_oldest 2 (Ring [None; None] 0 0 2) [10; 20; 30]
              eq_refl) as (_ & _ & _ & H).
  destruct (H 3 ltac:(cbn; lia)) as (x & Hx & Hd & _).
  exists x. split; [exact Hx | exact Hd].
Defined.

(** Witness of C8: a buffer of capacity 3 holding 1, 2, 3, drained by 2. *)
Lemma ring_drain_then_toArray_witness :
  (drain (push_all (Ring [None; None; None] 0 0 3) [1; 2; 3]).1 2).2 ++
  toArray (drain (push_all (Ring [None; None; None] 0 0 3) [1; 2; 3]).1 2).1
  = toArray (push_all (Ring [None; None; None] 0 0 3) [1; 2; 3]).1.
Proof.
  refine (proj2 (proj2 (ring_drain_then_toArray
            (push_all (Ring [None; None; None] 0 0 3) [1; 2; 3]).1 2 _ _))).
  - apply push_all_reachable. apply (reach_new 3). reflexivity.
  - lia.
Defined.

(** *** Further properties of the ring *)

Section Further.
Context {T : Type}.

Lemma drain_capacity (rb : t T) n : capacity (drain rb n).1 = capacity rb.
Proof.
  unfold drain. destruct (n <=? 0)%Z; [done|].
  by destruct (drain_loop _ _ _ _ _).
Qed.

Lemma push_conserves (rb : t T) x :
  wf rb →
  from_option (λ y, [y]) [] (push rb x).2 ++ toArray (push rb x).1 = toArray rb ++ [x].
Proof.
  intros W. destruct (decide (size rb < capacity rb)) as [Hlt|Hge].
  - destruct (push_not_full rb x W Hlt) as (_ & -> & ->). done.
  - assert (Hfull : size rb = capacity rb) by (pose proof (wf_size _ W); lia).
    destruct (push_full rb x W Hfull) as (y & ys & -> & _ & -> & ->). done.
Qed.

Lemma push_all_app (rb : t T) xs ys :
  (push_all rb (xs ++ ys)).1 = (push_all (push_all rb xs).1 ys).1.
Proof.
  revert rb. induction xs as [|x xs IH]; intros rb; [done|].
  change ((x :: xs) ++ ys) with (x :: (xs ++ ys)).
  rewrite !push_all_cons. cbn [fst]. apply IH.
Qed.

(** Through any interleaving of [push] and [drain], [length] is the number
    of items [toArray] shows, it never exceeds [maxSize], and [maxSize]
    stays what the constructor was given. *)
Theorem ring_length_matches_contents (rb : t T) :
  reachable rb →
  rb_length rb = length (toArray rb) ∧ rb_length rb ≤ maxSize rb ∧ 0 < maxSize rb ∧
  (∀ x, maxSize (push rb x).1 = maxSize rb) ∧
  (∀ n, maxSize (drain rb n).1 = maxSize rb).
Proof.
  intros W%reachable_wf. split; [by rewrite toArray_length|].
  split; [apply (wf_size _ W)|]. split; [apply (wf_cap _ W)|].
  split; [intros x; apply push_capacity|intros n; apply drain_capacity].
Qed.

(** No item is lost silently: after any run of pushes, the items reported as
    dropped followed by the items held are the items held before followed by
    the pushed ones, in order; and the buffer holds as many as fit. *)
Theorem ring_push_reports_every_eviction (rb : t T) (xs : list T) :
  reachable rb →
  omap id (push_all rb xs).2 ++ toArray (push_all rb xs).1 = toArray rb ++ xs ∧
  length (toArray (push_all rb xs).1) = Nat.min (maxSize rb) (length (toArray rb) + length xs).
Proof.
  intros W%reachable_wf. split.
  - revert rb W. induction xs as [|x xs IH]; intros rb W.
    + cbn. by rewrite app_nil_r.
    + rewrite push_all_cons. cbn [fst snd].
      pose proof (push_conserves rb x W) as Hc.
      specialize (IH (push rb x).1 (push_wf rb x W)).
      assert (E : ∀ (d : option T) ds,
                 omap id (d :: ds) = from_option (λ y, [y]) [] d ++ omap id ds).
      { intros [y|] ds; done. }
      rewrite E, <- app_assoc, IH, app_assoc, Hc, <- app_assoc. done.
  - destruct (push_all_spec xs rb W) as (_ & -> & _).
    pose proof (toArray_length rb W) as Hl. pose proof (wf_size _ W) as Hs.
    rewrite length_drop, length_app. unfold maxSize. lia.
Qed.

(** Draining at least as many items as are held returns them all and
    leaves the buffer empty; pushes then fill it as they fill a new one. *)
Theorem ring_drain_all_resets (rb : t T) (n : Z) (xs : list T) :
  reachable rb → (Z.of_nat (rb_length rb) ≤ n)%Z →
  (drain rb n).2 = toArray rb ∧
  toArray (drain rb n).1 = [] ∧
  rb_length (drain rb n).1 = 0 ∧
  toArray (push_all (drain rb n).1 xs).1 = drop (length xs - maxSize rb) xs.
Proof.
  intros R Hn. pose proof (reachable_wf _ R) as W.
  pose proof (toArray_length rb W) as Hl. unfold rb_length in *.
  assert (H1 : (drain rb n).2 = toArray rb ∧ toArray (drain rb n).1 = []).
  { destruct (decide (n ≤ 0)%Z) as [Hle|Hpos].
    - rewrite drain_nonpositive by done. cbn.
      assert (size rb = 0) by lia.
      destruct (toArray rb); [done|cbn in Hl; lia].
    - destruct (drain_spec rb n W ltac:(lia)) as (_ & -> & ->).
      rewrite Nat.min_r by lia. rewrite <- Hl, take_ge, drop_ge by lia. done. }
  destruct H1 as [H1 H2]. split; [exact H1|]. split; [exact H2|].
  pose proof (drain_wf rb n W) as W'.
  split; [by rewrite <- (toArray_length _ W'), H2|].
  destruct (push_all_spec xs _ W') as (_ & -> & _).
  rewrite H2, drain_capacity. cbn [length app]. unfold maxSize. done.
Qed.

End Further.

(** A buffer of capacity 3 that held 1, 2, 3 and was drained by 1. *)
Definition demo_ring : t nat :=
  (drain (push_all (Ring [None; None; None] 0 0 3) [1; 2; 3]).1 1).1.

Lemma demo_ring_reachable : reachable demo_ring.
Proof.
  apply reach_drain, push_all_reachable. apply (reach_new 3). reflexivity.
Qed.

Lemma ring_length_matches_contents_witness :
  rb_length demo_ring = length (toArray demo_ring) ∧ rb_length demo_ring ≤ maxSize demo_ring.
Proof.
  destruct (ring_length_matches_contents demo_ring demo_ring_reachable) as (H1 & H2 & _).
  split; [exact H1|exact H2].
Defined.

Lemma ring_push_reports_every_eviction_witness :
  omap id (push_all demo_ring [4; 5; 6]).2 ++ toArray (push_all demo_ring [4; 5; 6]).1
  = toArray demo_ring ++ [4; 5; 6].
Proof.
  exact (proj1 (ring_push_reports_every_eviction demo_ring [4; 5; 6] demo_ring_reachable)).
Defined.

Lemma ring_drain_all_resets_witness :
  (drain demo_ring 5).2 = toArray demo_ring ∧
  toArray (push_all (drain demo_ring 5).1 [7; 8]).1 = drop (length [7; 8] - maxSize demo_ring) [7; 8].
Proof.
  destruct (ring_drain_all_resets demo_ring 5 [7; 8] demo_ring_reachable) as (H1 & _ & _ & H2).
  - vm_compute. discriminate.
  - split; [exact H1|exact H2].
Defined.

End RingBuffer.

(** ** Lore types ([src/lore/types.ts]) *)

Module LoreTypes.
Section Types.
Context {RoundSnapshot RoundDerived : Type}.

Record RoundRecord := {
  roundNumber : Z;
  ts : Z;                          (* snapshot.createdAt *)
  receivedAt : Z;                  (* when whisper ingested it *)
  snapshot : RoundSnapshot;
  derived : option RoundDerived;
}.

Record LoreBatch := {
  id : string;
  createdAt : Z;
  rounds : list RoundRecord;
}.

End Types.
Arguments RoundRecord : clear implicits.
Arguments LoreBatch : clear implicits.
End LoreTypes.

(** ** Batch assembler ([src/lore/batcher.ts], class [LoreBatcher]) *)

Module Batcher.
Section Batcher.
Context {RoundSnapshot RoundDerived : Type}.

Abbreviation RoundRecord := (LoreTypes.RoundRecord RoundSnapshot RoundDerived).
Abbreviation LoreBatch := (LoreTypes.LoreBatch RoundSnapshot RoundDerived).

(** [Date.now()]: the value its [k]-th call returns. *)
Variable Date_now : nat → Z.

Record LoreBatcherOptions := {
  roundsCapacity : Z;     (* keep last N rounds *)
  batchSize : Z;          (* create a batch every N rounds *)
  pendingCapacity : Z;    (* keep last N pending batches *)
}.

(** The lines [ingest] writes to the log. *)
Inductive LogLine :=
| lore_round_evicted (roundNumber ts : Z)
| lore_round_ingested (roundNumber : Z) (roundsStored unbatched pendingBatches : nat)
| lore_batch_ready (id : string) (size : nat) (fromRound toRound : Z) (pending : nat).

(** What a registered ready-callback does to the batcher while it runs: it
    can reach the pending ring only (through [drainPending]). The first
    argument counts the notifications fired before this one. *)
Definition ReadyCallback : Type :=
  nat → RingBuffer.t LoreBatch → RingBuffer.t LoreBatch.

Record LoreBatcher := {
  opts : LoreBatcherOptions;
  rounds : RingBuffer.t RoundRecord;
  pendingBatches : RingBuffer.t LoreBatch;
  unbatchedQueue : list RoundRecord;
  onBatchReady : option ReadyCallback;
  notified : nat;            (* notifications fired so far *)
  clock : nat;               (* calls of [Date.now()] so far *)
  log : list LogLine;
}.

(** The constructor: either ring's constructor may throw. *)
Definition new_LoreBatcher (o : LoreBatcherOptions) : option LoreBatcher :=
  match RingBuffer.new_RingBuffer (roundsCapacity o),
        RingBuffer.new_RingBuffer (pendingCapacity o) with
  | Some r, Some p => Some {| opts := o; rounds := r; pendingBatches := p;
                              unbatchedQueue := []; onBatchReady := None;
                              notified := 0; clock := 0; log := [] |}
  | _, _ => None
  end.

Definition setOnBatchReady (st : LoreBatcher) (cb : ReadyCallback) : LoreBatcher :=
  {| opts := opts st; rounds := rounds st; pendingBatches := pendingBatches st;
     unbatchedQueue := unbatchedQueue st; onBatchReady := Some cb;
     notified := notified st; clock := clock st; log := log st |}.

(** The template string of a batch id. *)
Definition batch_id (fromRound toRound now : Z) : string :=
  "batch_" +:+ pretty fromRound +:+ "_" +:+ pretty toRound +:+ "_" +:+ pretty now.

(** One turn of the [while] loop of [ingest], entered with
    [unbatchedQueue.length >= batchSize]. Reading [roundNumber] off a missing
    first or last round is the engine's TypeError. *)
Definition form_batch (st : LoreBatcher) : LoreBatcher * outcome LoreBatch :=
  let n := Z.to_nat (batchSize (opts st)) in
  let rs := take n (unbatchedQueue st) in            (* splice(0, batchSize) *)
  let st1 := {| opts := opts st; rounds := rounds st; pendingBatches := pendingBatches st;
                unbatchedQueue := drop n (unbatchedQueue st);
                onBatchReady := onBatchReady st; notified := notified st;
                clock := clock st; log := log st |} in
  match last rs, head rs with
  | Some tl, Some hd =>
      let tailRound := LoreTypes.roundNumber tl in
      let batch := {| LoreTypes.id := batch_id (LoreTypes.roundNumber hd) tailRound
                                               (Date_now (clock st));
                      LoreTypes.createdAt := Date_now (S (clock st));
                      LoreTypes.rounds := rs |} in
      let pending1 := (RingBuffer.push (pendingBatches st) batch).1 in
      let line := lore_batch_ready (LoreTypes.id batch) (length rs)
                    (LoreTypes.roundNumber hd) tailRound (RingBuffer.rb_length pending1) in
      let pending2 := match onBatchReady st with
                      | Some cb => cb (notified st) pending1
                      | None => pending1
                      end in
      ({| opts := opts st; rounds := rounds st; pendingBatches := pending2;
          unbatchedQueue := drop n (unbatchedQueue st);
          onBatchReady := onBatchReady st;
          notified := match onBatchReady st with
                      | Some _ => S (notified st)
                      | None => notified st
                      end;
          clock := S (S (clock st)); log := log st ++ [line] |},
       Val batch)
  | _, _ => (st1, Exn "TypeError: Cannot read properties of undefined (reading 'roundNumber')")
  end.

(** The [while] loop of [ingest]: the state it leaves and the batches it
    formed, in order. *)
Fixpoint ingest_loop (fuel : nat) (st : LoreBatcher) (formed : list LoreBatch)
  : LoreBatcher * outcome (list LoreBatch) :=
  if (Z.of_nat (length (unbatchedQueue st)) <? batchSize (opts st))%Z then (st, Val formed)
  else
    match fuel with
    | O => (st, Fuel)
    | S fuel' =>
        match form_batch st with
        | (st', Val b) => ingest_loop fuel' st' (formed ++ [b])
        | (st', Exn e) => (st', Exn e)
        | (st', Fuel) => (st', Fuel)
        | (st', Parked) => (st', Parked)
        end
    end.

(** [ingest(record)]. Besides the state it returns the batches this call
    pushed onto [pendingBatches] (a registered callback may already have
    drained them from the ring). *)
Definition ingest (st : LoreBatcher) (record : RoundRecord)
  : LoreBatcher * outcome (list LoreBatch) :=
  let '(rounds1, dropped) := RingBuffer.push (rounds st) record in
  let log1 := match dropped with
              | Some d => log st ++ [lore_round_evicted (LoreTypes.roundNumber d) (LoreTypes.ts d)]
              | None => log st
              end in
  let queue1 := unbatchedQueue st ++ [record] in
  let log2 := log1 ++ [lore_round_ingested (LoreTypes.roundNumber record)
                         (RingBuffer.rb_length rounds1) (length queue1)
                         (RingBuffer.rb_length (pendingBatches st))] in
  ingest_loop (S (length queue1))
    {| opts := opts st; rounds := rounds1; pendingBatches := pendingBatches st;
       unbatchedQueue := queue1; onBatchReady := onBatchReady st;
       notified := notified st; clock := clock st; log := log2 |} [].

(** [ingest] called on each record in delivery order; it stops at the first
    call that throws. *)
Fixpoint ingest_all (st : LoreBatcher) (records : list RoundRecord)
  : LoreBatcher * outcome (list LoreBatch) :=
  match records with
  | [] => (st, Val [])
  | r :: records' =>
      match ingest st r with
      | (st1, Val formed1) =>
          match ingest_all st1 records' with
          | (st2, Val formed2) => (st2, Val (formed1 ++ formed2))
          | other => other
          end
      | other => other
      end
  end.

Definition drainPending (st : LoreBatcher) (n : Z) : LoreBatcher * list LoreBatch :=
  let '(p, out) := RingBuffer.drain (pendingBatches st) n in
  ({| opts := opts st; rounds := rounds st; pendingBatches := p;
      unbatchedQueue := unbatchedQueue st; onBatchReady := onBatchReady st;
      notified := notified st; clock := clock st; log := log st |}, out).

(** [status()]: the queue depths. *)
Record Status := {
  roundsStored : nat;
  st_roundsCapacity : nat;
  unbatched : nat;
  st_batchSize : Z;
  st_pendingBatches : nat;
  st_pendingCapacity : nat;
  lastBatchId : option string;
}.

Definition status (st : LoreBatcher) : Status :=
  let pending := RingBuffer.toArray (pendingBatches st) in
  {| roundsStored := RingBuffer.rb_length (rounds st);
     st_roundsCapacity := RingBuffer.maxSize (rounds st);
     unbatched := length (unbatchedQueue st);
     st_batchSize := batchSize (opts st);
     st_pendingBatches := RingBuffer.rb_length (pendingBatches st);
     st_pendingCapacity := RingBuffer.maxSize (pendingBatches st);
     lastBatchId := LoreTypes.id <$> last pending |}.

(** *** Batch formation *)

(** A batch as [ingest] forms them: [b] rounds, and an id that names the
    round numbers of its first and last round. *)
Definition batch_ok (b : Z) (B : LoreBatch) : Prop :=
  Z.of_nat (length (LoreTypes.rounds B)) = b ∧
  ∃ hd tl now, head (LoreTypes.rounds B) = Some hd ∧ last (LoreTypes.rounds B) = Some tl ∧
     LoreTypes.id B = batch_id (LoreTypes.roundNumber hd) (LoreTypes.roundNumber tl) now.

Lemma form_batch_exact st :
  (0 < batchSize (opts st))%Z →
  Z.of_nat (length (unbatchedQueue st)) = batchSize (opts st) →
  ∃ st' B, form_batch st = (st', Val B) ∧
    opts st' = opts st ∧ unbatchedQueue st' = [] ∧
    LoreTypes.rounds B = unbatchedQueue st ∧ batch_ok (batchSize (opts st)) B.
Proof.
  intros Hb Hlen. unfold form_batch.
  assert (Hn : Z.to_nat (batchSize (opts st)) = length (unbatchedQueue st)) by lia.
  rewrite Hn, take_ge, drop_ge by lia.
  destruct (unbatchedQueue st) as [|r q] eqn:Eq; [cbn in Hlen; lia|].
  destruct (last (r :: q)) as [tl|] eqn:El.
  2:{ apply last_None in El. done. }
  cbn [head]. eexists _, _. split; [reflexivity|]. cbn.
  split; [done|]. split; [done|]. split; [done|].
  split; [done|]. exists r, tl, (Date_now (clock st)). cbn. rewrite El. done.
Qed.

Lemma ingest_step st r :
  (0 < batchSize (opts st))%Z →
  (Z.of_nat (length (unbatchedQueue st)) < batchSize (opts st))%Z →
  ∃ st' formed, ingest st r = (st', Val formed) ∧
    opts st' = opts st ∧
    (Z.of_nat (length (unbatchedQueue st')) < batchSize (opts st))%Z ∧
    concat (LoreTypes.rounds <$> formed) ++ unbatchedQueue st' = unbatchedQueue st ++ [r] ∧
    Forall (batch_ok (batchSize (opts st))) formed.
Proof.
  intros Hb Hq. unfold ingest.
  destruct (RingBuffer.push (rounds st) r) as [rounds1 dropped].
  set (st1 := {| opts := opts st; rounds := rounds1; unbatchedQueue := unbatchedQueue st ++ [r] |}).
  assert (Hl1 : length (unbatchedQueue st1) = S (length (unbatchedQueue st))).
  { cbn. rewrite length_app. cbn. lia. }
  cbn [ingest_loop].
  destruct (Z.of_nat (length (unbatchedQueue st1)) <? batchSize (opts st1))%Z eqn:E.
  - exists st1, []. split; [done|]. apply Z.ltb_lt in E.
    split; [done|]. split; [exact E|]. split; [done|]. constructor.
  - apply Z.ltb_ge in E.
    destruct (form_batch_exact st1) as (st' & B & HF & Ho & Hq' & Hr & Hok).
    { done. } { cbn in E. cbn [opts st1]. rewrite Hl1. cbn in Hl1. lia. }
    rewrite HF. destruct (length (unbatchedQueue st ++ [r])) eqn:El.
    { rewrite length_app in El. cbn in El. lia. }
    cbn [ingest_loop]. rewrite Hq', Ho. cbn [length opts st1].
    rewrite (proj2 (Z.ltb_lt _ _)) by lia.
    exists st', [B]. cbn. rewrite Hq', Hr, !app_nil_r.
    repeat split; try done; try lia. by constructor.
Qed.

Lemma ingest_all_spec rs : ∀ st,
  (0 < batchSize (opts st))%Z →
  (Z.of_nat (length (unbatchedQueue st)) < batchSize (opts st))%Z →
  ∃ st' formed, ingest_all st rs = (st', Val formed) ∧
    opts st' = opts st ∧
    (Z.of_nat (length (unbatchedQueue st')) < batchSize (opts st))%Z ∧
    concat (LoreTypes.rounds <$> formed) ++ unbatchedQueue st' = unbatchedQueue st ++ rs ∧
    Forall (batch_ok (batchSize (opts st))) formed.
Proof.
  induction rs as [|r rs IH]; intros st Hb Hq.
  { exists st, []. cbn. rewrite app_nil_r. done. }
  destruct (ingest_step st r Hb Hq) as (st1 & f1 & H1 & Ho1 & Hq1 & Hc1 & Hok1).
  destruct (IH st1) as (st2 & f2 & H2 & Ho2 & Hq2 & Hc2 & Hok2);
    [by rewrite Ho1..|].
  rewrite Ho1 in *.
  exists st2, (f1 ++ f2). cbn [ingest_all]. rewrite H1, H2.
  split; [done|]. split; [congruence|]. split; [done|]. split.
  - rewrite fmap_app, concat_app, <- app_assoc, Hc2, app_assoc, Hc1, <- app_assoc. done.
  - by apply Forall_app.
Qed.

(** [ingest] always returns: the loop is given enough turns whatever the
    options are, and with a positive batch size it does not throw either. *)
Lemma ingest_loop_enough st formed fuel :
  length (unbatchedQueue st) < fuel →
  (ingest_loop fuel st formed).2 ≠ Fuel.
Proof.
  revert st formed. induction fuel as [|fuel IH]; intros st formed Hf; [lia|].
  cbn [ingest_loop].
  destruct (Z.of_nat (length (unbatchedQueue st)) <? batchSize (opts st))%Z eqn:E; [done|].
  apply Z.ltb_ge in E.
  unfold form_batch.
  destruct (last (take (Z.to_nat (batchSize (opts st))) (unbatchedQueue st))) as [tl|] eqn:El;
    [|done].
  destruct (head (take (Z.to_nat (batchSize (opts st))) (unbatchedQueue st))) as [hd|] eqn:Eh;
    [|done].
  apply IH. cbn. rewrite length_drop.
  destruct (Z.to_nat (batchSize (opts st))) eqn:En; [done|]. lia.
Qed.

Lemma ingest_returns st r : (ingest st r).2 ≠ Fuel.
Proof.
  unfold ingest. destruct (RingBuffer.push (rounds st) r) as [rounds1 dropped].
  apply ingest_loop_enough. cbn. lia.
Qed.

Lemma formed_rounds_length (b : nat) (formed : list LoreBatch) :
  Forall (batch_ok (Z.of_nat b)) formed →
  length (concat (LoreTypes.rounds <$> formed)) = b * length formed.
Proof.
  induction 1 as [|B formed [HB _] _ IH]; cbn; [lia|].
  rewrite length_app, IH. lia.
Qed.

(** The module's singleton: [new LoreBatcher({100, 20, 10})]. *)
Definition loreBatcher : option LoreBatcher :=
  new_LoreBatcher {| roundsCapacity := 100; batchSize := 20; pendingCapacity := 10 |}.

(** C9. A batch assembler with [batchSize = 20] and an empty unbatched queue
    (a fresh one, with or without a ready-callback) that ingests 45 records
    in delivery order forms exactly 2 batches; the first holds records 1..20
    and the second records 21..40, in ingestion order, each id naming the
    round numbers of its first and last record; records 41..45, exactly 5,
    remain in the unbatched queue. *)
Theorem batcher_45_records_two_batches (st0 : LoreBatcher) (rs : list RoundRecord) :
  batchSize (opts st0) = 20%Z → unbatchedQueue st0 = [] → length rs = 45 →
  ∃ st b1 b2,
    ingest_all st0 rs = (st, Val [b1; b2]) ∧
    LoreTypes.rounds b1 = take 20 rs ∧
    LoreTypes.rounds b2 = take 20 (drop 20 rs) ∧
    unbatchedQueue st = drop 40 rs ∧
    length (unbatchedQueue st) = 5 ∧
    (∃ r1 r20 r21 r40 t1 t2,
       rs !! 0 = Some r1 ∧ rs !! 19 = Some r20 ∧ rs !! 20 = Some r21 ∧ rs !! 39 = Some r40 ∧
       LoreTypes.id b1 = batch_id (LoreTypes.roundNumber r1) (LoreTypes.roundNumber r20) t1 ∧
       LoreTypes.id b2 = batch_id (LoreTypes.roundNumber r21) (LoreTypes.roundNumber r40) t2).
Proof.
  intros Hb Hq Hlen.
  destruct (ingest_all_spec rs st0) as (st & formed & Hrun & _ & Hlt & Hcat & Hok).
  { lia. } { rewrite Hq, Hb. cbn. lia. }
  rewrite Hb in Hlt, Hok. rewrite Hq in Hcat. cbn [app] in Hcat.
  pose proof (formed_rounds_length 20 formed Hok) as Hfl.
  assert (Htot : length (concat (LoreTypes.rounds <$> formed)) + length (unbatchedQueue st) = 45).
  { rewrite <- Hlen, <- Hcat, length_app. done. }
  assert (Hnf : length formed = 2) by lia.
  destruct formed as [|b1 [|b2 [|b3 formed]]]; cbn in Hnf; try lia.
  apply Forall_cons in Hok as [[Hl1 (h1 & t1 & n1 & Hh1 & Ht1 & Hid1)] Hok].
  apply Forall_cons in Hok as [[Hl2 (h2 & t2 & n2 & Hh2 & Ht2 & Hid2)] _].
  cbn in Hcat. rewrite app_nil_r in Hcat.
  assert (L1 : length (LoreTypes.rounds b1) = 20) by lia.
  assert (L2 : length (LoreTypes.rounds b2) = 20) by lia.
  exists st, b1, b2. split; [done|].
  assert (E1 : take 20 rs = LoreTypes.rounds b1).
  { rewrite <- Hcat, <- app_assoc. by apply take_app_length'. }
  assert (E2 : drop 20 rs = LoreTypes.rounds b2 ++ unbatchedQueue st).
  { rewrite <- Hcat, <- app_assoc. by apply drop_app_length'. }
  assert (E3 : take 20 (drop 20 rs) = LoreTypes.rounds b2).
  { rewrite E2. by apply take_app_length'. }
  assert (E4 : drop 40 rs = unbatchedQueue st).
  { change 40 with (20 + 20). rewrite <- drop_drop, E2. by apply drop_app_length'. }
  split; [done|]. split; [done|]. split; [done|].
  split. { rewrite <- E4, length_drop. lia. }
  exists h1, t1, h2, t2, n1, n2.
  assert (Hhead : ∀ (l : list RoundRecord) x, head l = Some x → l !! 0 = Some x).
  { by intros [|??] ?. }
  assert (Hlast : ∀ (l : list RoundRecord) x, length l = 20 → last l = Some x → l !! 19 = Some x).
  { intros l x Hl Hx. rewrite last_lookup, Hl in Hx. done. }
  apply Hhead in Hh1, Hh2. apply Hlast in Ht1, Ht2; [|done..].
  rewrite <- E1 in Hh1, Ht1. rewrite <- E3 in Hh2, Ht2.
  rewrite lookup_take_lt in Hh1, Ht1, Hh2, Ht2 by lia.
  rewrite lookup_drop in Hh2, Ht2.
  done.
Qed.

End Batcher.

Arguments LoreBatcher : clear implicits.

(** Witness of C9: the module's singleton, fed rounds 1..45. *)
Definition clock0 (k : nat) : Z := 1700000000000 + Z.of_nat k.

Definition round_n (n : nat) : LoreTypes.RoundRecord unit unit :=
  {| LoreTypes.roundNumber := Z.of_nat n; LoreTypes.ts := Z.of_nat n;
     LoreTypes.receivedAt := Z.of_nat n; LoreTypes.snapshot := tt;
     LoreTypes.derived := None |}.

Definition fresh_singleton : LoreBatcher unit unit :=
  {| opts := {| roundsCapacity := 100; batchSize := 20; pendingCapacity := 10 |};
     rounds := RingBuffer.Ring (replicate 100 None) 0 0 100;
     pendingBatches := RingBuffer.Ring (replicate 10 None) 0 0 10;
     unbatchedQueue := []; onBatchReady := None;
     notified := 0; clock := 0; log := [] |}.

Lemma loreBatcher_fresh : loreBatcher = Some fresh_singleton.
Proof. reflexivity. Qed.

Lemma batcher_45_records_two_batches_witness :
  ∃ st b1 b2,
    ingest_all clock0 fresh_singleton (round_n <$> seq 1 45) = (st, Val [b1; b2]) ∧
    LoreTypes.rounds b1 = round_n <$> seq 1 20 ∧
    LoreTypes.rounds b2 = round_n <$> seq 21 20 ∧
    unbatchedQueue st = round_n <$> seq 41 5.
Proof.
  destruct (batcher_45_records_two_batches clock0 fresh_singleton (round_n <$> seq 1 45))
    as (st & b1 & b2 & H & H1 & H2 & H3 & _); [reflexivity..|].
  exists st, b1, b2. split; [exact H|]. split; [exact H1|]. split; [exact H2|exact H3].
Defined.

(** *** Further properties of the batch assembler *)

Section Further.
Context {RoundSnapshot RoundDerived : Type}.
Variable Date_now : nat → Z.

Local Abbreviation Batch := (LoreTypes.LoreBatch RoundSnapshot RoundDerived).
Local Abbreviation Record_ := (LoreTypes.RoundRecord RoundSnapshot RoundDerived).
Local Abbreviation State := (LoreBatcher RoundSnapshot RoundDerived).

(** How many times the ready-callback runs for [k] new batches. *)
Definition notifications (st : State) (k : nat) : nat :=
  match onBatchReady st with Some _ => k | None => 0 end.

(** What a call leaves untouched or extends, [new] being the batches formed. *)
Record extends (st st' : State) (new : list Batch) : Prop := {
  ext_opts : opts st' = opts st;
  ext_cb : onBatchReady st' = onBatchReady st;
  ext_notified : notified st' = notified st + notifications st (length new);
  ext_pending : onBatchReady st = None →
                pendingBatches st' = (RingBuffer.push_all (pendingBatches st) new).1;
}.

Lemma ingest_loop_extends fuel : ∀ (st : State) acc st' out,
  ingest_loop Date_now fuel st acc = (st', Val out) →
  ∃ new, out = acc ++ new ∧ rounds st' = rounds st ∧ extends st st' new.
Proof.
  induction fuel as [|fuel IH]; intros st acc st' out; cbn [ingest_loop].
  - destruct (_ <? _)%Z; [|done]. intros [= <- <-].
    exists []. rewrite app_nil_r. split; [done|]. split; [done|].
    split; try done. unfold notifications. destruct (onBatchReady st); cbn; lia.
  - destruct (_ <? _)%Z.
    { intros [= <- <-]. exists []. rewrite app_nil_r. split; [done|]. split; [done|].
      split; try done. unfold notifications. destruct (onBatchReady st); cbn; lia. }
    unfold form_batch.
    destruct (last _) as [tl|]; [|done]. destruct (head _) as [hd|]; [|done].
    intros H. apply IH in H as (new & -> & Hr & [Ho Hcb Hn Hp]). cbn in *.
    eexists (_ :: new). split; [by rewrite <- app_assoc|]. split; [exact Hr|].
    split; [done|done| |].
    + rewrite Hn. unfold notifications. cbn. destruct (onBatchReady st); lia.
    + intros Hnone. rewrite RingBuffer.push_all_cons. cbn [fst].
      rewrite Hnone in Hp. by rewrite Hp.
Qed.

Lemma ingest_extends (st : State) r st' formed :
  ingest Date_now st r = (st', Val formed) →
  rounds st' = (RingBuffer.push (rounds st) r).1 ∧ extends st st' formed.
Proof.
  unfold ingest. destruct (RingBuffer.push (rounds st) r) as [rounds1 dropped].
  intros H. apply ingest_loop_extends in H as (new & -> & Hr & [Ho Hcb Hn Hp]).
  cbn in *. split; [exact Hr|]. by split.
Qed.

Lemma ingest_all_extends rs : ∀ (st : State) st' formed,
  ingest_all Date_now st rs = (st', Val formed) →
  rounds st' = (RingBuffer.push_all (rounds st) rs).1 ∧ extends st st' formed.
Proof.
  induction rs as [|r rs IH]; intros st st' formed; cbn [ingest_all].
  - intros [= <- <-]. split; [done|]. split; try done.
    unfold notifications. destruct (onBatchReady st); cbn; lia.
  - destruct (ingest Date_now st r) as [st1 [f1| | |]] eqn:E1; try done.
    destruct (ingest_all Date_now st1 rs) as [st2 [f2| | |]] eqn:E2; try done.
    intros [= <- <-].
    apply ingest_extends in E1 as (Hr1 & [Ho1 Hcb1 Hn1 Hp1]).
    apply IH in E2 as (Hr2 & [Ho2 Hcb2 Hn2 Hp2]).
    split.
    + rewrite Hr2, Hr1, RingBuffer.push_all_cons. done.
    + split; [congruence|congruence| |].
      * rewrite Hn2, Hn1. unfold notifications. rewrite Hcb1, length_app.
        destruct (onBatchReady st); lia.
      * intros Hnone. rewrite Hp2, Hp1 by congruence.
        by rewrite RingBuffer.push_all_app.
Qed.

(** For any positive batch size, the batches formed, in order, followed by
    the unbatched queue are the records that were queued followed by the
    ingested ones: nothing is lost, repeated or reordered.  Every batch has
    exactly [batchSize] rounds, so the number of batches is the quotient and
    the queue left is the remainder. *)
Theorem batcher_forms_consecutive_chunks (st : State) (rs : list Record_) :
  (0 < batchSize (opts st))%Z →
  (Z.of_nat (length (unbatchedQueue st)) < batchSize (opts st))%Z →
  ∃ st' formed,
    ingest_all Date_now st rs = (st', Val formed) ∧
    concat (LoreTypes.rounds <$> formed) ++ unbatchedQueue st' = unbatchedQueue st ++ rs ∧
    Forall (λ B, Z.of_nat (length (LoreTypes.rounds B)) = batchSize (opts st)) formed ∧
    Z.of_nat (length formed)
      = (Z.of_nat (length (unbatchedQueue st) + length rs) / batchSize (opts st))%Z ∧
    Z.of_nat (length (unbatchedQueue st'))
      = (Z.of_nat (length (unbatchedQueue st) + length rs) mod batchSize (opts st))%Z.
Proof.
  intros Hb Hq.
  destruct (ingest_all_spec Date_now rs st Hb Hq) as (st' & formed & H & _ & Hq' & Hc & Hok).
  exists st', formed. split; [exact H|]. split; [exact Hc|].
  split; [eapply Forall_impl; [exact Hok|]; by intros B [HB _]|].
  assert (Hlen : length (concat (LoreTypes.rounds <$> formed))
                 = Z.to_nat (batchSize (opts st)) * length formed).
  { apply formed_rounds_length. by rewrite Z2Nat.id by lia. }
  apply (f_equal length) in Hc. rewrite !length_app, Hlen in Hc.
  set (b := batchSize (opts st)) in *. set (k := length formed) in *.
  set (q := length (unbatchedQueue st')) in *.
  assert (E : Z.of_nat (length (unbatchedQueue st) + length rs)
              = (b * Z.of_nat k + Z.of_nat q)%Z) by nia.
  rewrite E. split.
  - apply (Z.div_unique_pos _ _ _ (Z.of_nat q)); lia.
  - apply (Z.mod_unique_pos _ _ (Z.of_nat k)); lia.
Qed.

(** The ready-callback runs once for each batch formed, and never when none
    is registered. *)
Theorem batcher_notifies_once_per_batch (st st' : State) rs formed :
  ingest_all Date_now st rs = (st', Val formed) →
  onBatchReady st' = onBatchReady st ∧
  notified st' = notified st + match onBatchReady st with
                               | Some _ => length formed
                               | None => 0
                               end.
Proof.
  intros H. apply ingest_all_extends in H as (_ & [_ Hcb Hn _]). by split.
Qed.

(** The history ring holds the latest [roundsCapacity] rounds ingested. *)
Theorem batcher_round_history_window (st st' : State) rs formed :
  RingBuffer.reachable (rounds st) →
  ingest_all Date_now st rs = (st', Val formed) →
  RingBuffer.toArray (rounds st')
    = drop (length (RingBuffer.toArray (rounds st)) + length rs - RingBuffer.maxSize (rounds st))
           (RingBuffer.toArray (rounds st) ++ rs).
Proof.
  intros W%RingBuffer.reachable_wf H. apply ingest_all_extends in H as (-> & _).
  by destruct (RingBuffer.push_all_spec rs _ W) as (_ & -> & _).
Qed.

(** With no consumer registered, the pending ring holds the latest
    [pendingCapacity] batches: a batch formed while the ring is full
    replaces the oldest pending one, which is never processed. *)
Theorem batcher_pending_overflow_drops_oldest (st st' : State) rs formed :
  RingBuffer.reachable (pendingBatches st) → onBatchReady st = None →
  ingest_all Date_now st rs = (st', Val formed) →
  RingBuffer.toArray (pendingBatches st')
    = drop (length (RingBuffer.toArray (pendingBatches st)) + length formed
            - RingBuffer.maxSize (pendingBatches st))
           (RingBuffer.toArray (pendingBatches st) ++ formed).
Proof.
  intros W%RingBuffer.reachable_wf Hcb H.
  apply ingest_all_extends in H as (_ & [_ _ _ Hp]). rewrite Hp by done.
  by destruct (RingBuffer.push_all_spec formed _ W) as (_ & -> & _).
Qed.

(** A batch size of zero or less makes every [ingest] throw a TypeError
    (the empty slice has no last round); the record has already been stored
    and queued, and no batch is formed. *)
Theorem batcher_nonpositive_batch_size_throws (st : State) (r : Record_) :
  (batchSize (opts st) ≤ 0)%Z →
  ∃ st',
    ingest Date_now st r
      = (st', Exn "TypeError: Cannot read properties of undefined (reading 'roundNumber')") ∧
    unbatchedQueue st' = unbatchedQueue st ++ [r] ∧
    rounds st' = (RingBuffer.push (rounds st) r).1 ∧
    pendingBatches st' = pendingBatches st.
Proof.
  intros Hb. unfold ingest.
  destruct (RingBuffer.push (rounds st) r) as [rounds1 dropped]. cbn [fst].
  cbn [ingest_loop unbatchedQueue opts].
  rewrite (proj2 (Z.ltb_ge _ _)) by lia.
  unfold form_batch. cbn [unbatchedQueue opts].
  replace (Z.to_nat (batchSize (opts st))) with 0 by lia.
  rewrite take_0. cbn [last head drop]. eexists. split; [reflexivity|]. done.
Qed.

End Further.

(** A small assembler: batches of 3, a history of 4 rounds, 2 pending batches. *)
Definition small_batcher : LoreBatcher unit unit :=
  {| opts := {| roundsCapacity := 4; batchSize := 3; pendingCapacity := 2 |};
     rounds := RingBuffer.Ring (replicate 4 None) 0 0 4;
     pendingBatches := RingBuffer.Ring (replicate 2 None) 0 0 2;
     unbatchedQueue := []; onBatchReady := None;
     notified := 0; clock := 0; log := [] |}.

Lemma small_batcher_new :
  new_LoreBatcher {| roundsCapacity := 4; batchSize := 3; pendingCapacity := 2 |}
  = Some small_batcher.
Proof. reflexivity. Qed.

(** A consumer that takes one pending batch at each notification. *)
Definition consume_one : ReadyCallback (RoundSnapshot := unit) (RoundDerived := unit) :=
  λ _ pending, (RingBuffer.drain pending 1).1.

Lemma batcher_forms_consecutive_chunks_witness :
  ∃ st' formed,
    ingest_all clock0 small_batcher (round_n <$> seq 1 8) = (st', Val formed) ∧
    concat (LoreTypes.rounds <$> formed) ++ unbatchedQueue st' = round_n <$> seq 1 8 ∧
    Z.of_nat (length formed) = (8 / 3)%Z ∧
    Z.of_nat (length (unbatchedQueue st')) = (8 mod 3)%Z.
Proof.
  destruct (batcher_forms_consecutive_chunks clock0 small_batcher (round_n <$> seq 1 8))
    as (st' & formed & H & Hc & _ & Hk & Hq); [reflexivity..|].
  exists st', formed. split; [exact H|]. split; [exact Hc|]. split; [exact Hk|exact Hq].
Defined.

Lemma batcher_notifies_once_per_batch_witness :
  ∃ st' formed,
    ingest_all clock0 (setOnBatchReady small_batcher consume_one) (round_n <$> seq 1 8)
      = (st', Val formed) ∧
    notified st' = 0 + length formed.
Proof.
  assert (∃ st' formed,
            ingest_all clock0 (setOnBatchReady small_batcher consume_one) (round_n <$> seq 1 8)
            = (st', Val formed)) as (st' & formed & H).
  { vm_compute. eauto. }
  exists st', formed. split; [exact H|].
  exact (proj2 (batcher_notifies_once_per_batch clock0 _ st' _ formed H)).
Defined.

Lemma small_ring_reachable {A} n :
  (0 < n)%Z → (n ≤ 100)%Z →
  RingBuffer.reachable (RingBuffer.Ring (replicate (Z.to_nat n) (@None A)) 0 0 (Z.to_nat n)).
Proof.
  intros H1 H2. apply (RingBuffer.reach_new n). unfold RingBuffer.new_RingBuffer.
  rewrite (proj2 (Z.leb_gt _ _)) by lia.
  rewrite (proj2 (Z.ltb_ge _ _)); [done|]. unfold RingBuffer.MAX_ARRAY_LENGTH. lia.
Qed.

Lemma batcher_round_history_window_witness :
  ∃ st' formed,
    ingest_all clock0 small_batcher (round_n <$> seq 1 8) = (st', Val formed) ∧
    RingBuffer.toArray (rounds st') = round_n <$> seq 5 4.
Proof.
  assert (∃ st' formed,
            ingest_all clock0 small_batcher (round_n <$> seq 1 8) = (st', Val formed))
    as (st' & formed & H).
  { vm_compute. eauto. }
  exists st', formed. split; [exact H|].
  exact (batcher_round_history_window clock0 small_batcher st' _ formed
           (small_ring_reachable 4 ltac:(lia) ltac:(lia)) H).
Defined.

Lemma batcher_pending_overflow_drops_oldest_witness :
  ∃ st' formed,
    ingest_all clock0 small_batcher (round_n <$> seq 1 9) = (st', Val formed) ∧
    RingBuffer.toArray (pendingBatches st') = drop (0 + length formed - 2) formed.
Proof.
  assert (∃ st' formed,
            ingest_all clock0 small_batcher (round_n <$> seq 1 9) = (st', Val formed))
    as (st' & formed & H).
  { vm_compute. eauto. }
  exists st', formed. split; [exact H|].
  exact (batcher_pending_overflow_drops_oldest clock0 small_batcher st' _ formed
           (small_ring_reachable 2 ltac:(lia) ltac:(lia)) eq_refl H).
Defined.

(** Three batches form from nine rounds; the first is no longer pending. *)
Example pending_overflow_example :
  (λ r, (LoreTypes.id <$> r.2, LoreTypes.id <$> RingBuffer.toArray (pendingBatches r.1)))
    (match ingest_all clock0 small_batcher (round_n <$> seq 1 9) with
     | (st', Val formed) => (st', formed)
     | (st', _) => (st', [])
     end)
  = (["batch_1_3_1700000000000"; "batch_4_6_1700000000002"; "batch_7_9_1700000000004"],
     ["batch_4_6_1700000000002"; "batch_7_9_1700000000004"]).
Proof. vm_compute. reflexivity. Qed.

Lemma batcher_nonpositive_batch_size_throws_witness :
  ∃ st',
    ingest clock0
      {| opts := {| roundsCapacity := 4; batchSize := 0; pendingCapacity := 2 |};
         rounds := rounds small_batcher; pendingBatches := pendingBatches small_batcher;
         unbatchedQueue := []; onBatchReady := None; notified := 0; clock := 0; log := [] |}
      (round_n 1)
      = (st', Exn "TypeError: Cannot read properties of undefined (reading 'roundNumber')") ∧
    unbatchedQueue st' = [round_n 1].
Proof.
  destruct (batcher_nonpositive_batch_size_throws clock0
              {| opts := {| roundsCapacity := 4; batchSize := 0; pendingCapacity := 2 |};
                 rounds := rounds small_batcher;
                 pendingBatches := pendingBatches small_batcher;
                 unbatchedQueue := []; onBatchReady := None;
                 notified := 0; clock := 0; log := [] |}
              (round_n 1)) as (st' & H & Hq & _).
  - cbn. lia.
  - exists st'. split; [exact H|exact Hq].
Defined.

End Batcher.

(** ** Single-flight permit gate ([nearAiClient.ts]: [Semaphore], [withNearAiPermit])

    The program is single-threaded: between two suspension points a call
    runs to its end.  The gate is therefore a state machine over three kinds
    of events: a caller invokes [acquire], a holder calls the release
    function it was given, a queue timer fires.  Promises and release
    closures are named by the number of the [acquire] call that created
    them, so the order of the numbers is the order of the calls.

    [withNearAiPermit(label, fn)] is the client that awaits [acquire], runs
    [fn] once the promise resolves, and calls the release function in its
    [finally]: its work is running exactly while its number is in [live]. *)

Module Semaphore.

(** A queued waiter: its promise, and whether a timer handle is stored. *)
Record Waiter := { wid : nat; timer : bool }.

Record Semaphore := {
  capacity : Z;
  available : Z;
  queue : list Waiter;
}.

Definition TIMEOUT_MESSAGE : string := "NEAR AI queue timeout".

(** The gate and what the runtime holds for it. *)
Record World := {
  sem : Semaphore;
  calls : nat;                      (* [acquire] calls made so far *)
  timers : list nat;                (* timers armed, neither fired nor cleared *)
  resolved : list nat;              (* promises resolved with a release function, in order *)
  rejected : list (nat * string);   (* promises rejected, with the error message *)
  live : list nat;                  (* release functions delivered whose [released] is false *)
}.

Definition new_Semaphore (cap : Z) : World :=
  {| sem := {| capacity := cap; available := cap; queue := [] |};
     calls := 0; timers := []; resolved := []; rejected := []; live := [] |}.

(** [getNearAiSemaphore()]: the hard-coded single-flight gate. *)
Definition nearAiSemaphore : World := new_Semaphore 1.

Definition stats (w : World) : Z * Z * nat :=
  (capacity (sem w), available (sem w), length (queue (sem w))).

(** A promise settles once: resolving or rejecting a settled one does nothing. *)
Definition settled (w : World) (i : nat) : bool :=
  bool_decide (i ∈ resolved w) || bool_decide (i ∈ (rejected w).*1).

(** [queue.indexOf(waiter)] then [splice(idx, 1)]. *)
Fixpoint remove_waiter (i : nat) (q : list Waiter) : list Waiter :=
  match q with
  | [] => []
  | x :: q' => if decide (wid x = i) then q' else x :: remove_waiter i q'
  end.

Inductive Event :=
| Acquire (timeoutMs : option Z)    (* a caller invokes [acquire(timeoutMs)] *)
| Release (i : nat)                 (* the release function of grant [i] is called *)
| TimerFires (i : nat).             (* the timeout callback of waiter [i] runs *)

(** [resolve(this.makeRelease())] on promise [i]. *)
Definition resolve_with_release (w : World) (s : Semaphore) (tm : list nat) (i : nat) : World :=
  if settled w i then
    {| sem := s; calls := calls w; timers := tm; resolved := resolved w;
       rejected := rejected w; live := live w |}
  else
    {| sem := s; calls := calls w; timers := tm; resolved := resolved w ++ [i];
       rejected := rejected w; live := live w ++ [i] |}.

Definition acquire (w : World) (timeoutMs : option Z) : World :=
  let i := calls w in
  let s := sem w in
  if (0 <? available s)%Z then
    (* Promise.resolve(this.makeRelease()): a promise born resolved *)
    {| sem := {| capacity := capacity s; available := available s - 1; queue := queue s |};
       calls := S i; timers := timers w; resolved := resolved w ++ [i];
       rejected := rejected w; live := live w ++ [i] |}
  else
    let armed := match timeoutMs with
                 | Some ms => (0 <? ms)%Z      (* timeoutMs && timeoutMs > 0 *)
                 | None => false
                 end in
    {| sem := {| capacity := capacity s; available := available s;
                 queue := queue s ++ [{| wid := i; timer := armed |}] |};
       calls := S i;
       timers := (if armed then timers w ++ [i] else timers w);
       resolved := resolved w; rejected := rejected w; live := live w |}.

(** The function returned by [makeRelease()] for grant [i]. *)
Definition release (w : World) (i : nat) : World :=
  if bool_decide (i ∈ live w) then
    let s := sem w in
    let live1 := filter (λ j, j ≠ i) (live w) in           (* released = true *)
    let avail1 := (available s + 1)%Z in
    match queue s with
    | [] =>
        {| sem := {| capacity := capacity s; available := avail1; queue := [] |};
           calls := calls w; timers := timers w; resolved := resolved w;
           rejected := rejected w; live := live1 |}
    | next :: rest =>
        let tm := if timer next then filter (λ j, j ≠ wid next) (timers w) else timers w in
        resolve_with_release
          {| sem := s; calls := calls w; timers := timers w; resolved := resolved w;
             rejected := rejected w; live := live1 |}
          {| capacity := capacity s; available := avail1 - 1; queue := rest |}
          tm (wid next)
    end
  else w.                                                   (* if (released) return *)

(** The callback given to [setTimeout] for waiter [i]. *)
Definition on_timeout (w : World) (i : nat) : World :=
  let s := sem w in
  {| sem := {| capacity := capacity s; available := available s;
               queue := remove_waiter i (queue s) |};
     calls := calls w;
     timers := filter (λ j, j ≠ i) (timers w);
     resolved := resolved w;
     rejected := (if settled w i then rejected w else rejected w ++ [(i, TIMEOUT_MESSAGE)]);
     live := live w |}.

(** One event. [None]: the event cannot happen in this state (no such release
    function was handed out, no such timer is pending). *)
Definition step (w : World) (e : Event) : option World :=
  match e with
  | Acquire t => Some (acquire w t)
  | Release i => if bool_decide (i ∈ resolved w) then Some (release w i) else None
  | TimerFires i => if bool_decide (i ∈ timers w) then Some (on_timeout w i) else None
  end.

Fixpoint run (w : World) (evs : list Event) : option World :=
  match evs with
  | [] => Some w
  | e :: evs' => match step w e with
                 | Some w' => run w' evs'
                 | None => None
                 end
  end.

Definition queued (w : World) : list nat := wid <$> queue (sem w).

(** *** Facts about the queue *)

Lemma remove_waiter_elem i q x : x ∈ remove_waiter i q → x ∈ q.
Proof.
  induction q as [|y q IH]; cbn; [done|].
  destruct (decide (wid y = i)); [by right|].
  intros [->|H]%elem_of_cons; [left|right; auto].
Qed.

Lemma remove_waiter_keeps i q x : x ∈ q → wid x ≠ i → x ∈ remove_waiter i q.
Proof.
  induction q as [|y q IH]; cbn; [done|].
  intros [->|H]%elem_of_cons Hne.
  - rewrite decide_False by done. left.
  - destruct (decide (wid y = i)); [done|]. right. auto.
Qed.

Lemma remove_waiter_sorted i q :
  StronglySorted lt (wid <$> q) →
  StronglySorted lt (wid <$> remove_waiter i q) ∧ i ∉ wid <$> remove_waiter i q.
Proof.
  induction q as [|y q IH]; cbn; [intros _; split; [constructor|by intros ?%elem_of_nil]|].
  intros [Hall Hs]%StronglySorted_cons.
  destruct (decide (wid y = i)) as [<-|Hne].
  - split; [done|]. intros Hin. rewrite Forall_forall in Hall.
    specialize (Hall _ Hin). lia.
  - destruct (IH Hs) as [IH1 IH2]. cbn. split.
    + apply StronglySorted_cons. split; [|done].
      rewrite Forall_forall in Hall |- *. intros j Hj. apply Hall.
      apply list_elem_of_fmap in Hj as (x & -> & Hx).
      apply list_elem_of_fmap. exists x. split; [done|]. by eapply remove_waiter_elem.
    + intros [E|Hin]%elem_of_cons; [congruence|done].
Qed.

Lemma remove_waiter_ids i q j : j ∈ wid <$> remove_waiter i q → j ∈ wid <$> q.
Proof.
  intros (x & -> & Hx)%list_elem_of_fmap. apply list_elem_of_fmap.
  exists x. split; [done|]. by eapply remove_waiter_elem.
Qed.

Lemma filter_ne_length (i : nat) (l : list nat) :
  NoDup l → i ∈ l → S (length (filter (λ j, j ≠ i) l)) = length l.
Proof.
  induction 1 as [|x l Hx Hnd IH]; [by intros ?%elem_of_nil|].
  intros [->|Hin]%elem_of_cons.
  - rewrite filter_cons_False by (intros ?; done). cbn. f_equal.
    clear IH Hnd. induction l as [|y l IH]; [done|].
    apply not_elem_of_cons in Hx as [Hne Hx].
    rewrite filter_cons_True by done. cbn. f_equal. auto.
  - assert (x ≠ i) by (intros ->; done).
    rewrite filter_cons_True by done. cbn. f_equal. auto.
Qed.

(** *** The invariant of the gate *)

Record Inv (w : World) : Prop := {
  inv_avail : (0 ≤ available (sem w))%Z;
  inv_slots : (available (sem w) + Z.of_nat (length (live w)) = capacity (sem w))%Z;
  inv_busy : queue (sem w) ≠ [] → available (sem w) = 0%Z;
  inv_order : StronglySorted lt (resolved w ++ queued w);
  inv_fresh : ∀ i, i ∈ resolved w ∨ i ∈ queued w ∨ i ∈ (rejected w).*1 → i < calls w;
  inv_complete : ∀ i, i < calls w → i ∈ resolved w ∨ i ∈ (rejected w).*1 ∨ i ∈ queued w;
  inv_rejected : ∀ i, i ∈ (rejected w).*1 → (i ∉ resolved w) ∧ (i ∉ queued w);
  inv_timers : ∀ i, i ∈ timers w → {| wid := i; timer := true |} ∈ queue (sem w);
  inv_live_nodup : NoDup (live w);
  inv_live : ∀ i, i ∈ live w → i ∈ resolved w;
  inv_msg : ∀ i m, (i, m) ∈ rejected w → m = TIMEOUT_MESSAGE;
}.

Lemma new_Semaphore_inv cap : (0 ≤ cap)%Z → Inv (new_Semaphore cap).
Proof.
  intros Hc. split; cbn.
  - done.
  - lia.
  - done.
  - apply SSorted_nil.
  - intros i [H|[H|H]]; by apply elem_of_nil in H.
  - lia.
  - intros i H; by apply elem_of_nil in H.
  - intros i H; by apply elem_of_nil in H.
  - apply NoDup_nil_2.
  - intros i H; by apply elem_of_nil in H.
  - intros i m H; by apply elem_of_nil in H.
Qed.

Lemma inv_queued_unsettled w i : Inv w → i ∈ queued w → settled w i = false.
Proof.
  intros I Hq. unfold settled.
  rewrite bool_decide_eq_false_2, bool_decide_eq_false_2; [done| |].
  - intros Hr. by apply (inv_rejected _ I) in Hr as [_ ?].
  - intros Hr. pose proof (inv_order _ I) as Hs.
    pose proof (StronglySorted_app_1_elem_of _ _ _ _ _ Hs Hr Hq). lia.
Qed.

Lemma acquire_inv w t : Inv w → Inv (acquire w t).
Proof.
  intros I. pose proof I as [Ha Hsl Hb Ho Hf Hc Hr Ht Hnd Hl Hm].
  unfold acquire. destruct (0 <? available (sem w))%Z eqn:E.
  - apply Z.ltb_lt in E.
    assert (Hq : queue (sem w) = []).
    { destruct (queue (sem w)) eqn:Eq; [done|]. rewrite Hb in E; [lia|done]. }
    unfold queued in *. rewrite Hq in *. cbn in Ho, Hf, Hc, Hr.
    split; cbn -[Z.of_nat]; rewrite ?Hq; cbn -[Z.of_nat].
    + lia.
    + rewrite length_app. cbn -[Z.of_nat]. lia.
    + done.
    + rewrite app_nil_r in *. apply StronglySorted_app_2; [|done|repeat constructor].
      intros x y Hx ->%list_elem_of_singleton. apply Hf. by left.
    + intros i [[H| ->%list_elem_of_singleton]%elem_of_app|[H|H]].
      * assert (i < calls w) by (apply Hf; by left). lia.
      * lia.
      * by apply elem_of_nil in H.
      * assert (i < calls w) by (apply Hf; by right; right). lia.
    + intros i Hi. destruct (decide (i = calls w)) as [->|Hne].
      * left. apply elem_of_app. right. by apply list_elem_of_singleton.
      * destruct (Hc i) as [H|[H|H]]; [lia| | |].
        -- left. apply elem_of_app. by left.
        -- by right; left.
        -- by apply elem_of_nil in H.
    + intros i Hi. split; [|by intros ?%elem_of_nil].
      intros [H| ->%list_elem_of_singleton]%elem_of_app.
      * by apply Hr in Hi as [? _].
      * assert (calls w < calls w) by (apply Hf; by right; right). lia.
    + intros i Hi. apply Ht in Hi. by apply elem_of_nil in Hi.
    + apply NoDup_app. split; [done|]. split; [|apply NoDup_singleton].
      intros x Hx ->%list_elem_of_singleton.
      assert (calls w < calls w) by (apply Hf; left; by apply Hl). lia.
    + intros i [H| ->%list_elem_of_singleton]%elem_of_app; apply elem_of_app.
      * left. by apply Hl.
      * right. by apply list_elem_of_singleton.
    + done.
  - apply Z.ltb_ge in E.
    set (armed := match t with Some ms => (0 <? ms)%Z | None => false end).
    assert (Hq' : ∀ i, i ∈ wid <$> (queue (sem w) ++ [{| wid := calls w; timer := armed |}])
                      ↔ i ∈ queued w ∨ i = calls w).
    { intros i. rewrite fmap_app, elem_of_app. cbn. by rewrite list_elem_of_singleton. }
    split; unfold queued in *; cbn -[Z.of_nat].
    + done.
    + done.
    + intros _. lia.
    + rewrite fmap_app, app_assoc. cbn.
      apply StronglySorted_app_2; [|done|repeat constructor].
      intros x y Hx ->%list_elem_of_singleton. apply Hf.
      apply elem_of_app in Hx as [?|?]; [by left|by right; left].
    + intros i [H|[H|H]].
      * assert (i < calls w) by (apply Hf; by left). lia.
      * apply Hq' in H as [H| ->]; [|lia].
        assert (i < calls w) by (apply Hf; by right; left). lia.
      * assert (i < calls w) by (apply Hf; by right; right). lia.
    + intros i Hi. destruct (decide (i = calls w)) as [->|Hne].
      * right; right. apply Hq'. by right.
      * destruct (Hc i) as [H|[H|H]]; [lia|by left|by right; left|].
        right; right. apply Hq'. by left.
    + intros i Hi. split; [by apply Hr in Hi as [? _]|].
      intros [H| ->]%Hq'; [by apply Hr in Hi as [_ ?]|].
      assert (calls w < calls w) by (apply Hf; by right; right). lia.
    + intros i Hi. apply elem_of_app.
      destruct armed eqn:Ea.
      * apply elem_of_app in Hi as [Hi| ->%list_elem_of_singleton]; [left; by apply Ht|].
        right. by apply list_elem_of_singleton.
      * left. by apply Ht.
    + done.
    + done.
    + done.
Qed.

Lemma settled_same w w0 i :
  resolved w0 = resolved w → rejected w0 = rejected w → settled w0 i = settled w i.
Proof. intros H1 H2. unfold settled. by rewrite H1, H2. Qed.

Lemma release_inv w i : Inv w → Inv (release w i).
Proof.
  intros I. pose proof I as [Ha Hsl Hb Ho Hf Hc Hr Ht Hnd Hl Hm].
  unfold release. destruct (bool_decide (i ∈ live w)) eqn:E; [|done].
  apply bool_decide_eq_true in E.
  pose proof (filter_ne_length i (live w) Hnd E) as Hlen.
  assert (Hsub : ∀ j, j ∈ filter (λ j, j ≠ i) (live w) → j ∈ live w).
  { intros j Hj. by apply list_elem_of_filter in Hj as [_ ?]. }
  assert (Hnd1 : NoDup (filter (λ j, j ≠ i) (live w))) by by apply NoDup_filter.
  destruct (queue (sem w)) as [|next rest] eqn:Eq.
  - unfold queued in *. rewrite Eq in *.
    split; cbn -[Z.of_nat]; try done; try lia.
    intros j Hj. apply Hl. by apply Hsub.
  - assert (Hav : available (sem w) = 0%Z) by (apply Hb; done).
    assert (Hnq : wid next ∈ queued w).
    { unfold queued. rewrite Eq. cbn. left. }
    unfold resolve_with_release.
    erewrite settled_same by (cbn; reflexivity).
    rewrite (inv_queued_unsettled w (wid next) I Hnq).
    assert (Hnr : wid next ∉ resolved w).
    { intros Hin. pose proof (StronglySorted_app_1_elem_of _ _ _ _ _ Ho Hin Hnq). lia. }
    unfold queued in *. rewrite Eq in *. cbn in Ho, Hf, Hc, Hr, Hnq.
    assert (Hrest : ∀ j, j ∈ wid <$> rest → wid next < j).
    { intros j Hj. apply StronglySorted_app_1_r in Ho.
      apply StronglySorted_cons in Ho as [Hall _]. rewrite Forall_forall in Hall. auto. }
    split; cbn -[Z.of_nat].
    + lia.
    + rewrite length_app. cbn -[Z.of_nat]. lia.
    + intros _. lia.
    + rewrite <- app_assoc. done.
    + intros j [[H| ->%list_elem_of_singleton]%elem_of_app|[H|H]].
      * apply Hf. by left.
      * apply Hf. right; left. left.
      * apply Hf. right; left. by right.
      * apply Hf. by right; right.
    + intros j Hj. destruct (Hc j Hj) as [H|[H|H]].
      * left. apply elem_of_app. by left.
      * right; by left.
      * apply elem_of_cons in H as [->|H].
        -- left. apply elem_of_app. right. by apply list_elem_of_singleton.
        -- right; by right.
    + intros j Hj. destruct (Hr j Hj) as [H1 H2]. split.
      * intros [H| ->%list_elem_of_singleton]%elem_of_app; [done|]. apply H2. left.
      * intros H. apply H2. by right.
    + intros j Hj.
      assert (Hj' : j ∈ timers w ∧ (timer next = true → j ≠ wid next)).
      { destruct (timer next); [|done].
        apply list_elem_of_filter in Hj as [? ?]. done. }
      destruct Hj' as [Hjt Hjn]. apply Ht in Hjt.
      apply elem_of_cons in Hjt as [Hjt|Hjt]; [|done].
      exfalso. subst next. by apply Hjn.
    + apply NoDup_app. split; [done|]. split; [|apply NoDup_singleton].
      intros x Hx ->%list_elem_of_singleton. apply Hnr, Hl. by apply Hsub.
    + intros j [H| ->%list_elem_of_singleton]%elem_of_app; apply elem_of_app.
      * left. apply Hl. by apply Hsub.
      * right. by apply list_elem_of_singleton.
    + done.
Qed.

Lemma on_timeout_inv w i : Inv w → i ∈ timers w → Inv (on_timeout w i).
Proof.
  intros I Hi. pose proof I as [Ha Hsl Hb Ho Hf Hc Hr Ht Hnd Hl Hm].
  assert (Hq : i ∈ queued w).
  { apply Ht in Hi. unfold queued. apply list_elem_of_fmap.
    exists {| wid := i; timer := true |}. done. }
  unfold on_timeout. rewrite (inv_queued_unsettled w i I Hq).
  destruct (remove_waiter_sorted i (queue (sem w))) as [Hs Hni].
  { by apply StronglySorted_app_1_r in Ho. }
  assert (Hnr : i ∉ resolved w).
  { intros Hin. pose proof (StronglySorted_app_1_elem_of _ _ _ _ _ Ho Hin Hq). lia. }
  split; unfold queued in *; cbn -[Z.of_nat].
  - done.
  - done.
  - intros Hne. apply Hb. intros E. rewrite E in Hne. done.
  - apply StronglySorted_app_2; [|by eapply StronglySorted_app_1_l|done].
    intros x y Hx Hy. apply remove_waiter_ids in Hy.
    by eapply StronglySorted_app_1_elem_of.
  - rewrite fmap_app. cbn.
    intros j [H|[H|[H| ->%list_elem_of_singleton]%elem_of_app]]; apply Hf.
    + by left.
    + right; left. by eapply remove_waiter_ids.
    + by right; right.
    + by right; left.
  - rewrite fmap_app. cbn. intros j Hj.
    destruct (decide (j = i)) as [->|Hne].
    { right; left. apply elem_of_app. right. by apply list_elem_of_singleton. }
    destruct (Hc j Hj) as [H|[H|H]].
    + by left.
    + right; left. apply elem_of_app. by left.
    + right; right. apply list_elem_of_fmap in H as (x & -> & Hx).
      apply list_elem_of_fmap. exists x. split; [done|]. by apply remove_waiter_keeps.
  - rewrite fmap_app. cbn.
    intros j [H| ->%list_elem_of_singleton]%elem_of_app.
    + destruct (Hr j H) as [H1 H2]. split; [done|].
      intros H3. apply H2. by eapply remove_waiter_ids.
    + done.
  - intros j Hj. apply list_elem_of_filter in Hj as [Hne Hj].
    apply remove_waiter_keeps; [by apply Ht|done].
  - done.
  - done.
  - intros j m [H|H%list_elem_of_singleton]%elem_of_app; [by eapply Hm|congruence].
Qed.

Lemma step_inv w e w' : Inv w → step w e = Some w' → Inv w'.
Proof.
  intros I. destruct e as [t|i|i]; cbn.
  - intros [= <-]. by apply acquire_inv.
  - destruct (bool_decide (i ∈ resolved w)); [|done]. intros [= <-]. by apply release_inv.
  - destruct (bool_decide (i ∈ timers w)) eqn:E; [|done]. intros [= <-].
    apply on_timeout_inv; [done|]. by apply bool_decide_eq_true in E.
Qed.

Lemma run_inv evs : ∀ w w', Inv w → run w evs = Some w' → Inv w'.
Proof.
  induction evs as [|e evs IH]; intros w w' I; cbn.
  - by intros [= <-].
  - destruct (step w e) as [w1|] eqn:E; [|done]. intros H.
    eapply IH; [|done]. by eapply step_inv.
Qed.

(** A rejection is final. *)
Lemma step_rejected w e w' x : step w e = Some w' → x ∈ rejected w → x ∈ rejected w'.
Proof.
  destruct e as [t|i|i]; cbn.
  - intros [= <-]. unfold acquire. by destruct (0 <? available (sem w))%Z.
  - destruct (bool_decide (i ∈ resolved w)); [|done]. intros [= <-].
    unfold release. destruct (bool_decide (i ∈ live w)); [|done].
    destruct (queue (sem w)); [done|]. unfold resolve_with_release.
    by destruct (settled _ _).
  - destruct (bool_decide (i ∈ timers w)); [|done]. intros [= <-]. cbn.
    destruct (settled w i); [done|]. intros ?. apply elem_of_app. by left.
Qed.

Lemma run_rejected evs : ∀ w w' x, run w evs = Some w' → x ∈ rejected w → x ∈ rejected w'.
Proof.
  induction evs as [|e evs IH]; intros w w' x; cbn.
  - by intros [= <-].
  - destruct (step w e) as [w1|] eqn:E; [|done]. intros H Hx.
    eapply IH; [done|]. by eapply step_rejected.
Qed.

Lemma step_capacity w e w' : step w e = Some w' → capacity (sem w') = capacity (sem w).
Proof.
  destruct e as [t|i|i]; cbn.
  - intros [= <-]. unfold acquire. by destruct (0 <? available (sem w))%Z.
  - destruct (bool_decide (i ∈ resolved w)); [|done]. intros [= <-].
    unfold release. destruct (bool_decide (i ∈ live w)); [|done].
    destruct (queue (sem w)); [done|]. unfold resolve_with_release.
    by destruct (settled _ _).
  - destruct (bool_decide (i ∈ timers w)); [|done]. by intros [= <-].
Qed.

Lemma run_capacity evs : ∀ w w', run w evs = Some w' → capacity (sem w') = capacity (sem w).
Proof.
  induction evs as [|e evs IH]; intros w w'; cbn.
  - by intros [= <-].
  - destruct (step w e) as [w1|] eqn:E; [|done]. intros H.
    rewrite (IH _ _ H). by eapply step_capacity.
Qed.

(** With one slot, a held permit means nothing is available. *)
Lemma single_slot_held w :
  Inv w → capacity (sem w) = 1%Z → live w ≠ [] →
  available (sem w) = 0%Z ∧ ∃ h, live w = [h].
Proof.
  intros I Hc Hl. pose proof (inv_avail _ I). pose proof (inv_slots _ I) as Hs.
  rewrite Hc in Hs. destruct (live w) as [|h [|h' l]]; [done| |cbn in Hs; lia].
  split; [cbn in Hs; lia|]. by exists h.
Qed.

Lemma app_singleton_neq {A} (l : list A) (x : A) : l ≠ l ++ [x].
Proof. intros E. apply (f_equal length) in E. rewrite length_app in E. cbn in E. lia. Qed.

(** C1. For the single-slot gate [new Semaphore(1)], after any sequence of
    [acquire] calls, release calls and timer expiries:
    - at most one caller holds the permit;
    - permits are granted in the order of the [acquire] calls, and a call is
      passed over only if its wait timed out;
    - an [acquire] made while the permit is held joins the end of the queue,
      and the holder's release hands the permit to the head of the queue;
    - a permit is granted while another is held only by the holder's own
      release, so a waiter's work starts after the previous holder released;
    - a queued [acquire(timeoutMs)] whose timer fires is rejected with the
      timeout error, leaves the queue, takes no slot, and is never granted. *)
Theorem permit_gate_single_slot_fifo (evs : list Event) (w : World) :
  run nearAiSemaphore evs = Some w →
  length (live w) ≤ 1 ∧
  StronglySorted lt (resolved w) ∧
  (∀ i j, i < j → j ∈ resolved w →
     i ∈ resolved w ∨ (i, TIMEOUT_MESSAGE) ∈ rejected w) ∧
  (∀ t, live w ≠ [] →
     resolved (acquire w t) = resolved w ∧ queued (acquire w t) = queued w ++ [calls w]) ∧
  (∀ h n rest, live w = [h] → queued w = n :: rest →
     resolved (release w h) = resolved w ++ [n] ∧ live (release w h) = [n] ∧
     queued (release w h) = rest) ∧
  (∀ e w' i, step w e = Some w' → resolved w' = resolved w ++ [i] → live w ≠ [] →
     ∃ h, e = Release h ∧ live w = [h] ∧ live w' = [i]) ∧
  (∀ i w', step w (TimerFires i) = Some w' →
     i ∈ queued w ∧ (i, TIMEOUT_MESSAGE) ∈ rejected w' ∧ (i ∉ queued w') ∧
     available (sem w') = available (sem w) ∧ live w' = live w ∧
     ∀ evs' w'', run w' evs' = Some w'' → (i ∉ resolved w'') ∧ (i ∉ live w'')).
Proof.
  intros Hrun.
  assert (I : Inv w).
  { eapply run_inv; [|done]. by apply new_Semaphore_inv. }
  assert (Hcap : capacity (sem w) = 1%Z) by by rewrite (run_capacity _ _ _ Hrun).
  pose proof I as [Ha Hsl Hb Ho Hf Hc Hr Ht Hnd Hl Hm].
  split; [rewrite Hcap in Hsl; lia|].
  split; [by eapply StronglySorted_app_1_l|].
  split; [|split; [|split; [|split]]].
  - intros i j Hij Hj.
    assert (Hi : i < calls w). { assert (j < calls w) by (apply Hf; by left). lia. }
    destruct (Hc i Hi) as [H|[H|H]]; [by left| |].
    + right. apply list_elem_of_fmap in H as ([i' m] & -> & H). cbn.
      by rewrite <- (Hm _ _ H).
    + pose proof (StronglySorted_app_1_elem_of _ _ _ _ _ Ho Hj H). lia.
  - intros t Hlive. destruct (single_slot_held w I Hcap Hlive) as [Hav _].
    unfold acquire, queued. rewrite Hav. cbn. by rewrite fmap_app.
  - intros h n rest Hlive Hq.
    assert (Hav : available (sem w) = 0%Z).
    { apply (single_slot_held w I Hcap). by rewrite Hlive. }
    unfold release, queued in *. rewrite Hlive.
    rewrite bool_decide_eq_true_2 by left.
    destruct (queue (sem w)) as [|next rest'] eqn:Eq; [done|].
    cbn in Hq. injection Hq as <- <-.
    unfold resolve_with_release. erewrite settled_same by (cbn; reflexivity).
    rewrite (inv_queued_unsettled w (wid next) I) by (unfold queued; rewrite Eq; left).
    cbn. rewrite decide_False by (intros ?; done). done.
  - intros e w' i Hstep Hres Hlive.
    destruct (single_slot_held w I Hcap Hlive) as [Hav [h Hh]].
    destruct e as [t|j|j]; cbn in Hstep.
    + injection Hstep as <-. exfalso. revert Hres. unfold acquire. rewrite Hav. cbn.
      apply app_singleton_neq.
    + destruct (bool_decide (j ∈ resolved w)); [|done]. injection Hstep as <-.
      revert Hres. unfold release. rewrite Hh.
      destruct (bool_decide (j ∈ [h])) eqn:Ej.
      2:{ intros E. exfalso. by eapply app_singleton_neq. }
      apply bool_decide_eq_true, list_elem_of_singleton in Ej as ->.
      destruct (queue (sem w)) as [|next rest] eqn:Eq.
      { cbn. intros E. exfalso. by eapply app_singleton_neq. }
      unfold resolve_with_release. erewrite settled_same by (cbn; reflexivity).
      rewrite (inv_queued_unsettled w (wid next) I) by (unfold queued; rewrite Eq; left).
      cbn. rewrite decide_False by (intros ?; done). cbn.
      intros ->%app_inj_tail%proj2. by exists h.
    + destruct (bool_decide (j ∈ timers w)); [|done]. injection Hstep as <-.
      cbn in Hres. exfalso. by eapply app_singleton_neq.
  - intros i w' Hstep. cbn in Hstep.
    destruct (bool_decide (i ∈ timers w)) eqn:Ei; [|done]. injection Hstep as <-.
    apply bool_decide_eq_true in Ei.
    assert (Hq : i ∈ queued w).
    { apply Ht in Ei. apply list_elem_of_fmap. exists {| wid := i; timer := true |}. done. }
    assert (Hrej : (i, TIMEOUT_MESSAGE) ∈ rejected (on_timeout w i)).
    { cbn. rewrite (inv_queued_unsettled w i I Hq). apply elem_of_app. right. left. }
    split; [done|]. split; [done|]. split.
    { unfold queued. cbn. apply remove_waiter_sorted. by eapply StronglySorted_app_1_r. }
    split; [done|]. split; [done|].
    intros evs' w'' Hrun'.
    assert (I'' : Inv w'').
    { eapply run_inv; [|done]. by apply on_timeout_inv. }
    pose proof (run_rejected _ _ _ _ Hrun' Hrej) as Hrej''.
    assert (Hin : i ∈ (rejected w'').*1).
    { apply list_elem_of_fmap. by exists (i, TIMEOUT_MESSAGE). }
    destruct (inv_rejected _ I'' i Hin) as [Hnr _].
    split; [done|]. intros Hlive. by apply Hnr, (inv_live _ I'').
Qed.

(** Witness of C1: three callers; the second waits with a timeout that
    expires, the third without one and is served after the first releases. *)
Lemma permit_gate_single_slot_fifo_witness :
  ∃ w, run nearAiSemaphore
         [Acquire None; Acquire (Some 5%Z); Acquire None; TimerFires 1; Release 0] = Some w ∧
       resolved w = [0; 2] ∧ rejected w = [(1, TIMEOUT_MESSAGE)] ∧ live w = [2] ∧
       length (live w) ≤ 1 ∧ StronglySorted lt (resolved w).
Proof.
  eexists. split; [reflexivity|]. split; [reflexivity|]. split; [reflexivity|].
  split; [reflexivity|].
  pose proof (permit_gate_single_slot_fifo
    [Acquire None; Acquire (Some 5%Z); Acquire None; TimerFires 1; Release 0] _ eq_refl)
    as (H1 & H2 & _).
  split; [exact H1|exact H2].
Defined.

(** *** A gate of any capacity *)

Lemma reachable_inv c evs w : (0 ≤ c)%Z → run (new_Semaphore c) evs = Some w → Inv w.
Proof. intros Hc. apply run_inv. by apply new_Semaphore_inv. Qed.

(** For a semaphore of any capacity [c >= 0], after any sequence of
    [acquire] calls, release calls and timer expiries: the free slots and
    the permits held add up to [c], so at most [c] permits are held; and
    callers wait only while no slot is free. *)
Theorem semaphore_slots_conserved (c : Z) (evs : list Event) (w : World) :
  (0 ≤ c)%Z → run (new_Semaphore c) evs = Some w →
  capacity (sem w) = c ∧
  (0 ≤ available (sem w) ≤ c)%Z ∧
  (available (sem w) + Z.of_nat (length (live w)) = c)%Z ∧
  (queued w ≠ [] → available (sem w) = 0%Z ∧ Z.of_nat (length (live w)) = c).
Proof.
  intros Hc Hrun. pose proof (reachable_inv c evs w Hc Hrun) as I.
  pose proof (run_capacity _ _ _ Hrun) as Hcap. cbn in Hcap.
  pose proof (inv_avail _ I) as Ha. pose proof (inv_slots _ I) as Hs.
  rewrite Hcap in Hs. split; [exact Hcap|]. split; [lia|]. split; [exact Hs|].
  intros Hq. assert (Hz : available (sem w) = 0%Z).
  { apply (inv_busy _ I). intros E. apply Hq. unfold queued. by rewrite E. }
  split; [exact Hz|lia].
Qed.

(** Every [acquire] call made so far is in exactly one state: granted,
    rejected by its queue timeout, or still waiting; and only timeouts
    reject. *)
Theorem semaphore_accounts_for_every_caller (c : Z) (evs : list Event) (w : World) :
  (0 ≤ c)%Z → run (new_Semaphore c) evs = Some w →
  ∀ i,
    (i < calls w ↔ i ∈ resolved w ∨ i ∈ (rejected w).*1 ∨ i ∈ queued w) ∧
    ¬ (i ∈ resolved w ∧ i ∈ queued w) ∧
    ¬ (i ∈ (rejected w).*1 ∧ i ∈ resolved w) ∧
    ¬ (i ∈ (rejected w).*1 ∧ i ∈ queued w) ∧
    (∀ m, (i, m) ∈ rejected w → m = TIMEOUT_MESSAGE).
Proof.
  intros Hc Hrun i. pose proof (reachable_inv c evs w Hc Hrun) as I.
  split; [split|].
  - apply (inv_complete _ I).
  - intros [H|[H|H]]; apply (inv_fresh _ I); auto.
  - split.
    { intros [Hr Hq].
      pose proof (StronglySorted_app_1_elem_of _ _ _ _ _ (inv_order _ I) Hr Hq). lia. }
    split; [intros [Hj Hr]; by apply (inv_rejected _ I) in Hj as [? _]|].
    split; [intros [Hj Hq]; by apply (inv_rejected _ I) in Hj as [_ ?]|].
    intros m. apply (inv_msg _ I).
Qed.

(** A release function works once: calling it again changes nothing, so a
    double release frees no second slot. *)
Theorem semaphore_release_is_idempotent (c : Z) (evs : list Event) (w : World) (i : nat) :
  (0 ≤ c)%Z → run (new_Semaphore c) evs = Some w →
  release (release w i) i = release w i.
Proof.
  intros Hc Hrun. pose proof (reachable_inv c evs w Hc Hrun) as I.
  assert (Hgone : i ∉ live (release w i) → release (release w i) i = release w i).
  { intros Hn. unfold release at 1. by rewrite bool_decide_eq_false_2. }
  destruct (decide (i ∈ live w)) as [Hin|Hout].
  - apply Hgone. unfold release. rewrite bool_decide_eq_true_2 by done.
    assert (Hf : i ∉ filter (λ j, j ≠ i) (live w)).
    { intros [Hne _]%list_elem_of_filter. done. }
    destruct (queue (sem w)) as [|next rest] eqn:Eq; [done|].
    unfold resolve_with_release. destruct (settled _ _); [done|]. cbn.
    intros [H|H%list_elem_of_singleton]%elem_of_app; [done|].
    assert (Hq : wid next ∈ queued w). { unfold queued. rewrite Eq. left. }
    pose proof (StronglySorted_app_1_elem_of _ _ _ _ _ (inv_order _ I)
                  (inv_live _ I i Hin) Hq). lia.
  - unfold release at 2. rewrite bool_decide_eq_false_2 by done.
    unfold release. by rewrite bool_decide_eq_false_2.
Qed.

Lemma semaphore_slots_conserved_witness :
  ∃ w, run (new_Semaphore 2) [Acquire None; Acquire None; Acquire None; Release 0] = Some w ∧
       (available (sem w) + Z.of_nat (length (live w)) = 2)%Z.
Proof.
  eexists. split; [reflexivity|].
  exact (proj1 (proj2 (proj2 (semaphore_slots_conserved 2
           [Acquire None; Acquire None; Acquire None; Release 0] _
           ltac:(lia) eq_refl)))).
Defined.

Lemma semaphore_accounts_for_every_caller_witness :
  ∃ w, run (new_Semaphore 1) [Acquire None; Acquire (Some 5%Z); Acquire None; TimerFires 1]
       = Some w ∧
       (1 < calls w ↔ 1 ∈ resolved w ∨ 1 ∈ (rejected w).*1 ∨ 1 ∈ queued w).
Proof.
  eexists. split; [reflexivity|].
  exact (proj1 (semaphore_accounts_for_every_caller 1
           [Acquire None; Acquire (Some 5%Z); Acquire None; TimerFires 1] _
           ltac:(lia) eq_refl 1)).
Defined.

Lemma semaphore_release_is_idempotent_witness :
  ∃ w, run (new_Semaphore 1) [Acquire None; Acquire None] = Some w ∧
       release (release w 0) 0 = release w 0 ∧ live (release w 0) = [1].
Proof.
  eexists. split; [reflexivity|]. split; [|reflexivity].
  exact (semaphore_release_is_idempotent 1 [Acquire None; Acquire None] _ 0
           ltac:(lia) eq_refl).
Defined.

End Semaphore.

(** ** JavaScript strings

    A string is the list of its UTF-16 code units. *)

Module JsStr.

Definition jsstring : Type := list N.

(** The code units of an ASCII literal. *)
Definition js (s : string) : jsstring :=
  Ascii.N_of_ascii <$> String.list_ascii_of_string s.

(** The code points of a string: a high surrogate followed by a low one is
    one code point, any other unit stands for itself. *)
Fixpoint code_points (s : jsstring) : list N :=
  match s with
  | [] => []
  | h :: t =>
      match t with
      | l :: t' =>
          if ((55296 <=? h) && (h <=? 56319) && (56320 <=? l) && (l <=? 57343))%N
          then (65536 + (h - 55296) * 1024 + (l - 56320))%N :: code_points t'
          else h :: code_points t
      | [] => [h]
      end
  end.

Definition utf8 (c : N) : list N :=
  (if c <? 128 then [c]
   else if c <? 2048 then [192 + c / 64; 128 + c mod 64]
   else if c <? 65536 then [224 + c / 4096; 128 + (c / 64) mod 64; 128 + c mod 64]
   else [240 + c / 262144; 128 + (c / 4096) mod 64; 128 + (c / 64) mod 64; 128 + c mod 64])%N.

(** A string interpolated into the message of an error. Messages are byte
    strings here, so the string is written in UTF-8; the code units of an
    ASCII string are its bytes. *)
Definition show (s : jsstring) : string :=
  String.string_of_list_ascii (Ascii.ascii_of_N <$> concat (utf8 <$> code_points s)).

(** White space and line terminators: what [trim()] strips and [\s] matches. *)
Definition is_space (c : N) : bool :=
  ((9 <=? c) && (c <=? 13) || (c =? 32) || (c =? 160) || (c =? 5760)
   || (8192 <=? c) && (c <=? 8202) || (c =? 8232) || (c =? 8233) || (c =? 8239)
   || (c =? 8287) || (c =? 12288) || (c =? 65279))%N.

Definition is_digit (c : N) : bool := ((48 <=? c) && (c <=? 57))%N.
Definition is_upper (c : N) : bool := ((65 <=? c) && (c <=? 90))%N.
Definition is_lower (c : N) : bool := ((97 <=? c) && (c <=? 122))%N.

(** [\w] *)
Definition is_word (c : N) : bool :=
  is_digit c || is_upper c || is_lower c || (c =? 95)%N.

(** Case folding of a regular expression with the [i] flag and no [u] flag,
    for a pattern character in ASCII: only the two ASCII cases match. *)
Definition ascii_lower (c : N) : N := if is_upper c then (c + 32)%N else c.

Fixpoint drop_while (p : N → bool) (s : jsstring) : jsstring :=
  match s with
  | [] => []
  | c :: s' => if p c then drop_while p s' else s
  end.

Definition trimStart (s : jsstring) : jsstring := drop_while is_space s.
Definition trimEnd (s : jsstring) : jsstring := reverse (drop_while is_space (reverse s)).
Definition trim (s : jsstring) : jsstring := trimEnd (trimStart s).

Fixpoint startsWith (s p : jsstring) : bool :=
  match p, s with
  | [], _ => true
  | c :: p', d :: s' => (c =? d)%N && startsWith s' p'
  | _ :: _, [] => false
  end.

Fixpoint includes (s sub : jsstring) : bool :=
  startsWith s sub ||
  match s with
  | [] => false
  | _ :: s' => includes s' sub
  end.

(** [s.slice(0, n)] for [n >= 0]. *)
Definition slice0 (s : jsstring) (n : nat) : jsstring := take n s.

(** [s.split(sep)] for a one-unit separator. *)
Fixpoint split_on (sep : N) (s : jsstring) : list jsstring :=
  match s with
  | [] => [[]]
  | c :: s' =>
      if (c =? sep)%N then [] :: split_on sep s'
      else match split_on sep s' with
           | w :: ws => (c :: w) :: ws
           | [] => [[c]]
           end
  end.

(** [a.join(sep)] *)
Fixpoint join (sep : jsstring) (ws : list jsstring) : jsstring :=
  match ws with
  | [] => []
  | [w] => w
  | w :: ws' => w ++ sep ++ join sep ws'
  end.

(** [a.filter(Boolean)] on strings: the empty string is the falsy one. *)
Definition nonempty (w : jsstring) : bool :=
  match w with [] => false | _ => true end.

Lemma trim_length s : length (trim s) ≤ length s.
Proof.
  assert (H : ∀ t, length (drop_while is_space t) ≤ length t).
  { induction t as [|c t IH]; cbn; [done|]. destruct (is_space c); cbn; lia. }
  unfold trim, trimEnd, trimStart. rewrite length_reverse.
  etrans; [apply H|]. rewrite length_reverse. apply H.
Qed.

End JsStr.

(** ** Regular expressions

    A backtracking matcher with the priorities of the engine: the left
    alternative first, a greedy repetition longest first, a lazy one
    shortest first.  One capture group.  The [i] flag is written into the
    character classes. *)

Module Regex.
Import JsStr.

Inductive re : Type :=
| Eps
| Cls (p : N → bool)
| Seq (a b : re)
| Alt (a b : re)
| Rep (greedy : bool) (a : re)     (* a* and a*? *)
| Cap (a : re)                     (* ( a ), group 1 *)
| WordB                            (* \b *)
| Bol                              (* ^ *)
| Eol.                             (* $ *)

Definition Chr (c : N) : re := Cls (λ d, (d =? c)%N).
(** A pattern character under the [i] flag. *)
Definition Chi (c : N) : re := Cls (λ d, (ascii_lower d =? ascii_lower c)%N).
Definition Plus (a : re) : re := Seq a (Rep true a).
Definition Opt (a : re) : re := Alt a Eps.
Definition Lit (s : string) : re := foldr (λ c r, Seq (Chr c) r) Eps (js s).
Definition Liti (s : string) : re := foldr (λ c r, Seq (Chi c) r) Eps (js s).

Record mstate := MState {
  prev : option N;          (* the unit before the current position *)
  rest : jsstring;          (* the input from the current position on *)
  cap : option jsstring;    (* what group 1 captured *)
  pos : N;                  (* the units consumed since the match started *)
}.

Definition word_at (o : option N) : bool :=
  match o with Some c => is_word c | None => false end.

(** Backtracking matcher in continuation-passing style.  An iteration of a
    star that consumes nothing is given up, so every iteration moves the
    position on; [fuel] bounds the iterations in a row. *)
Fixpoint rmatch (fuel : nat) : re → mstate → (mstate → option mstate) → option mstate :=
  fix go (r : re) (st : mstate) (k : mstate → option mstate) : option mstate :=
    match r with
    | Eps => k st
    | Cls p =>
        match rest st with
        | c :: s' => if p c then k (MState (Some c) s' (cap st) (N.succ (pos st))) else None
        | [] => None
        end
    | Seq a b => go a st (λ st', go b st' k)
    | Alt a b =>
        match go a st k with
        | Some res => Some res
        | None => go b st k
        end
    | Rep greedy a =>
        match fuel with
        | O => None
        | S fuel' =>
            let more :=
              go a st (λ st',
                if (pos st <? pos st')%N
                then rmatch fuel' (Rep greedy a) st' k
                else None) in
            if greedy then
              match more with Some res => Some res | None => k st end
            else
              match k st with Some res => Some res | None => more end
        end
    | Cap a =>
        go a st (λ st',
          k (MState (prev st') (rest st')
               (Some (take (N.to_nat (pos st' - pos st)) (rest st))) (pos st')))
    | WordB =>
        if xorb (word_at (prev st)) (word_at (head (rest st))) then k st else None
    | Bol => match prev st with None => k st | Some _ => None end
    | Eol => match rest st with [] => k st | _ :: _ => None end
    end.

Record Match := {
  m_pre : jsstring;              (* the input before the match *)
  m_text : jsstring;             (* the match *)
  m_group : option jsstring;     (* group 1 *)
  m_post : jsstring;             (* the input after the match *)
}.

(** Fuel for a match in [s]: more iterations than [s] has units. *)
Definition match_fuel (s : jsstring) : nat := 2 * length s + 2.

(** The leftmost match at or after the current position. *)
Fixpoint exec_from (fuel : nat) (r : re) (p : option N) (pre_rev : jsstring) (s : jsstring)
  : option Match :=
  match rmatch fuel r (MState p s None 0) Some with
  | Some st =>
      Some {| m_pre := reverse pre_rev;
              m_text := take (N.to_nat (pos st)) s;
              m_group := cap st;
              m_post := rest st |}
  | None =>
      match s with
      | [] => None
      | c :: s' => exec_from fuel r (Some c) (c :: pre_rev) s'
      end
  end.

(** [re.exec(s)] and [re.test(s)] for a regular expression without [g]. *)
Definition exec (r : re) (s : jsstring) : option Match :=
  exec_from (match_fuel s) r None [] s.
Definition test (r : re) (s : jsstring) : bool := bool_decide (is_Some (exec r s)).

(** A scan with the [g] flag: each match with the text between it and the
    match before, then the text after the last match.  An empty match moves
    on by one unit.  [mfuel] is the fuel of each match, [fuel] bounds the
    number of matches. *)
Fixpoint scan (mfuel fuel : nat) (r : re) (p : option N) (s : jsstring)
  : list (jsstring * Match) * jsstring :=
  match fuel with
  | O => ([], s)
  | S fuel' =>
      match exec_from mfuel r p [] s with
      | None => ([], s)
      | Some m =>
          match m_text m, m_post m with
          | [], [] => ([(m_pre m, m)], [])
          | [], c :: post' =>
              match scan mfuel fuel' r (Some c) post' with
              | ([], tl) => ([(m_pre m, m)], c :: tl)
              | ((pre', m') :: segs, tl) => ((m_pre m, m) :: (c :: pre', m') :: segs, tl)
              end
          | _ :: _, post =>
              match scan mfuel fuel' r (last (m_text m)) post with
              | (segs, tl) => ((m_pre m, m) :: segs, tl)
              end
          end
      end
  end.

Definition scan_all (r : re) (s : jsstring) : list (jsstring * Match) * jsstring :=
  scan (match_fuel s) (S (length s)) r None s.

(** [s.match(r)] with [g]: the matched texts ([null] is the empty list). *)
Definition match_all (r : re) (s : jsstring) : list jsstring :=
  (λ seg, m_text seg.2) <$> (scan_all r s).1.

(** [s.replace(r, by)] with [g] and a replacement without [$] patterns. *)
Definition replace_all (r : re) (by_ : jsstring) (s : jsstring) : jsstring :=
  let '(segs, tl) := scan_all r s in
  concat ((λ seg, seg.1 ++ by_) <$> segs) ++ tl.

End Regex.

(** ** Marketing policy ([marketingPolicy.ts]) *)

Module MarketingPolicy.
Import JsStr.

(** A number read from the environment: finite, given by its integer part
    (what [Math.trunc] returns), or not finite ([NaN] from a malformed
    variable, or an infinity). *)
Inductive num : Type :=
| Finite (z : Z)
| NotFinite.

Record TimeParts := { hour : Z; minute : Z }.

(** The configuration entries the policy reads. *)
Record MarketingConfig := {
  marketingEnabled : bool;
  marketingTime : jsstring;            (* HH:MM *)
  marketingTimezone : string;
  marketingWindowMinutes : num;
  marketingJitterMinutes : num;
}.

Definition assertFiniteInt (n : num) (label : string) : result Z :=
  match n with
  | Finite z => Ok z                                   (* Math.trunc *)
  | NotFinite => Err ("Error: " +:+ label +:+ " must be finite")
  end.

Definition digit (c : N) : Z := Z.of_N c - 48.

Definition check_time (s : jsstring) (h m : Z) : result TimeParts :=
  if (23 <? h)%Z || (59 <? m)%Z then Err ("Error: Invalid time value: " +:+ show s)
  else Ok {| hour := h; minute := m |}.

Definition invalid_format (s : jsstring) : string :=
  "Error: Invalid time format (expected HH:MM): " +:+ show s.

(** [parseHHMM]: the trimmed string must match [^(\d{1,2}):(\d{2})$]; the
    messages of both errors end with the string as it was given. *)
Definition parseHHMM (s : jsstring) : result TimeParts :=
  match trim s with
  | [h1; c; m1; m2] =>
      if is_digit h1 && (c =? 58)%N && is_digit m1 && is_digit m2
      then check_time s (digit h1) (10 * digit m1 + digit m2)
      else Err (invalid_format s)
  | [h1; h2; c; m1; m2] =>
      if is_digit h1 && is_digit h2 && (c =? 58)%N && is_digit m1 && is_digit m2
      then check_time s (10 * digit h1 + digit h2) (10 * digit m1 + digit m2)
      else Err (invalid_format s)
  | _ => Err (invalid_format s)
  end.

Definition toMinutesSinceMidnight (t : TimeParts) : Z := hour t * 60 + minute t.

Record Policy := {
  enabled : bool;
  timezone : string;
  baseMinutes : Z;
  windowMinutes : Z;
  windowStartMinutes : Z;
  windowEndMinutes : Z;
  jitterMinutes : Z;
}.

(** [%] of the engine: the remainder takes the sign of the dividend. *)
Definition js_rem (a b : Z) : Z := Z.rem a b.

(** The program computes with doubles.  A sum or difference of integers is
    the double nearest to the exact result: the result itself below 2^53
    in magnitude, and above, the nearest integer with 53 significant bits,
    the one with an even significand at a tie.  Halving a double, [floor]
    and [%] are exact. *)
Definition to_double (z : Z) : Z :=
  let a := Z.abs z in
  if (a <? 2 ^ 53)%Z then z
  else
    let e := (Z.log2 a - 52)%Z in
    let q := (a / 2 ^ e)%Z in
    let r := (a mod 2 ^ e)%Z in
    let q' := if (2 ^ e <? 2 * r)%Z || ((2 * r =? 2 ^ e)%Z && Z.odd q)
              then (q + 1)%Z else q in
    (Z.sgn z * (q' * 2 ^ e))%Z.

Lemma to_double_small z : (Z.abs z < 2 ^ 53)%Z → to_double z = z.
Proof. intros H. unfold to_double. cbn zeta. by rewrite (proj2 (Z.ltb_lt _ _) H). Qed.

Definition getMarketingPolicy (cfg : MarketingConfig) : result Policy :=
  t ← parseHHMM (marketingTime cfg);
  let base := toMinutesSinceMidnight t in
  wm ← assertFiniteInt (marketingWindowMinutes cfg) "marketingWindowMinutes";
  jm ← assertFiniteInt (marketingJitterMinutes cfg) "marketingJitterMinutes";
  let windowMinutes := Z.max 0 wm in
  let jitterMinutes := Z.max 0 jm in
  let half := (windowMinutes / 2)%Z in
  Ok {| enabled := marketingEnabled cfg;
        timezone := marketingTimezone cfg;
        baseMinutes := base;
        windowMinutes := windowMinutes;
        windowStartMinutes := js_rem (to_double (to_double (base - half) + 1440)) 1440;
        windowEndMinutes := js_rem (to_double (base + half)) 1440;
        jitterMinutes := jitterMinutes |}.

(** Range on a 0..1439 circle. If start<=end => normal range, else wraps midnight. *)
Definition isInCircularRange (min start end_ : Z) : bool :=
  if (start <=? end_)%Z then (start <=? min)%Z && (min <=? end_)%Z
  else (start <=? min)%Z || (min <=? end_)%Z.

(** [getLocalMinutesSinceMidnight(date, tz)]: the hour and minute the
    runtime's formatter gives for the date in the time zone, [None] when it
    gives none. *)
Definition getLocalMinutesSinceMidnight (local : option (Z * Z)) (timeZone : string) : result Z :=
  match local with
  | Some (h, m) => Ok (h * 60 + m)%Z
  | None => Err ("Error: Failed to resolve local time parts for tz=" +:+ timeZone)
  end.

Definition isInMarketingWindowAt (cfg : MarketingConfig) (local : option (Z * Z)) : result bool :=
  p ← getMarketingPolicy cfg;
  nowMin ← getLocalMinutesSinceMidnight local (timezone p);
  Ok (isInCircularRange nowMin (windowStartMinutes p) (windowEndMinutes p)).

(** The window is the arc of the day's circle from [base - half] to
    [base + half], when it is shorter than a day. *)
Lemma window_is_arc (base half now : Z) :
  (0 ≤ base < 1440)%Z → (0 ≤ half < 720)%Z → (0 ≤ now < 1440)%Z →
  isInCircularRange now (js_rem (base - half + 1440) 1440) (js_rem (base + half) 1440) = true
  ↔ ((now - (base - half)) mod 1440 ≤ 2 * half)%Z.
Proof.
  intros Hb Hh Hn. unfold isInCircularRange, js_rem.
  rewrite !Z.rem_mod_nonneg by lia.
  destruct (_ <=? _)%Z eqn:L1; rewrite ?andb_true_iff, ?orb_true_iff, !Z.leb_le;
    [apply Z.leb_le in L1 | apply Z.leb_gt in L1];
    revert L1; Z.div_mod_to_equations; lia.
Qed.

Lemma digit_range c : is_digit c = true → (0 ≤ digit c ≤ 9)%Z.
Proof.
  unfold is_digit, digit. intros [H1 H2]%andb_true_iff.
  apply N.leb_le in H1, H2. lia.
Qed.

Lemma parseHHMM_range s t : parseHHMM s = Ok t → (0 ≤ toMinutesSinceMidnight t < 1440)%Z.
Proof.
  assert (Hc : ∀ h m, (0 ≤ h)%Z → (0 ≤ m)%Z → check_time s h m = Ok t →
                      (0 ≤ toMinutesSinceMidnight t < 1440)%Z).
  { intros h m Hh Hm. unfold check_time.
    destruct (23 <? h)%Z eqn:E1; [done|]. destruct (59 <? m)%Z eqn:E2; [done|].
    cbn. intros [= <-]. unfold toMinutesSinceMidnight. cbn.
    apply Z.ltb_ge in E1, E2. lia. }
  unfold parseHHMM.
  destruct (trim s) as [|h1 [|c2 [|c3 [|c4 [|c5 [|c6 l]]]]]]; try done.
  - destruct (is_digit h1) eqn:D1; [|done]. destruct (c2 =? 58)%N; [|done].
    destruct (is_digit c3) eqn:D3; [|done]. destruct (is_digit c4) eqn:D4; [|done]. cbn.
    apply digit_range in D1, D3, D4. apply Hc; lia.
  - destruct (is_digit h1) eqn:D1; [|done]. destruct (is_digit c2) eqn:D2; [|done].
    destruct (c3 =? 58)%N; [|done].
    destruct (is_digit c4) eqn:D4; [|done]. destruct (is_digit c5) eqn:D5; [|done]. cbn.
    apply digit_range in D1, D2, D4, D5. apply Hc; lia.
Qed.

(** What [getMarketingPolicy] computes: the window runs from
    [base - floor(window/2)] to [base + floor(window/2)], both taken on the
    circle of the day's minutes; no sum is rounded for a window below 2^53
    minutes. *)
Lemma getMarketingPolicy_window cfg p :
  getMarketingPolicy cfg = Ok p →
  (0 ≤ baseMinutes p < 1440)%Z ∧ (0 ≤ windowMinutes p)%Z ∧
  enabled p = marketingEnabled cfg ∧
  ((windowMinutes p < 2 ^ 53)%Z →
   windowStartMinutes p = js_rem (baseMinutes p - windowMinutes p / 2 + 1440) 1440 ∧
   windowEndMinutes p = js_rem (baseMinutes p + windowMinutes p / 2) 1440).
Proof.
  unfold getMarketingPolicy.
  destruct (parseHHMM (marketingTime cfg)) as [t|e] eqn:Et; [|done]. cbn -[to_double Z.pow].
  destruct (assertFiniteInt (marketingWindowMinutes cfg) _) as [wm|e]; [|done].
  cbn -[to_double Z.pow].
  destruct (assertFiniteInt (marketingJitterMinutes cfg) _) as [jm|e]; [|done].
  cbn -[to_double Z.pow].
  intros [= <-]. cbn -[to_double Z.pow]. apply parseHHMM_range in Et.
  split; [done|]. split; [lia|]. split; [done|]. intros Hw.
  assert (Hhalf : (0 ≤ Z.max 0 wm / 2 < 2 ^ 52)%Z).
  { split; [apply Z.div_pos; lia|]. apply Z.div_lt_upper_bound; lia. }
  assert (H1440 : (1440 < 2 ^ 52)%Z) by (vm_compute; reflexivity).
  assert (H53 : (2 ^ 53 = 2 * 2 ^ 52)%Z) by (vm_compute; reflexivity).
  rewrite (to_double_small (_ - _)) by lia.
  rewrite (to_double_small (_ - _ + 1440)) by lia.
  rewrite (to_double_small (_ + _)) by lia.
  done.
Qed.

(** *** Further properties of the policy *)

(** The two decimal digits of a number below 100, and a time as [HH:MM]. *)
Definition two_digits (n : Z) : jsstring := [Z.to_N (48 + n / 10); Z.to_N (48 + n mod 10)].
Definition format_HHMM (h m : Z) : jsstring := two_digits h ++ [58%N] ++ two_digits m.
Definition format_HMM (h m : Z) : jsstring := [Z.to_N (48 + h)] ++ [58%N] ++ two_digits m.

Definition parses_to (s : jsstring) (h m : Z) : bool :=
  match parseHHMM s with
  | Ok t => (hour t =? h)%Z && (minute t =? m)%Z
  | Err _ => false
  end.

Lemma parses_to_spec s h m :
  parses_to s h m = true → parseHHMM s = Ok {| hour := h; minute := m |}.
Proof.
  unfold parses_to. destruct (parseHHMM s) as [[h' m']|e]; [|done]. cbn.
  intros [->%Z.eqb_eq ->%Z.eqb_eq]%andb_true_iff. done.
Qed.

Lemma every_time_parses :
  forallb (λ h, forallb (λ m,
    parses_to (format_HHMM (Z.of_nat h) (Z.of_nat m)) (Z.of_nat h) (Z.of_nat m)
    && parses_to (js " " ++ format_HHMM (Z.of_nat h) (Z.of_nat m) ++ js "  ")
         (Z.of_nat h) (Z.of_nat m)
    && (if decide (h < 10)
        then parses_to (format_HMM (Z.of_nat h) (Z.of_nat m)) (Z.of_nat h) (Z.of_nat m)
        else true))
    (seq 0 60)) (seq 0 24) = true.
Proof. vm_compute. reflexivity. Qed.

(** Every time of the day written [HH:MM] is read back as its hour and
    minute, with or without surrounding blanks, and so is [H:MM] for an hour
    below ten. *)
Theorem parseHHMM_round_trip (h m : Z) :
  (0 ≤ h ≤ 23)%Z → (0 ≤ m ≤ 59)%Z →
  parseHHMM (format_HHMM h m) = Ok {| hour := h; minute := m |} ∧
  parseHHMM (js " " ++ format_HHMM h m ++ js "  ") = Ok {| hour := h; minute := m |} ∧
  ((h < 10)%Z → parseHHMM (format_HMM h m) = Ok {| hour := h; minute := m |}).
Proof.
  intros Hh Hm. pose proof every_time_parses as H.
  rewrite forallb_forall in H. specialize (H (Z.to_nat h)).
  rewrite <- list_elem_of_In, elem_of_seq in H. specialize (H ltac:(lia)).
  rewrite forallb_forall in H. specialize (H (Z.to_nat m)).
  rewrite <- list_elem_of_In, elem_of_seq in H. specialize (H ltac:(lia)).
  rewrite !Z2Nat.id in H by lia.
  apply andb_true_iff in H as [[H1 H2]%andb_true_iff H3].
  split; [by apply parses_to_spec|]. split; [by apply parses_to_spec|].
  intros Hlt. rewrite decide_True in H3 by lia. by apply parses_to_spec.
Qed.

(** What is not a time is refused: an accepted string has an hour up to 23
    and a minute up to 59, and is four or five characters long once trimmed. *)
Theorem parseHHMM_accepts_only_times (s : jsstring) (t : TimeParts) :
  parseHHMM s = Ok t →
  (0 ≤ hour t ≤ 23)%Z ∧ (0 ≤ minute t ≤ 59)%Z ∧
  (length (trim s) = 4 ∨ length (trim s) = 5) ∧
  (∃ a b, trim s = a ++ [58%N] ++ b ∧ length b = 2).
Proof.
  assert (Hc : ∀ h m, (0 ≤ h)%Z → (0 ≤ m)%Z → check_time s h m = Ok t →
                      (0 ≤ hour t ≤ 23)%Z ∧ (0 ≤ minute t ≤ 59)%Z).
  { intros h m Hh Hm. unfold check_time.
    destruct (23 <? h)%Z eqn:E1; [done|]. destruct (59 <? m)%Z eqn:E2; [done|].
    cbn. intros [= <-]. cbn. apply Z.ltb_ge in E1, E2. lia. }
  unfold parseHHMM.
  destruct (trim s) as [|h1 [|c2 [|c3 [|c4 [|c5 [|c6 l]]]]]]; try done.
  - destruct (is_digit h1) eqn:D1; [|done]. destruct (c2 =? 58)%N eqn:E; [|done].
    destruct (is_digit c3) eqn:D3; [|done]. destruct (is_digit c4) eqn:D4; [|done]. cbn.
    apply digit_range in D1, D3, D4. apply N.eqb_eq in E as ->. intros H.
    destruct (λ a b, Hc _ _ a b H) as [? ?]; [lia|lia|].
    split; [done|]. split; [done|]. split; [by left|]. by exists [h1], [c3; c4].
  - destruct (is_digit h1) eqn:D1; [|done]. destruct (is_digit c2) eqn:D2; [|done].
    destruct (c3 =? 58)%N eqn:E; [|done].
    destruct (is_digit c4) eqn:D4; [|done]. destruct (is_digit c5) eqn:D5; [|done]. cbn.
    apply digit_range in D1, D2, D4, D5. apply N.eqb_eq in E as ->. intros H.
    destruct (λ a b, Hc _ _ a b H) as [? ?]; [lia|lia|].
    split; [done|]. split; [done|]. split; [by right|]. by exists [h1; c2], [c4; c5].
Qed.

(** The base time lies inside the window exactly when the configured window
    is shorter than a day: a window of 1440 minutes or more (below two days)
    wraps around and leaves the base time out. *)
Theorem window_contains_base_iff_shorter_than_a_day (cfg : MarketingConfig) (p : Policy) :
  getMarketingPolicy cfg = Ok p → (windowMinutes p < 2880)%Z →
  (0 ≤ windowStartMinutes p < 1440)%Z ∧ (0 ≤ windowEndMinutes p < 1440)%Z ∧
  (isInCircularRange (baseMinutes p) (windowStartMinutes p) (windowEndMinutes p) = true
   ↔ (windowMinutes p < 1440)%Z).
Proof.
  intros H Hw. destruct (getMarketingPolicy_window cfg p H) as (Hb & Hw0 & _ & Hse).
  destruct Hse as [-> ->]; [by eapply Z.lt_trans|].
  unfold isInCircularRange, js_rem.
  assert (Hhalf : (0 ≤ windowMinutes p / 2 < 1440)%Z).
  { split; [apply Z.div_pos; lia|]. apply Z.div_lt_upper_bound; lia. }
  assert (Hiff : (windowMinutes p < 1440 ↔ windowMinutes p / 2 < 720)%Z).
  { split; intros Hlt.
    - apply Z.div_lt_upper_bound; lia.
    - destruct (Z.lt_ge_cases (windowMinutes p) 1440) as [|Hge]; [done|].
      assert (720 ≤ windowMinutes p / 2)%Z by (apply Z.div_le_lower_bound; lia). lia. }
  set (half := (windowMinutes p / 2)%Z) in *. clearbody half.
  rewrite !Z.rem_mod_nonneg by lia.
  split; [apply Z.mod_pos_bound; lia|]. split; [apply Z.mod_pos_bound; lia|].
  rewrite Hiff.
  destruct (_ <=? _)%Z eqn:L1; rewrite ?andb_true_iff, ?orb_true_iff, !Z.leb_le;
    [apply Z.leb_le in L1 | apply Z.leb_gt in L1];
    revert L1; Z.div_mod_to_equations; lia.
Qed.

Definition default_marketing (window : Z) : MarketingConfig :=
  {| marketingEnabled := true; marketingTime := js "20:00";
     marketingTimezone := "Europe/Warsaw";
     marketingWindowMinutes := Finite window; marketingJitterMinutes := Finite 15 |}.

(** A window of 2^60 minutes: the sums are rounded to doubles, and the
    bounds are those of the rounded sums, not of the exact ones. *)
Example window_bounds_are_rounded :
  ∃ p, getMarketingPolicy (default_marketing (2 ^ 60)) = Ok p ∧
       windowStartMinutes p = (-800)%Z ∧ windowEndMinutes p = 320%Z ∧
       js_rem (1200 - 2 ^ 59 + 1440) 1440 = (-848)%Z ∧
       js_rem (1200 + 2 ^ 59) 1440 = 368%Z.
Proof. eexists. split; [reflexivity|]. vm_compute. repeat split. Qed.

Lemma parseHHMM_round_trip_witness :
  parseHHMM (format_HHMM 20 0) = Ok {| hour := 20; minute := 0 |} ∧
  format_HHMM 20 0 = js "20:00".
Proof.
  split; [|reflexivity].
  exact (proj1 (parseHHMM_round_trip 20 0 ltac:(lia) ltac:(lia))).
Defined.

Lemma parseHHMM_accepts_only_times_witness :
  parseHHMM (js " 7:05 ") = Ok {| hour := 7; minute := 5 |} ∧
  (0 ≤ 7 ≤ 23)%Z ∧ (0 ≤ 5 ≤ 59)%Z.
Proof.
  destruct (parseHHMM_accepts_only_times (js " 7:05 ") {| hour := 7; minute := 5 |} eq_refl)
    as (H1 & H2 & _).
  split; [reflexivity|]. split; [exact H1|exact H2].
Defined.

(** The default window of 60 minutes holds 20:00; a window of 1440 does not. *)
Lemma window_contains_base_iff_shorter_than_a_day_witness :
  isInCircularRange 1200 1170 1230 = true ∧
  ∃ p, getMarketingPolicy (default_marketing 1440) = Ok p ∧
       isInCircularRange (baseMinutes p) (windowStartMinutes p) (windowEndMinutes p) = false.
Proof.
  split.
  - destruct (window_contains_base_iff_shorter_than_a_day (default_marketing 60) _ eq_refl)
      as (_ & _ & [_ H]); [cbn; lia|]. apply H. cbn. lia.
  - eexists. split; [reflexivity|]. reflexivity.
Defined.

End MarketingPolicy.

(** ** Short notification text ([xNotificationWriter.ts]) *)

Module XNotification.
Import JsStr Regex.

(** [/(https?:\/\/|www\.)/i] *)
Definition url_like : re :=
  Alt (Seq (Liti "http") (Seq (Opt (Chi 115)) (Lit "://"))) (Seq (Liti "www") (Chr 46)).

(** [/#\w+/] *)
Definition hashtag : re := Seq (Chr 35) (Plus (Cls is_word)).

Definition hasUrlLike (text : jsstring) : bool := test url_like text.

Definition containsAllAccountIds (text : jsstring) (accountIds : list jsstring) : bool :=
  match accountIds with
  | [] => true
  | _ => forallb (λ id, nonempty id && includes text id) accountIds
  end.

(** [isValidXNotificationText(text, accountIds = [])]: [None] is a call that
    passes no second argument. *)
Definition isValidXNotificationText (text : jsstring) (accountIds : option (list jsstring)) : bool :=
  let accountIds := default [] accountIds in
  if negb (nonempty text) then false
  else if decide (260 < length text) then false
  else if hasUrlLike text then false
  else if test hashtag text then false
  else if negb (containsAllAccountIds text accountIds) then false
  else true.

End XNotification.

(** ** Continuity store ([publishedLoreStore.ts]) *)

Module PublishedLoreStore.
Import JsStr.

Record PublishedLoreEntry := {
  createdAt : Z;
  batchId : string;
  rootKey : option string;
  txHash : option string;
  text : jsstring;
}.

Record t := Store {
  buf : RingBuffer.t PublishedLoreEntry;
  capacity : Z;
}.

Definition new_PublishedLoreStore (capacity : Z) : option t :=
  b ← RingBuffer.new_RingBuffer capacity; Some (Store b capacity).

Definition push (s : t) (entry : PublishedLoreEntry) : t :=
  Store (RingBuffer.push (buf s) entry).1 (capacity s).

(** Returns newest -> oldest. *)
Definition listNewestFirst (s : t) : list PublishedLoreEntry :=
  reverse (RingBuffer.toArray (buf s)).

Definition latest (s : t) : option PublishedLoreEntry := last (RingBuffer.toArray (buf s)).
Definition size (s : t) : nat := RingBuffer.rb_length (buf s).
Definition maxSize (s : t) : nat := RingBuffer.maxSize (buf s).

(** The module's singleton: [new PublishedLoreStore(10)]. *)
Definition publishedLoreStore : option t := new_PublishedLoreStore 10.

(** *** The store after a run of pushes *)

Lemma push_all_buf (s : t) (es : list PublishedLoreEntry) :
  buf (foldl push s es) = (RingBuffer.push_all (buf s) es).1.
Proof.
  revert s. induction es as [|e es IH]; intros s; [done|].
  cbn [foldl]. rewrite IH, RingBuffer.push_all_cons. done.
Qed.

Lemma reverse_drop_take {A} (l : list A) n :
  reverse (drop (length l - n) l) = take n (reverse l).
Proof.
  destruct (decide (n ≤ length l)) as [Hle|Hgt].
  - assert (E : reverse l = reverse (drop (length l - n) l) ++ reverse (take (length l - n) l)).
    { by rewrite <- reverse_app, take_drop. }
    rewrite E, take_app_length'; [done|].
    rewrite length_reverse, length_drop. lia.
  - replace (length l - n) with 0 by lia. rewrite drop_0, take_ge; [done|].
    rewrite length_reverse. lia.
Qed.

(** A store built with capacity [c] and given the entries [es] lists the
    latest [c] of them, newest first; [latest()] is the last one pushed
    ([undefined] if none was); [size()] is the smaller of [c] and the number
    pushed. *)
Theorem store_lists_latest_newest_first (c : Z) (s0 : t) (es : list PublishedLoreEntry) :
  new_PublishedLoreStore c = Some s0 →
  listNewestFirst (foldl push s0 es) = take (Z.to_nat c) (reverse es) ∧
  latest (foldl push s0 es) = last es ∧
  size (foldl push s0 es) = Nat.min (Z.to_nat c) (length es) ∧
  maxSize (foldl push s0 es) = Z.to_nat c.
Proof.
  unfold new_PublishedLoreStore. intros H.
  destruct (RingBuffer.new_RingBuffer c) as [b|] eqn:Eb; [|done].
  injection H as <-.
  pose proof (RingBuffer.new_wf _ _ Eb) as W.
  pose proof (RingBuffer.new_toArray _ _ Eb) as Hempty.
  assert (Hcap : RingBuffer.capacity b = Z.to_nat c).
  { unfold RingBuffer.new_RingBuffer in Eb.
    destruct (c <=? 0)%Z; [done|]. destruct (_ <? c)%Z; [done|]. by injection Eb as <-. }
  destruct (RingBuffer.push_all_spec es b W) as (Hc & Ht & _).
  rewrite Hempty in Ht. cbn [length app] in Ht. rewrite Nat.add_0_l, Hcap in Ht.
  unfold listNewestFirst, latest, size, maxSize. rewrite push_all_buf. cbn [buf].
  rewrite Ht. split; [apply reverse_drop_take|]. split.
  - destruct es as [|e es _] using rev_ind; [done|].
    rewrite last_snoc. rewrite length_app. cbn [length].
    assert (Z.to_nat c ≠ 0).
    { pose proof (RingBuffer.wf_cap _ W). lia. }
    rewrite drop_app_le by lia. by rewrite last_snoc.
  - split; [|unfold RingBuffer.maxSize; congruence].
    pose proof (RingBuffer.push_all_reachable b es (RingBuffer.reach_new c b Eb)) as R.
    pose proof (RingBuffer.toArray_length _ (RingBuffer.reachable_wf _ R)) as Hl.
    unfold RingBuffer.rb_length. rewrite <- Hl, Ht, length_drop. lia.
Qed.

Definition demo_entry (n : nat) : PublishedLoreEntry :=
  {| createdAt := Z.of_nat n; batchId := "b" +:+ pretty n; rootKey := None; txHash := None;
     text := js "chronicle" |}.

Lemma store_lists_latest_newest_first_witness :
  listNewestFirst
    (foldl push (Store (RingBuffer.Ring (replicate 10 None) 0 0 10) 10)
       (demo_entry <$> seq 1 12))
  = take (Z.to_nat 10) (reverse (demo_entry <$> seq 1 12)).
Proof.
  exact (proj1 (store_lists_latest_newest_first 10
                  (Store (RingBuffer.Ring (replicate 10 None) 0 0 10) 10)
                  (demo_entry <$> seq 1 12) eq_refl)).
Defined.

End PublishedLoreStore.

(** ** Generation worker ([worker.ts], class [LoreWorker])

    The collaborators the worker awaits are functions of their arguments
    handed in by the environment: the two writers behind the generation
    dependency, the two publishers, the payload builder, the clock and the
    runtime's local-time formatter.  The model lists every collaborator call
    in [calls], in order.  Of the log, the lines the worker itself writes
    are kept.

    [tick()] is asynchronous.  Its one suspension that other code can
    prolong is the [await] of the permit inside [withNearAiPermit]: the
    gate is shared with the round-result writer and the marketing poster,
    and the automatic path starts the tick while the writer holds the
    permit.  A tick is therefore modelled in two parts, [tick_start] up to
    that [await] and [tick_resume] from it on, with the suspended call kept
    in [inflight]; what the other clients of the gate do in between is a
    list of gate events ([meanwhile]).  The collaborators answer in one
    step.  The ticks that [finally] starts with [void this.tick()] run up
    to their own suspension ([chain]); [runOnce] is the state in which the
    promise of the first tick resolves, [settle] follows the worker until
    nothing is in flight. *)

Module Worker.
Import JsStr.
Section Worker.
Context {RoundSnapshot RoundDerived XResult : Type}.

Abbreviation LoreBatch := (LoreTypes.LoreBatch RoundSnapshot RoundDerived).
Abbreviation LoreBatcher := (Batcher.LoreBatcher RoundSnapshot RoundDerived).
Abbreviation Entry := PublishedLoreStore.PublishedLoreEntry.

Record LorePublishResult := {
  rootKey : string;
  partKeys : list string;
  txHashes : list (option string);
}.

(** The configuration entries the worker reads. *)
Record Config := {
  nearAiApiKey : string;
  publishLoreToNearSocial : bool;
  publishLoreToX : bool;
  marketing : MarketingPolicy.MarketingConfig;
}.

Record LoreWorkerState := {
  busy : bool;
  lastTickAt : option Z;
  lastBatchId : option string;
  lastPublishedNear : option LorePublishResult;
  lastPublishedX : option XResult;
  lastError : option string;
}.

Inductive LogLine :=
| x_publish_skipped_marketing_window (batchId : string) (startMin endMin : Z) (tz reason : string)
| published_lore_stored (batchId rootKey : string) (storeSize capacity : nat)
| lore_worker_failed (batchId err : string).

(** A call of a collaborator, with the arguments that tell the calls apart. *)
Inductive Call :=
| call_writeLore (batchId : string)
| call_writeXNotification (batchId : string) (attempt : nat) (accountIds : list jsstring)
| call_publishLoreThread (batchId : string) (lore : jsstring)
| call_publishLoreToX (batchId : string) (xText : jsstring).

(** A call of [tick()] suspended at its [await]: the values its continuation
    uses, and the number of the [acquire] call whose promise it awaits. *)
Record Waiting := {
  w_batch : LoreBatch;
  w_payload : jsstring;
  w_imagePrompt : option jsstring;
  w_xAccountIds : list jsstring;
  w_ticket : nat;
}.

Record World := {
  state : LoreWorkerState;
  batcher : LoreBatcher;                (* the singleton loreBatcher *)
  store : PublishedLoreStore.t;         (* the singleton publishedLoreStore *)
  gate : Semaphore.World;               (* the permit gate *)
  log : list LogLine;
  calls : list Call;
  clock : nat;                          (* the worker's calls of Date.now() so far *)
  inflight : option Waiting;            (* the call of [tick()] suspended at its [await], if any *)
}.

Variable cfg : Config.
(** [Date.now()]: the value its [k]-th call by the worker returns. *)
Variable Date_now : nat → Z.
(** The local hour and minute the formatter gives for [new Date()] while the
    batch with this id is processed. *)
Variable local_time : string → option (Z * Z).
(** [buildLorePayload(batch, chronicleMemory)]: payload, image prompt,
    account ids that must be mentioned. *)
Variable buildLorePayload :
  LoreBatch → list Entry → result (jsstring * option jsstring * list jsstring).
Variable writeLoreUnlocked : jsstring → string → result jsstring.
Variable writeXNotificationFromLoreUnlocked :
  jsstring → string → nat → list jsstring → result jsstring.
Variable publishLoreThread : LoreBatch → list jsstring → result LorePublishResult.
Variable publishLoreToXWithText :
  jsstring → string → jsstring → option jsstring → result XResult.

Definition set_state (f : LoreWorkerState → LoreWorkerState) (w : World) : World :=
  {| state := f (state w); batcher := batcher w; store := store w; gate := gate w;
     log := log w; calls := calls w; clock := clock w; inflight := inflight w |}.

Definition set_batcher (b : LoreBatcher) (w : World) : World :=
  {| state := state w; batcher := b; store := store w; gate := gate w;
     log := log w; calls := calls w; clock := clock w; inflight := inflight w |}.

Definition set_store (s : PublishedLoreStore.t) (w : World) : World :=
  {| state := state w; batcher := batcher w; store := s; gate := gate w;
     log := log w; calls := calls w; clock := clock w; inflight := inflight w |}.

Definition set_gate (g : Semaphore.World) (w : World) : World :=
  {| state := state w; batcher := batcher w; store := store w; gate := g;
     log := log w; calls := calls w; clock := clock w; inflight := inflight w |}.

Definition set_inflight (k : option Waiting) (w : World) : World :=
  {| state := state w; batcher := batcher w; store := store w; gate := gate w;
     log := log w; calls := calls w; clock := clock w; inflight := k |}.

Definition add_log (l : LogLine) (w : World) : World :=
  {| state := state w; batcher := batcher w; store := store w; gate := gate w;
     log := log w ++ [l]; calls := calls w; clock := clock w; inflight := inflight w |}.

Definition do_call (c : Call) (w : World) : World :=
  {| state := state w; batcher := batcher w; store := store w; gate := gate w;
     log := log w; calls := calls w ++ [c]; clock := clock w; inflight := inflight w |}.

(** [Date.now()] *)
Definition now (w : World) : Z * World :=
  (Date_now (clock w),
   {| state := state w; batcher := batcher w; store := store w; gate := gate w;
      log := log w; calls := calls w; clock := S (clock w); inflight := inflight w |}).

(** [withNearAiPermit(label, fn)]: wait for the permit (no queue timeout),
    run [fn], release in [finally].  When the permit is not granted at once
    the caller stays in the gate's queue. *)
Definition withNearAiPermit {A} (fn : World → World * outcome A) (w : World)
  : World * outcome A :=
  let me := Semaphore.calls (gate w) in
  let g1 := Semaphore.acquire (gate w) None in
  if bool_decide (me ∈ Semaphore.resolved g1) then
    let '(w2, r) := fn (set_gate g1 w) in
    (set_gate (Semaphore.release (gate w2) me) w2, r)
  else (set_gate g1 w, Parked).

(** The attempt loop of the short notification: [n] attempts left, the next
    one numbered [attempt]. *)
Fixpoint x_notification_loop (n attempt : nat) (lastErr : option string)
    (lore : jsstring) (batchId : string) (xAccountIds : list jsstring) (w : World)
  : World * outcome jsstring :=
  match n with
  | O => (w, Exn (default "Error: x_notification_failed_to_fit_constraints" lastErr))
  | S n' =>
      let w1 := do_call (call_writeXNotification batchId attempt xAccountIds) w in
      match writeXNotificationFromLoreUnlocked lore batchId attempt xAccountIds with
      | Ok text =>
          if XNotification.isValidXNotificationText text None then (w1, Val text)
          else x_notification_loop n' (S attempt) lastErr lore batchId xAccountIds w1
      | Err e => x_notification_loop n' (S attempt) (Some e) lore batchId xAccountIds w1
      end
  end.

(** The function run under the permit: lore, then the short notification. *)
Definition lore_cycle (payload : jsstring) (batchId : string) (xAccountIds : list jsstring)
    (w : World) : World * outcome (jsstring * option jsstring) :=
  let w1 := do_call (call_writeLore batchId) w in
  match writeLoreUnlocked payload batchId with
  | Err e => (w1, Exn e)
  | Ok lore =>
      if negb (publishLoreToX cfg) then (w1, Val (lore, None))
      else
        match MarketingPolicy.getMarketingPolicy (marketing cfg) with
        | Err e => (w1, Exn e)
        | Ok m =>
            let inWindow : result bool :=
              if MarketingPolicy.enabled m
              then MarketingPolicy.isInMarketingWindowAt (marketing cfg) (local_time batchId)
              else Ok false in
            match inWindow with
            | Err e => (w1, Exn e)
            | Ok true =>
                (add_log (x_publish_skipped_marketing_window batchId
                            (MarketingPolicy.windowStartMinutes m)
                            (MarketingPolicy.windowEndMinutes m)
                            (MarketingPolicy.timezone m) "marketing_window") w1,
                 Val (lore, None))
            | Ok false =>
                if String.eqb (nearAiApiKey cfg) ""                 (* getNearAiClient() *)
                then (w1, Exn "Error: NEAR_AI_KEY is not set")
                else
                  match x_notification_loop 4 1 None lore batchId xAccountIds w1 with
                  | (w2, Val text) => (w2, Val (lore, Some text))
                  | (w2, Exn e) => (w2, Exn e)
                  | (w2, Fuel) => (w2, Fuel)
                  | (w2, Parked) => (w2, Parked)
                  end
            end
        end
  end.

(** STEP 2 of the cycle, first half: the long-form channel and the store. *)
Definition publish_near (batch : LoreBatch) (lore : jsstring) (w : World)
  : World * outcome unit :=
  if publishLoreToNearSocial cfg then
    let w1 := do_call (call_publishLoreThread (LoreTypes.id batch) lore) w in
    match publishLoreThread batch [lore] with
    | Err e => (w1, Exn e)
    | Ok published =>
        let w2 := set_state (λ s,
          {| busy := busy s; lastTickAt := lastTickAt s; lastBatchId := lastBatchId s;
             lastPublishedNear := Some published; lastPublishedX := lastPublishedX s;
             lastError := lastError s |}) w1 in
        let '(t, w3) := now w2 in
        (* Keep last 10 published lores in RAM for continuity. *)
        let entry := {| PublishedLoreStore.createdAt := t;
                        PublishedLoreStore.batchId := LoreTypes.id batch;
                        PublishedLoreStore.rootKey := Some (rootKey published);
                        PublishedLoreStore.txHash :=
                          match head (txHashes published) with
                          | Some h => h
                          | None => None
                          end;
                        PublishedLoreStore.text := lore |} in
        let w4 := set_store (PublishedLoreStore.push (store w3) entry) w3 in
        (add_log (published_lore_stored (LoreTypes.id batch) (rootKey published)
                    (PublishedLoreStore.size (store w4))
                    (PublishedLoreStore.maxSize (store w4))) w4,
         Val tt)
    end
  else (w, Val tt).

(** STEP 2, second half: the short-form channel. *)
Definition publish_x (batch : LoreBatch) (lore : jsstring) (xText imagePrompt : option jsstring)
    (w : World) : World * outcome unit :=
  match xText with
  | Some text =>
      if publishLoreToX cfg && nonempty text then
        let w1 := do_call (call_publishLoreToX (LoreTypes.id batch) text) w in
        match publishLoreToXWithText lore (LoreTypes.id batch) text imagePrompt with
        | Err e => (w1, Exn e)
        | Ok publishedX =>
            (set_state (λ s,
               {| busy := busy s; lastTickAt := lastTickAt s; lastBatchId := lastBatchId s;
                  lastPublishedNear := lastPublishedNear s; lastPublishedX := Some publishedX;
                  lastError := lastError s |}) w1,
             Val tt)
        end
      else (w, Val tt)
  | None => (w, Val tt)
  end.

(** The chronicle memory handed to the payload builder, oldest first. *)
Definition chronicle_memory (w : World) : list Entry :=
  let memNewestFirst :=
    take (PublishedLoreStore.maxSize (store w)) (PublishedLoreStore.listNewestFirst (store w)) in
  reverse memNewestFirst.

(** The [try] block of [tick] for one batch, in the two parts its [await]
    makes.

    Up to the [await]: the payload is built, and [withNearAiPermit] calls
    [acquire]; the promise it awaits is resolved at once when the permit is
    free, and otherwise when the permit is handed over. *)
Definition try_before_await (batch : LoreBatch) (w : World) : World * result Waiting :=
  let memOldestFirst := chronicle_memory w in
  match buildLorePayload batch memOldestFirst with
  | Err e => (w, Err e)
  | Ok (payload, imagePrompt, xAccountIds) =>
      (set_gate (Semaphore.acquire (gate w) None) w,
       Ok {| w_batch := batch; w_payload := payload; w_imagePrompt := imagePrompt;
             w_xAccountIds := xAccountIds; w_ticket := Semaphore.calls (gate w) |})
  end.

(** The promise a suspended tick awaits has been resolved. *)
Definition granted (k : Waiting) (w : World) : bool :=
  bool_decide (w_ticket k ∈ Semaphore.resolved (gate w)).

(** After the [await]: the function under the permit, the release in the
    [finally] of [withNearAiPermit], then STEP 2. *)
Definition try_after_await (k : Waiting) (w : World) : World * outcome unit :=
  let batch := w_batch k in
  let '(w1, r) := lore_cycle (w_payload k) (LoreTypes.id batch) (w_xAccountIds k) w in
  let w2 := set_gate (Semaphore.release (gate w1) (w_ticket k)) w1 in
  match r with
  | Val (lore, xText) =>
      match publish_near batch lore w2 with
      | (w3, Val _) => publish_x batch lore xText (w_imagePrompt k) w3
      | (w3, Exn e) => (w3, Exn e)
      | (w3, Fuel) => (w3, Fuel)
      | (w3, Parked) => (w3, Parked)
      end
  | Exn e => (w2, Exn e)
  | Fuel => (w2, Fuel)
  | Parked => (w2, Parked)
  end.

(** The start of [tick()]: the time stamp, then the state in which the
    [try] block is entered for [batch], the pending ring being [b1]. *)
Definition stamp (w : World) : World :=
  let '(t, w0) := now w in
  set_state (λ s,
    {| busy := busy s; lastTickAt := Some t; lastBatchId := lastBatchId s;
       lastPublishedNear := lastPublishedNear s; lastPublishedX := lastPublishedX s;
       lastError := lastError s |}) w0.

Definition try_start (batch : LoreBatch) (b1 : LoreBatcher) (w0 : World) : World :=
  set_state (λ s,
    {| busy := true; lastTickAt := lastTickAt s; lastBatchId := Some (LoreTypes.id batch);
       lastPublishedNear := lastPublishedNear s; lastPublishedX := lastPublishedX s;
       lastError := None |}) (set_batcher b1 w0).

(** The [catch] block. *)
Definition catch (batch : LoreBatch) (err : string) (w : World) : World :=
  add_log (lore_worker_failed (LoreTypes.id batch) err)
    (set_state (λ s,
       {| busy := busy s; lastTickAt := lastTickAt s; lastBatchId := lastBatchId s;
          lastPublishedNear := lastPublishedNear s; lastPublishedX := lastPublishedX s;
          lastError := Some err |}) w).

(** The [finally] block: idle again, and whether [tick] is called once more. *)
Definition mark_idle (w : World) : World :=
  set_state (λ s,
    {| busy := false; lastTickAt := lastTickAt s; lastBatchId := lastBatchId s;
       lastPublishedNear := lastPublishedNear s; lastPublishedX := lastPublishedX s;
       lastError := lastError s |}) w.

Definition finally (w : World) : World * bool :=
  let w' := mark_idle w in
  (* If more batches are pending, run again (drain until empty). *)
  (w', bool_decide (0 < Batcher.st_pendingBatches (Batcher.status (batcher w')))).

(** How one call of [tick] ends. *)
Inductive TickEnd :=
| NoOp                       (* one of the early returns *)
| Finished (again : bool)    (* through [finally]; [again]: it called [tick] once more *)
| Suspended.                 (* waiting inside the cycle *)

(** [tick()] from its call to its first suspension.  It returns at once at
    one of the early returns; it runs through [catch] and [finally] when the
    payload builder throws; otherwise it is suspended at the [await] of the
    permit, with its continuation in [inflight].  The call of [tick] made in
    [finally] is reported in the result, not run. *)
Definition tick_start (w : World) : World * TickEnd :=
  let w0 := stamp w in
  if busy (state w0) then (w0, NoOp)
  else if String.eqb (nearAiApiKey cfg) "" then (w0, NoOp)
  else
    let '(b1, drained) := Batcher.drainPending (batcher w0) 1 in
    match head drained with
    | None => (set_batcher b1 w0, NoOp)
    | Some batch =>
        match try_before_await batch (try_start batch b1 w0) with
        | (w1, Ok k) => (set_inflight (Some k) w1, Suspended)
        | (w1, Err err) =>
            let '(w2, again) := finally (catch batch err w1) in (w2, Finished again)
        end
    end.

(** The continuation of the suspended [tick()], run when the promise it
    awaits is resolved: the rest of the [try] block, [catch], [finally]. *)
Definition tick_resume (w : World) : World * TickEnd :=
  match inflight w with
  | None => (w, NoOp)
  | Some k =>
      if granted k w then
        match try_after_await k (set_inflight None w) with
        | (w2, Val _) => let '(w3, again) := finally w2 in (w3, Finished again)
        | (w2, Exn err) =>
            let '(w3, again) := finally (catch (w_batch k) err w2) in (w3, Finished again)
        | (w2, Fuel) => (w2, Suspended)
        | (w2, Parked) => (w2, Suspended)
        end
      else (w, Suspended)
  end.

(** What the other clients of the gate do while a tick waits: they call
    [acquire], the holders call their release functions, queue timers fire.
    They cannot call the release function of the waiting tick ([me]); an
    event that cannot happen in the state of the gate is skipped. *)
Definition others (me : nat) (evs : list Semaphore.Event) (g : Semaphore.World)
  : Semaphore.World :=
  foldl (λ g e,
           match e with
           | Semaphore.Release i =>
               if decide (i = me) then g else default g (Semaphore.step g e)
           | _ => default g (Semaphore.step g e)
           end) g evs.

Definition meanwhile (evs : list Semaphore.Event) (w : World) : World :=
  match inflight w with
  | Some k => set_gate (others (w_ticket k) evs (gate w)) w
  | None => w
  end.

(** One call of [tick()] up to and including its [finally], the other
    clients of the gate doing [evs] while it is suspended.  It stays
    [Suspended] when the permit has not been granted after [evs]. *)
Definition tick_with (evs : list Semaphore.Event) (w : World) : World * TickEnd :=
  match tick_start w with
  | (w1, Suspended) => tick_resume (meanwhile evs w1)
  | r => r
  end.

(** The same when nobody else touches the gate: the tick runs through
    exactly when the permit is granted at once. *)
Definition tick_body (w : World) : World * TickEnd := tick_with [] w.

(** The pending batches a call of [tick()] may take. *)
Definition backlog (w : World) : nat :=
  RingBuffer.rb_length (Batcher.pendingBatches (batcher w)).

(** What has happened when a call of [tick()] hands back control, given how
    the call itself ended: the call [void this.tick()] of its [finally] has
    run to its own first suspension, and so on.  [Val]: the promise of the
    call is resolved; [Parked]: the call is suspended, its promise pending.
    Every further call takes one pending batch, which bounds their number. *)
Fixpoint chain (fuel : nat) (r : World * TickEnd) : World * outcome unit :=
  match r with
  | (w, Finished true) =>
      match fuel with
      | O => (w, Fuel)
      | S fuel' =>
          match chain fuel' (tick_start w) with
          | (w', Fuel) => (w', Fuel)
          | (w', _) => (w', Val tt)
          end
      end
  | (w, Finished false) => (w, Val tt)
  | (w, NoOp) => (w, Val tt)
  | (w, Suspended) => (w, Parked)
  end.

(** A call of [tick()], up to the point where it hands back control. *)
Definition tick (w : World) : World * outcome unit := chain (backlog w) (tick_start w).

(** The continuation of the suspended tick, up to the same point. *)
Definition wake (w : World) : World * outcome unit := chain (backlog w) (tick_resume w).

(** [runOnce()]: [await this.tick()].  Its promise is resolved when the tick
    it called has run through; a tick called from that tick's [finally] is
    then still in flight.  [Parked]: the tick waits for the permit. *)
Definition runOnce (w : World) : World * outcome unit :=
  match tick w with
  | (w1, Parked) =>
      match inflight w1 with
      | Some k => if granted k w1 then wake w1 else (w1, Parked)
      | None => (w1, Parked)
      end
  | r => r
  end.

(** [scheduleRun()]: [void this.tick()]. *)
Definition scheduleRun (w : World) : World := (tick w).1.


(** *** What a cycle leaves untouched *)

(** The permit is free: nobody holds it and nobody waits. *)
Definition gate_free (g : Semaphore.World) : Prop :=
  (0 < Semaphore.available (Semaphore.sem g))%Z ∧ Semaphore.queue (Semaphore.sem g) = [].

(** The batches a world has started generating, by id. *)
Definition processed (w : World) : list string :=
  omap (λ c, match c with call_writeLore id => Some id | _ => None end) (calls w).

(** The parts of the world no step of a cycle writes. *)
Definition core_eq (w w' : World) : Prop :=
  batcher w' = batcher w ∧
  busy (state w') = busy (state w) ∧
  lastTickAt (state w') = lastTickAt (state w) ∧
  lastBatchId (state w') = lastBatchId (state w) ∧
  lastError (state w') = lastError (state w) ∧
  inflight w' = inflight w.

Lemma core_eq_refl w : core_eq w w.
Proof. by repeat split. Qed.

Lemma core_eq_trans w1 w2 w3 : core_eq w1 w2 → core_eq w2 w3 → core_eq w1 w3.
Proof. intros (?&?&?&?&?&?) (?&?&?&?&?&?). repeat split; congruence. Qed.

Definition settles {A} (r : outcome A) : Prop := r ≠ Fuel ∧ r ≠ Parked.

Lemma gate_free_acquire g :
  gate_free g →
  Semaphore.calls g ∈ Semaphore.resolved (Semaphore.acquire g None) ∧
  Semaphore.calls g ∈ Semaphore.live (Semaphore.acquire g None) ∧
  Semaphore.queue (Semaphore.sem (Semaphore.acquire g None)) = [] ∧
  Semaphore.available (Semaphore.sem (Semaphore.acquire g None))
    = (Semaphore.available (Semaphore.sem g) - 1)%Z.
Proof.
  intros [Ha Hq]. unfold Semaphore.acquire.
  rewrite (proj2 (Z.ltb_lt _ _) Ha). cbn. rewrite Hq.
  repeat split; apply elem_of_app; right; by apply list_elem_of_singleton.
Qed.

Lemma gate_free_release g i :
  i ∈ Semaphore.live g → Semaphore.queue (Semaphore.sem g) = [] →
  (0 ≤ Semaphore.available (Semaphore.sem g))%Z →
  gate_free (Semaphore.release g i).
Proof.
  intros Hi Hq Ha. unfold Semaphore.release.
  rewrite bool_decide_eq_true_2 by done. rewrite Hq. split; cbn; [lia|done].
Qed.

Lemma x_notification_loop_frame n : ∀ attempt lastErr lore id ids w,
  let r := x_notification_loop n attempt lastErr lore id ids w in
  core_eq w r.1 ∧ gate r.1 = gate w ∧ store r.1 = store w ∧ log r.1 = log w ∧
  clock r.1 = clock w ∧ state r.1 = state w ∧
  processed r.1 = processed w ∧ settles r.2 ∧
  (∀ text, r.2 = Val text → XNotification.isValidXNotificationText text None = true).
Proof.
  induction n as [|n IH]; intros attempt lastErr lore id ids w; cbn.
  { repeat split; done. }
  destruct (writeXNotificationFromLoreUnlocked lore id attempt ids) as [text|e].
  - destruct (XNotification.isValidXNotificationText text None) eqn:Ev.
    + cbn. unfold processed. cbn. rewrite omap_app. cbn. rewrite app_nil_r.
      repeat split; try done. by intros ? [= <-].
    + specialize (IH (S attempt) lastErr lore id ids
                     (do_call (call_writeXNotification id attempt ids) w)).
      cbn in IH. destruct IH as (H1 & H2 & H3 & H4 & H5 & H6 & H7 & H8 & H9).
      unfold processed in H7. cbn in H7. rewrite omap_app in H7. cbn in H7.
      rewrite app_nil_r in H7. done.
  - specialize (IH (S attempt) (Some e) lore id ids
                   (do_call (call_writeXNotification id attempt ids) w)).
    cbn in IH. destruct IH as (H1 & H2 & H3 & H4 & H5 & H6 & H7 & H8 & H9).
    unfold processed in H7. cbn in H7. rewrite omap_app in H7. cbn in H7.
    rewrite app_nil_r in H7. done.
Qed.

Lemma lore_cycle_frame payload id ids w :
  let r := lore_cycle payload id ids w in
  core_eq w r.1 ∧ gate r.1 = gate w ∧ store r.1 = store w ∧ clock r.1 = clock w ∧
  state r.1 = state w ∧
  processed r.1 = processed w ++ [id] ∧ settles r.2.
Proof.
  cbn. unfold lore_cycle.
  assert (Hp : processed (do_call (call_writeLore id) w) = processed w ++ [id]).
  { unfold processed. cbn. by rewrite omap_app. }
  destruct (writeLoreUnlocked payload id) as [lore|e]; [|by repeat split].
  destruct (negb (publishLoreToX cfg)); [by repeat split|].
  destruct (MarketingPolicy.getMarketingPolicy (marketing cfg)) as [m|e]; [|by repeat split].
  destruct (if MarketingPolicy.enabled m then _ else _) as [[|]|e]; [by repeat split| |by repeat split].
  destruct (String.eqb (nearAiApiKey cfg) ""); [by repeat split|].
  pose proof (x_notification_loop_frame 4 1 None lore id ids (do_call (call_writeLore id) w))
    as (H1 & H2 & H3 & H4 & H5 & H6 & H7 & [H8 H8'] & H9).
  destruct (x_notification_loop 4 1 None lore id ids (do_call (call_writeLore id) w))
    as [w2 [text|e| |]]; cbn [fst snd] in *; try done.
  - rewrite H7, Hp. split; [exact H1|]. by repeat split.
  - rewrite H7, Hp. split; [exact H1|]. by repeat split.
Qed.

Lemma publish_near_frame batch lore w :
  let r := publish_near batch lore w in
  core_eq w r.1 ∧ gate r.1 = gate w ∧ processed r.1 = processed w ∧ settles r.2.
Proof.
  cbn. unfold publish_near.
  destruct (publishLoreToNearSocial cfg); [|by repeat split].
  destruct (publishLoreThread batch [lore]) as [published|e]; cbn.
  - unfold processed. cbn. rewrite omap_app. cbn. rewrite app_nil_r. by repeat split.
  - unfold processed. cbn. rewrite omap_app. cbn. rewrite app_nil_r. by repeat split.
Qed.

Lemma publish_x_frame batch lore xText img w :
  let r := publish_x batch lore xText img w in
  core_eq w r.1 ∧ gate r.1 = gate w ∧ store r.1 = store w ∧
  processed r.1 = processed w ∧ settles r.2.
Proof.
  cbn. unfold publish_x. destruct xText as [text|]; [|by repeat split].
  destruct (publishLoreToX cfg && nonempty text); [|by repeat split].
  destruct (publishLoreToXWithText lore (LoreTypes.id batch) text img) as [r|e]; cbn;
    unfold processed; cbn; rewrite omap_app; cbn; rewrite app_nil_r; by repeat split.
Qed.

(** The part of the [try] block after the [await] ends (it throws or
    completes) whatever the state of the gate, and touches neither the
    batcher nor the flags of the worker state. *)
Lemma try_after_await_frame k w :
  let r := try_after_await k w in
  core_eq w r.1 ∧ settles r.2 ∧
  processed r.1 = processed w ++ [LoreTypes.id (w_batch k)].
Proof.
  cbn. unfold try_after_await.
  pose proof (lore_cycle_frame (w_payload k) (LoreTypes.id (w_batch k)) (w_xAccountIds k) w)
    as (Hc & Hg & Hs & Hk & Hst & Hp & [Hf1 Hf2]).
  destruct (lore_cycle (w_payload k) (LoreTypes.id (w_batch k)) (w_xAccountIds k) w)
    as [w1 r1]. cbn [fst snd] in *.
  set (w2 := set_gate (Semaphore.release (gate w1) (w_ticket k)) w1).
  assert (Hc2 : core_eq w w2) by exact Hc.
  assert (Hp2 : processed w2 = processed w ++ [LoreTypes.id (w_batch k)]) by exact Hp.
  destruct r1 as [[lore xText]|e| |]; try done.
  pose proof (publish_near_frame (w_batch k) lore w2) as (Hc3 & _ & Hp3 & [Hf3 Hf4]).
  destruct (publish_near (w_batch k) lore w2) as [w3 r3]. cbn [fst snd] in *.
  destruct r3 as [[]|e| |]; try done.
  - pose proof (publish_x_frame (w_batch k) lore xText (w_imagePrompt k) w3)
      as (Hc4 & _ & _ & Hp4 & Hf5).
    destruct (publish_x (w_batch k) lore xText (w_imagePrompt k) w3) as [w4 r4].
    cbn [fst snd] in *. split; [|split; [done|]].
    + eapply core_eq_trans; [|exact Hc4]. eapply core_eq_trans; [|exact Hc3]. exact Hc2.
    + by rewrite Hp4, Hp3.
  - cbn [fst snd]. split; [|split; [done|]].
    + eapply core_eq_trans; [|exact Hc3]. exact Hc2.
    + by rewrite Hp3.
Qed.

(** [withNearAiPermit] is the two parts put together: the call of [acquire],
    then, when the promise is resolved at once, the function and the
    release. *)
Lemma withNearAiPermit_parts {A} (fn : World → World * outcome A) (w : World) :
  withNearAiPermit fn w =
    let me := Semaphore.calls (gate w) in
    let w1 := set_gate (Semaphore.acquire (gate w) None) w in
    if bool_decide (me ∈ Semaphore.resolved (gate w1)) then
      let '(w2, r) := fn w1 in (set_gate (Semaphore.release (gate w2) me) w2, r)
    else (w1, Parked).
Proof. reflexivity. Qed.

(** *** One call of [tick] on a backlog *)

Definition pending (w : World) : list LoreBatch :=
  RingBuffer.toArray (Batcher.pendingBatches (batcher w)).

(** The worker is idle: not busy, no tick in flight, the pending ring in a
    state a ring can be in. *)
Definition idle_ready (w : World) : Prop :=
  busy (state w) = false ∧
  inflight w = None ∧
  RingBuffer.wf (Batcher.pendingBatches (batcher w)).

(** The state in which [tick], called in [w], enters its [try] block for the
    batch it takes. *)
Definition tick_ws (w : World) (batch : LoreBatch) : World :=
  try_start batch (Batcher.drainPending (batcher (stamp w)) 1).1 (stamp w).

(** The [try] block of the tick called in [w] for the batch [batch] it
    takes, the other clients of the gate doing [evs] while it waits: where
    it ends, and with what ([Exn e]: a step threw [e]; [Parked]: the permit
    has not been granted after [evs]). *)
Definition tick_try (evs : list Semaphore.Event) (w : World) (batch : LoreBatch)
  : World * outcome unit :=
  match try_before_await batch (tick_ws w batch) with
  | (w1, Err e) => (w1, Exn e)
  | (w1, Ok k) =>
      let w2 := meanwhile evs (set_inflight (Some k) w1) in
      if granted k w2 then try_after_await k (set_inflight None w2) else (w2, Parked)
  end.

Lemma chain_NoOp fuel w : chain fuel (w, NoOp) = (w, Val tt).
Proof. by destruct fuel. Qed.



Lemma drain_one (w : World) b rest :
  RingBuffer.wf (Batcher.pendingBatches (batcher w)) → pending w = b :: rest →
  (Batcher.drainPending (batcher (stamp w)) 1).2 = [b] ∧
  RingBuffer.wf (Batcher.pendingBatches (Batcher.drainPending (batcher (stamp w)) 1).1) ∧
  RingBuffer.toArray (Batcher.pendingBatches (Batcher.drainPending (batcher (stamp w)) 1).1)
    = rest.
Proof.
  intros Hwf Hpend. unfold pending in *. unfold Batcher.drainPending.
  change (batcher (stamp w)) with (batcher w).
  destruct (RingBuffer.drain_spec (Batcher.pendingBatches (batcher w)) 1 Hwf ltac:(lia))
    as (Hwf1 & Hout & Hrest).
  pose proof (RingBuffer.toArray_length _ Hwf) as Hlen. rewrite Hpend in Hlen, Hout, Hrest.
  cbn [length] in Hlen.
  replace (Z.to_nat 1 `min` RingBuffer.size (Batcher.pendingBatches (batcher w))) with 1
    in Hout, Hrest by lia.
  destruct (RingBuffer.drain (Batcher.pendingBatches (batcher w)) 1) as [p out] eqn:Ed.
  cbn [fst snd take drop] in *. by subst out.
Qed.


Lemma finally_eq (w : World) :
  RingBuffer.wf (Batcher.pendingBatches (batcher w)) →
  finally w = (mark_idle w, bool_decide (pending w ≠ [])).
Proof.
  intros Hwf. unfold finally. f_equal. cbn. unfold pending, RingBuffer.rb_length.
  rewrite <- (RingBuffer.toArray_length _ Hwf).
  apply bool_decide_ext.
  destruct (RingBuffer.toArray _); cbn; [split; [lia|done]|split; [done|lia]].
Qed.

Lemma tick_start_eq w b rest :
  nearAiApiKey cfg ≠ "" → idle_ready w → pending w = b :: rest →
  tick_start w =
    match try_before_await b (tick_ws w b) with
    | (w1, Ok k) => (set_inflight (Some k) w1, Suspended)
    | (w1, Err e) => (mark_idle (catch b e w1), Finished (bool_decide (rest ≠ [])))
    end ∧
  RingBuffer.wf (Batcher.pendingBatches (batcher (tick_ws w b))) ∧
  pending (tick_ws w b) = rest.
Proof.
  intros Hkey (Hidle & Hfl & Hwf) Hpend.
  destruct (drain_one w b rest Hwf Hpend) as (Hout & Hwf1 & Hrest).
  unfold tick_start, tick_ws.
  assert (Hb0 : busy (state (stamp w)) = false) by done.
  rewrite Hb0, (proj2 (String.eqb_neq _ _) Hkey).
  destruct (Batcher.drainPending (batcher (stamp w)) 1) as [b1 out].
  cbn [fst snd] in *. subst out. cbn [head].
  split; [|by split].
  unfold try_before_await.
  destruct (buildLorePayload b _) as [[[payload img] ids]|e]; [done|].
  rewrite finally_eq by done. unfold pending. cbn [batcher catch add_log set_state try_start set_batcher].
  by rewrite Hrest.
Qed.

Lemma tick_resume_eq w k :
  inflight w = Some k → granted k w = true →
  RingBuffer.wf (Batcher.pendingBatches (batcher w)) →
  tick_resume w =
    (match (try_after_await k (set_inflight None w)).2 with
     | Exn e => mark_idle (catch (w_batch k) e (try_after_await k (set_inflight None w)).1)
     | _ => mark_idle (try_after_await k (set_inflight None w)).1
     end, Finished (bool_decide (pending w ≠ []))) ∧
  settles (try_after_await k (set_inflight None w)).2.
Proof.
  intros Hfl Hg Hwf. unfold tick_resume. rewrite Hfl, Hg.
  pose proof (try_after_await_frame k (set_inflight None w)) as (Hc & Hs & _).
  destruct Hc as (Hcb & _).
  destruct (try_after_await k (set_inflight None w)) as [w2 r]. cbn [fst snd] in *.
  split; [|exact Hs]. destruct Hs as [Hs1 Hs2].
  assert (Hp : ∀ v : World, batcher v = batcher w →
            finally v = (mark_idle v, bool_decide (pending w ≠ []))).
  { intros v Hv. rewrite finally_eq by (by rewrite Hv). unfold pending. by rewrite Hv. }
  destruct r as [[]|e| |]; try done.
  - by rewrite (Hp w2 Hcb).
  - by rewrite (Hp (catch (w_batch k) e w2) Hcb).
Qed.

Lemma others_nil me g : others me [] g = g.
Proof. reflexivity. Qed.

(** One call of [tick] in an idle worker with [b :: rest] pending, whatever
    the state of the gate and whatever its other clients do meanwhile. *)
Lemma tick_with_one evs w b rest :
  nearAiApiKey cfg ≠ "" → idle_ready w → pending w = b :: rest →
  ∃ w1 e, tick_with evs w = (w1, e) ∧
    RingBuffer.wf (Batcher.pendingBatches (batcher w1)) ∧ pending w1 = rest ∧
    lastBatchId (state w1) = Some (LoreTypes.id b) ∧
    calls w1 = calls (tick_try evs w b).1 ∧ store w1 = store (tick_try evs w b).1 ∧
    match (tick_try evs w b).2 with
    | Val _ =>
        e = Finished (bool_decide (rest ≠ [])) ∧ busy (state w1) = false ∧
        inflight w1 = None ∧ lastError (state w1) = None ∧ log w1 = log (tick_try evs w b).1
    | Exn err =>
        e = Finished (bool_decide (rest ≠ [])) ∧ busy (state w1) = false ∧
        inflight w1 = None ∧ lastError (state w1) = Some err ∧
        log w1 = log (tick_try evs w b).1 ++ [lore_worker_failed (LoreTypes.id b) err]
    | Parked =>
        e = Suspended ∧ busy (state w1) = true ∧ lastError (state w1) = None ∧
        ∃ k, inflight w1 = Some k ∧ w_batch k = b ∧ granted k w1 = false ∧
             (try_before_await b (tick_ws w b)).2 = Ok k
    | Fuel => False
    end.
Proof.
  intros Hkey Hready Hpend.
  destruct (tick_start_eq w b rest Hkey Hready Hpend) as (Hstart & Hwf & Hp).
  unfold tick_with, tick_try. rewrite Hstart. clear Hstart.
  assert (Hfl0 : inflight (tick_ws w b) = None) by apply Hready.
  assert (Hgate : ∀ w1 k, try_before_await b (tick_ws w b) = (w1, Ok k) →
            core_eq (tick_ws w b) w1 ∧ w_batch k = b ∧ calls w1 = calls (tick_ws w b) ∧
            store w1 = store (tick_ws w b) ∧ log w1 = log (tick_ws w b)).
  { unfold try_before_await. intros w1 k.
    destruct (buildLorePayload b _) as [[[payload img] ids]|e]; [|done].
    intros [= <- <-]. by repeat split. }
  assert (Herr : ∀ w1 e, try_before_await b (tick_ws w b) = (w1, Err e) → w1 = tick_ws w b).
  { unfold try_before_await. intros w1 e.
    destruct (buildLorePayload b _) as [[[payload img] ids]|e']; [done|]. by intros [= <- _]. }
  destruct (try_before_await b (tick_ws w b)) as [w1 [k|e]] eqn:Eb; cbn [fst snd].
  - destruct (Hgate w1 k eq_refl) as ((Hcb & Hcbusy & Hct & Hcid & Hcerr & Hcfl) & Hkb & Hcalls & Hstore & Hlog).
    set (w2 := meanwhile evs (set_inflight (Some k) w1)).
    assert (Hw2 : w2 = set_gate (others (w_ticket k) evs (gate w1)) (set_inflight (Some k) w1))
      by reflexivity.
    assert (Hfl2 : inflight w2 = Some k) by (by rewrite Hw2).
    assert (Hb2 : batcher w2 = batcher (tick_ws w b)) by (by rewrite Hw2).
    assert (Hwf2 : RingBuffer.wf (Batcher.pendingBatches (batcher w2))) by (by rewrite Hb2).
    destruct (granted k w2) eqn:Eg.
    + destruct (tick_resume_eq w2 k Hfl2 Eg Hwf2) as (Hres & Hs1 & Hs2).
      rewrite Hres. clear Hres.
      pose proof (try_after_await_frame k (set_inflight None w2)) as (Hc & _ & _).
      destruct Hc as (Hrb & Hrbusy & Hrt & Hrid & Hrerr & Hrfl).
      assert (Hpw2 : pending w2 = rest) by (unfold pending; by rewrite Hb2).
      rewrite Hpw2.
      destruct (try_after_await k (set_inflight None w2)) as [w3 r]. cbn [fst snd] in *.
      assert (Hb3 : batcher w3 = batcher (tick_ws w b)) by (by rewrite Hrb).
      assert (Hid3 : lastBatchId (state w3) = Some (LoreTypes.id b)).
      { rewrite Hrid, Hw2. cbn. by rewrite Hcid. }
      assert (Herr3 : lastError (state w3) = None).
      { rewrite Hrerr, Hw2. cbn. by rewrite Hcerr. }
      assert (Hfl3 : inflight w3 = None) by (by rewrite Hrfl).
      destruct r as [[]|err| |]; try done.
      * eexists _, _. split; [reflexivity|].
        split; [cbn; by rewrite Hb3|].
        split; [unfold pending in *; cbn; by rewrite Hb3|].
        split; [exact Hid3|]. by repeat split.
      * eexists _, _. split; [reflexivity|].
        split; [cbn; by rewrite Hb3|].
        split; [unfold pending in *; cbn; by rewrite Hb3|].
        split; [exact Hid3|]. rewrite Hkb. by repeat split.
    + unfold tick_resume. rewrite Hfl2, Eg.
      eexists _, _. split; [reflexivity|].
      split; [by rewrite Hb2|].
      split; [unfold pending in *; by rewrite Hb2|].
      split; [rewrite Hw2; cbn; by rewrite Hcid|].
      split; [done|]. split; [done|]. split; [done|].
      split; [rewrite Hw2; cbn; by rewrite Hcbusy|].
      split; [rewrite Hw2; cbn; by rewrite Hcerr|].
      exists k. by repeat split.
  - pose proof (Herr w1 e eq_refl) as ->.
    eexists _, _. split; [reflexivity|]. cbn.
    split; [exact Hwf|]. split; [exact Hp|]. by repeat split.
Qed.

(** *** The calls of [tick] chained from [finally] *)











(** *** Collaborators that succeed *)








(** *** The permit is always within reach *)



















(** *** [runOnce()] *)



(** *** The continuity store *)

Lemma lore_cycle_val payload id ids w w1 lore xText :
  lore_cycle payload id ids w = (w1, Val (lore, xText)) →
  writeLoreUnlocked payload id = Ok lore.
Proof.
  unfold lore_cycle. destruct (writeLoreUnlocked payload id) as [lore'|e]; [|done].
  destruct (negb (publishLoreToX cfg)); [by intros [= _ ->]|].
  destruct (MarketingPolicy.getMarketingPolicy (marketing cfg)) as [m|e]; [|done].
  destruct (if MarketingPolicy.enabled m then _ else _) as [[|]|e]; [by intros [= _ ->]| |done].
  destruct (String.eqb (nearAiApiKey cfg) ""); [done|].
  destruct (x_notification_loop _ _ _ _ _ _ _) as [w2 [text|e| |]]; try done.
  by intros [= _ ->].
Qed.

Lemma try_after_await_store k w w2 :
  try_after_await k w = (w2, Val tt) →
  if publishLoreToNearSocial cfg then
    ∃ entry,
      store w2 = PublishedLoreStore.push (store w) entry ∧
      PublishedLoreStore.batchId entry = LoreTypes.id (w_batch k) ∧
      writeLoreUnlocked (w_payload k) (LoreTypes.id (w_batch k))
        = Ok (PublishedLoreStore.text entry)
  else store w2 = store w.
Proof.
  unfold try_after_await.
  pose proof (lore_cycle_frame (w_payload k) (LoreTypes.id (w_batch k)) (w_xAccountIds k) w)
    as (_ & _ & Hs & _).
  destruct (lore_cycle _ _ _ _) as [w1 r1] eqn:El.
  cbn [fst snd] in *. destruct r1 as [[lore xText]|e| |]; try done.
  apply lore_cycle_val in El.
  unfold publish_near. destruct (publishLoreToNearSocial cfg).
  - destruct (publishLoreThread (w_batch k) [lore]) as [published|e]; [|done]. cbn.
    intros Hx.
    pose proof (publish_x_frame (w_batch k) lore xText (w_imagePrompt k)) as Hfx.
    match type of Hx with publish_x _ _ _ _ ?w' = _ => specialize (Hfx w') end.
    rewrite Hx in Hfx. cbn in Hfx. destruct Hfx as (_ & _ & Hs3 & _).
    eexists. rewrite Hs3. cbn. rewrite Hs. split; [reflexivity|]. split; [done|]. exact El.
  - intros Hx.
    pose proof (publish_x_frame (w_batch k) lore xText (w_imagePrompt k)
                  (set_gate (Semaphore.release (gate w1) (w_ticket k)) w1)) as Hfx.
    rewrite Hx in Hfx. cbn in Hfx. destruct Hfx as (_ & _ & Hs3 & _).
    by rewrite Hs3.
Qed.

(** The [try] block once the payload is built. *)
Lemma tick_try_built evs w b payload img ids :
  buildLorePayload b (chronicle_memory w) = Ok (payload, img, ids) →
  ∃ k v,
    w_batch k = b ∧ w_payload k = payload ∧ w_imagePrompt k = img ∧
    w_xAccountIds k = ids ∧
    store v = store w ∧ calls v = calls w ∧ log v = log w ∧
    tick_try evs w b =
      if bool_decide (Semaphore.calls (gate w)
                      ∈ Semaphore.resolved (others (Semaphore.calls (gate w)) evs
                                              (Semaphore.acquire (gate w) None)))
      then try_after_await k v
      else (set_inflight (Some k) v, Parked).
Proof.
  intros Hb. unfold tick_try, try_before_await.
  change (chronicle_memory (tick_ws w b)) with (chronicle_memory w). rewrite Hb.
  eexists {| w_batch := b; w_payload := payload; w_imagePrompt := img;
             w_xAccountIds := ids; w_ticket := Semaphore.calls (gate w) |},
          (set_inflight None
             (set_gate (others (Semaphore.calls (gate w)) evs
                          (Semaphore.acquire (gate w) None)) (tick_ws w b))).
  repeat (split; [reflexivity|]).
  unfold meanwhile, granted. cbn.
  by destruct (bool_decide _).
Qed.

(** C6, as the code has it. A batch cycle that ends without error, whatever
    the state of the gate when it started and whatever the other clients of
    the gate did while it waited, leaves the worker idle, and
    - when long-form publication is on ([publishLoreToNearSocial]), the lore
      generated for the batch has been appended to the continuity store: the
      store holds its old entries followed by the new one, less the oldest
      when that exceeds the capacity ([10] for the singleton);
    - when it is off, the store is as it was. *)
Theorem successful_cycle_appends_published_lore
    (evs : list Semaphore.Event) (w w1 : World) (b : LoreBatch) (rest : list LoreBatch)
    (again : bool) :
  nearAiApiKey cfg ≠ "" → idle_ready w → pending w = b :: rest →
  RingBuffer.wf (PublishedLoreStore.buf (store w)) →
  tick_with evs w = (w1, Finished again) → lastError (state w1) = None →
  busy (state w1) = false ∧
  if publishLoreToNearSocial cfg then
    ∃ entry payload,
      PublishedLoreStore.batchId entry = LoreTypes.id b ∧
      writeLoreUnlocked payload (LoreTypes.id b) = Ok (PublishedLoreStore.text entry) ∧
      store w1 = PublishedLoreStore.push (store w) entry ∧
      RingBuffer.toArray (PublishedLoreStore.buf (store w1))
        = drop (length (RingBuffer.toArray (PublishedLoreStore.buf (store w))) + 1
                - PublishedLoreStore.maxSize (store w))
               (RingBuffer.toArray (PublishedLoreStore.buf (store w)) ++ [entry]) ∧
      PublishedLoreStore.latest (store w1) = Some entry ∧
      PublishedLoreStore.size (store w1) ≤ PublishedLoreStore.maxSize (store w)
  else store w1 = store w.
Proof.
  intros Hkey Hready Hpend Hwf Htw Herr.
  destruct (tick_with_one evs w b rest Hkey Hready Hpend)
    as (w1' & e & Htw' & _ & _ & _ & _ & Hstore & Hcase).
  rewrite Htw in Htw'. injection Htw' as <- <-.
  destruct (tick_try evs w b) as [w3 r] eqn:Et. cbn [fst snd] in *.
  destruct r as [[]|err| |]; [|destruct Hcase as (_ & _ & _ & ? & _); congruence|done|
                              by destruct Hcase as [? _]].
  destruct Hcase as (_ & Hbusy & _). split; [done|].
  assert (Hval : ∃ k v, try_after_await k v = (w3, Val tt) ∧ w_batch k = b ∧
                        store v = store w).
  { revert Et. unfold tick_try, try_before_await.
    destruct (buildLorePayload b _) as [[[payload img] ids]|e0]; [|done].
    cbn [fst snd]. destruct (granted _ _); [|done].
    intros Et. eexists _, _. split; [exact Et|]. split; [done|].
    unfold meanwhile. by cbn. }
  destruct Hval as (k & v & Hv & Hkb & Hsv).
  pose proof (try_after_await_store k v w3 Hv) as Hcs. rewrite Hkb, Hsv in Hcs.
  destruct (publishLoreToNearSocial cfg); [|by rewrite Hstore].
  destruct Hcs as (entry & Hst & Hid & Hlore).
  exists entry, (w_payload k). rewrite Hstore, Hst.
  destruct (RingBuffer.push_toArray (PublishedLoreStore.buf (store w)) entry Hwf)
    as (Ht & Hlast & Hlen).
  split; [done|]. split; [done|]. split; [done|]. split; [exact Ht|]. split; [exact Hlast|].
  unfold PublishedLoreStore.size, PublishedLoreStore.maxSize, RingBuffer.rb_length,
    RingBuffer.maxSize. cbn.
  rewrite <- (RingBuffer.toArray_length _ (RingBuffer.push_wf _ entry Hwf)). exact Hlen.
Qed.
(** *** The marketing window *)

Lemma x_notification_loop_calls n : ∀ attempt lastErr lore id ids w c,
  c ∈ calls w → c ∈ calls (x_notification_loop n attempt lastErr lore id ids w).1.
Proof.
  induction n as [|n IH]; intros attempt lastErr lore id ids w c Hc; cbn; [done|].
  assert (Hc' : c ∈ calls (do_call (call_writeXNotification id attempt ids) w)).
  { cbn. apply elem_of_app. by left. }
  destruct (writeXNotificationFromLoreUnlocked lore id attempt ids) as [text|e].
  - destruct (XNotification.isValidXNotificationText text None); [done|]. by apply IH.
  - by apply IH.
Qed.

Lemma x_notification_loop_first n attempt lastErr lore id ids w :
  call_writeXNotification id attempt ids
  ∈ calls (x_notification_loop (S n) attempt lastErr lore id ids w).1.
Proof.
  cbn.
  assert (Hc : call_writeXNotification id attempt ids
               ∈ calls (do_call (call_writeXNotification id attempt ids) w)).
  { cbn. apply elem_of_app. right. left. }
  destruct (writeXNotificationFromLoreUnlocked lore id attempt ids) as [text|e].
  - destruct (XNotification.isValidXNotificationText text None); [done|].
    by apply x_notification_loop_calls.
  - by apply x_notification_loop_calls.
Qed.

Lemma publish_near_calls batch lore w c :
  c ∈ calls w → c ∈ calls (publish_near batch lore w).1.
Proof.
  intros Hc. unfold publish_near. destruct (publishLoreToNearSocial cfg); [|done].
  destruct (publishLoreThread batch [lore]); cbn; apply elem_of_app; by left.
Qed.

Lemma publish_x_calls batch lore xText img w c :
  c ∈ calls w → c ∈ calls (publish_x batch lore xText img w).1.
Proof.
  intros Hc. unfold publish_x. destruct xText as [text|]; [|done].
  destruct (publishLoreToX cfg && nonempty text); [|done].
  destruct (publishLoreToXWithText _ _ _ _); cbn; apply elem_of_app; by left.
Qed.

Section Window.
Variables (p : MarketingPolicy.Policy) (h m : Z).
Variables (payload lore : jsstring) (img : option jsstring) (ids : list jsstring).
Variable (b : LoreBatch).
Hypothesis Hx : publishLoreToX cfg = true.
Hypothesis Hpolicy : MarketingPolicy.getMarketingPolicy (marketing cfg) = Ok p.
Hypothesis Hlocal : local_time (LoreTypes.id b) = Some (h, m).
Hypothesis Hlore : writeLoreUnlocked payload (LoreTypes.id b) = Ok lore.

Definition inside_window : bool :=
  MarketingPolicy.isInCircularRange (h * 60 + m)
    (MarketingPolicy.windowStartMinutes p) (MarketingPolicy.windowEndMinutes p).

Definition skip_line : LogLine :=
  x_publish_skipped_marketing_window (LoreTypes.id b)
    (MarketingPolicy.windowStartMinutes p) (MarketingPolicy.windowEndMinutes p)
    (MarketingPolicy.timezone p) "marketing_window".

Lemma lore_cycle_skip w :
  MarketingPolicy.enabled p = true → inside_window = true →
  lore_cycle payload (LoreTypes.id b) ids w
  = (add_log skip_line (do_call (call_writeLore (LoreTypes.id b)) w), Val (lore, None)).
Proof.
  intros He Hin. unfold lore_cycle. rewrite Hlore, Hx, Hpolicy, He. cbn.
  unfold MarketingPolicy.isInMarketingWindowAt. rewrite Hpolicy, Hlocal. cbn.
  fold inside_window. by rewrite Hin.
Qed.

Lemma lore_cycle_proceed w :
  nearAiApiKey cfg ≠ "" →
  MarketingPolicy.enabled p = false ∨ inside_window = false →
  call_writeXNotification (LoreTypes.id b) 1 ids
  ∈ calls (lore_cycle payload (LoreTypes.id b) ids w).1.
Proof.
  intros Hkey Hout. unfold lore_cycle. rewrite Hlore, Hx, Hpolicy. cbn [negb].
  assert (E : (if MarketingPolicy.enabled p
               then MarketingPolicy.isInMarketingWindowAt (marketing cfg)
                      (local_time (LoreTypes.id b))
               else Ok false) = Ok false).
  { destruct (MarketingPolicy.enabled p) eqn:He; [|done].
    destruct Hout as [?|Hout]; [done|].
    unfold MarketingPolicy.isInMarketingWindowAt. rewrite Hpolicy, Hlocal. cbn.
    fold inside_window. by rewrite Hout. }
  rewrite E, (proj2 (String.eqb_neq _ _) Hkey).
  pose proof (x_notification_loop_first 3 1 None lore (LoreTypes.id b) ids
                (do_call (call_writeLore (LoreTypes.id b)) w)) as Hfirst.
  by destruct (x_notification_loop 4 1 None lore (LoreTypes.id b) ids _) as [w2 [?|?| |]].
Qed.

Lemma after_window k w :
  w_batch k = b → w_payload k = payload → w_xAccountIds k = ids →
  (MarketingPolicy.enabled p = true → inside_window = true →
     skip_line ∈ log (try_after_await k w).1 ∧
     calls (try_after_await k w).1
       = calls w ++ call_writeLore (LoreTypes.id b)
                    :: (if publishLoreToNearSocial cfg
                        then [call_publishLoreThread (LoreTypes.id b) lore] else [])) ∧
  (nearAiApiKey cfg ≠ "" →
   MarketingPolicy.enabled p = false ∨ inside_window = false →
     call_writeXNotification (LoreTypes.id b) 1 ids ∈ calls (try_after_await k w).1).
Proof.
  intros Hkb Hkp Hki. unfold try_after_await. rewrite Hkb, Hkp, Hki. split.
  - intros He Hin. rewrite lore_cycle_skip by done. cbn [fst snd].
    unfold publish_near. destruct (publishLoreToNearSocial cfg).
    + destruct (publishLoreThread b [lore]) as [published|e]; cbn.
      * split; [|by rewrite <- app_assoc].
        apply elem_of_app. left. apply elem_of_app. right. left.
      * split; [|by rewrite <- app_assoc]. apply elem_of_app. right. left.
    + cbn. split; [|done]. apply elem_of_app. right. left.
  - intros Hkey Hout.
    pose proof (lore_cycle_proceed w Hkey Hout) as Hcall.
    destruct (lore_cycle payload (LoreTypes.id b) ids w) as [w1 r1].
    cbn [fst snd] in *.
    destruct r1 as [[lore' xText]|e| |]; cbn [fst snd]; try done.
    pose proof (publish_near_calls b lore'
                  (set_gate (Semaphore.release (gate w1) (w_ticket k)) w1) _ Hcall) as Hcall2.
    destruct (publish_near b lore' _) as [w2 r2]. cbn [fst snd] in *.
    destruct r2 as [[]|e| |]; cbn [fst snd]; try done.
    by apply publish_x_calls.
Qed.

End Window.

(** C5, as the code has it. While a batch is processed with short-form
    publication on ([publishLoreToX]) and the lore generated, whatever the
    state of the gate when the tick started: the tick waits while the permit
    is not granted, and once it has run,
    - if the marketing scheduler is enabled and the local time lies inside
      the marketing window, the worker generates no short text and publishes
      nothing to the short-form channel for the batch, logs the skip with
      reason "marketing_window", and the batch is consumed (no later retry);
    - if the scheduler is disabled or the time lies outside the window, the
      worker goes on to generate the short text;
    - the window is the arc of the day from [base - floor(window/2)] to
      [base + floor(window/2)] when the window is shorter than a day. *)
Theorem marketing_window_skips_short_form
    (evs : list Semaphore.Event) (w : World) (b : LoreBatch) (rest : list LoreBatch)
    (p : MarketingPolicy.Policy) (h m : Z)
    (payload lore : jsstring) (img : option jsstring) (ids : list jsstring) :
  nearAiApiKey cfg ≠ "" → idle_ready w → pending w = b :: rest →
  publishLoreToX cfg = true →
  MarketingPolicy.getMarketingPolicy (marketing cfg) = Ok p →
  local_time (LoreTypes.id b) = Some (h, m) →
  buildLorePayload b (chronicle_memory w) = Ok (payload, img, ids) →
  writeLoreUnlocked payload (LoreTypes.id b) = Ok lore →
  ∃ w1 e, tick_with evs w = (w1, e) ∧ pending w1 = rest ∧
    (if bool_decide (Semaphore.calls (gate w)
                     ∈ Semaphore.resolved (others (Semaphore.calls (gate w)) evs
                                             (Semaphore.acquire (gate w) None)))
     then
       (∃ again, e = Finished again) ∧
       (MarketingPolicy.enabled p = true → inside_window p h m = true →
          skip_line p b ∈ log w1 ∧
          calls w1 = calls w ++ call_writeLore (LoreTypes.id b)
                       :: (if publishLoreToNearSocial cfg
                           then [call_publishLoreThread (LoreTypes.id b) lore] else [])) ∧
       (MarketingPolicy.enabled p = false ∨ inside_window p h m = false →
          call_writeXNotification (LoreTypes.id b) 1 ids ∈ calls w1)
     else e = Suspended ∧ calls w1 = calls w ∧ log w1 = log w) ∧
    ((MarketingPolicy.windowMinutes p < 1440)%Z → (0 ≤ h * 60 + m < 1440)%Z →
       (inside_window p h m = true ↔
        ((h * 60 + m - (MarketingPolicy.baseMinutes p - MarketingPolicy.windowMinutes p / 2))
           mod 1440 ≤ 2 * (MarketingPolicy.windowMinutes p / 2))%Z)).
Proof.
  intros Hkey Hready Hpend Hx Hpolicy Hlocal Hbuilt Hlore.
  destruct (tick_with_one evs w b rest Hkey Hready Hpend)
    as (w1 & e & Htw & _ & Hp1 & _ & Hcalls & _ & Hcase).
  exists w1, e. split; [done|]. split; [done|]. split.
  - destruct (tick_try_built evs w b payload img ids Hbuilt)
      as (k & v & Hkb & Hkp & _ & Hki & _ & Hcv & Hlv & Htry).
    rewrite Htry in Hcase, Hcalls.
    destruct (bool_decide _).
    + destruct (after_window p h m payload lore ids b Hx Hpolicy Hlocal Hlore k v Hkb Hkp Hki)
        as [Hskip Hgo].
      pose proof (try_after_await_frame k v) as (_ & [Hs1 Hs2] & _).
      destruct (try_after_await k v) as [w3 r]. cbn [fst snd] in *.
      rewrite Hcv in Hskip.
      destruct r as [[]|err| |]; cbn [fst snd] in *; try done.
      * destruct Hcase as (-> & _ & _ & _ & Hlog).
        split; [by eexists|]. rewrite Hcalls, Hlog. split; [done|].
        intros Hout. by apply Hgo.
      * destruct Hcase as (-> & _ & _ & _ & Hlog).
        split; [by eexists|]. rewrite Hcalls, Hlog. split.
        -- intros He Hin. destruct (Hskip He Hin) as [Hl Hc]. split; [|done].
           apply elem_of_app. by left.
        -- intros Hout. by apply Hgo.
    + cbn [fst snd] in *. destruct Hcase as (-> & _). split; [done|].
      rewrite Hcalls. cbn. rewrite Hcv. split; [done|].
      destruct (tick_with_one evs w b rest Hkey Hready Hpend) as (w1' & e' & Htw' & _).
      revert Htw. unfold tick_with.
      destruct (tick_start_eq w b rest Hkey Hready Hpend) as (-> & _).
      unfold try_before_await.
      change (chronicle_memory (tick_ws w b)) with (chronicle_memory w). rewrite Hbuilt.
      unfold tick_resume, meanwhile. cbn [inflight set_inflight set_gate].
      destruct (granted _ _).
      * pose proof (try_after_await_frame
           {| w_batch := b; w_payload := payload; w_imagePrompt := img; w_xAccountIds := ids;
              w_ticket := Semaphore.calls (gate (tick_ws w b)) |}) as Hfr.
        match goal with |- context [try_after_await ?k0 ?v0] =>
          specialize (Hfr v0); destruct (try_after_await k0 v0) as [w3 r3] end.
        destruct Hfr as (_ & [? ?] & _). cbn [snd] in *.
        destruct r3 as [[]|?| |]; try done; destruct (finally _); by intros [=].
      * by intros [= <-].
  - intros Hw Hnow.
    destruct (MarketingPolicy.getMarketingPolicy_window _ _ Hpolicy)
      as (Hb & Hw0 & _ & Hse).
    destruct Hse as [Hs He]; [by eapply Z.lt_trans|].
    unfold inside_window. rewrite Hs, He.
    apply MarketingPolicy.window_is_arc; [done| |done].
    split; [apply Z.div_pos; lia|]. apply Z.div_lt_upper_bound; lia.
Qed.

(** *** Further properties of the worker *)

(** [writeXNotificationFromLore(lore, batchId, accountIds)]
    ([xNotificationWriter.ts]): each attempt takes the permit for itself; an
    error of the writer is not caught. *)
Fixpoint writeXNotification_loop (n attempt : nat) (lore : jsstring) (batchId : string)
    (accountIds : list jsstring) (w : World) : World * outcome jsstring :=
  match n with
  | O => (w, Exn "Error: x_notification_failed_to_fit_constraints")
  | S n' =>
      match withNearAiPermit
              (λ w0, (do_call (call_writeXNotification batchId attempt accountIds) w0,
                      to_outcome (writeXNotificationFromLoreUnlocked lore batchId attempt accountIds)))
              w with
      | (w1, Val text) =>
          if negb (nonempty text)
             || bool_decide (260 < length text)
             || XNotification.hasUrlLike text
             || Regex.test XNotification.hashtag text
             || negb (XNotification.containsAllAccountIds text accountIds)
          then writeXNotification_loop n' (S attempt) lore batchId accountIds w1
          else (w1, Val text)
      | (w1, Exn e) => (w1, Exn e)
      | (w1, Fuel) => (w1, Fuel)
      | (w1, Parked) => (w1, Parked)
      end
  end.

Definition writeXNotificationFromLore (lore : jsstring) (batchId : string)
    (accountIds : list jsstring) (w : World) : World * outcome jsstring :=
  if String.eqb (nearAiApiKey cfg) ""
  then (w, Exn "Error: NEAR_AI_KEY is not set (used for xNotification)")
  else writeXNotification_loop 4 1 lore batchId accountIds w.

(** The calls of the short-text writer a world has made. *)
Definition x_attempts (w : World) : list nat :=
  omap (λ c, match c with call_writeXNotification _ k _ => Some k | _ => None end) (calls w).

(** [tick()] returns early, having stamped [lastTickAt] only, when the
    worker is busy, when the generation dependency has no key, and when no
    batch is pending: no batch is consumed and no collaborator is called. *)
Theorem worker_tick_early_returns (w : World) :
  RingBuffer.reachable (Batcher.pendingBatches (batcher w)) →
  busy (state w) = true ∨ nearAiApiKey cfg = "" ∨ pending w = [] →
  ∃ w', runOnce w = (w', Val tt) ∧
    pending w' = pending w ∧ calls w' = calls w ∧ store w' = store w ∧ gate w' = gate w ∧
    log w' = log w ∧
    state w' = {| busy := busy (state w); lastTickAt := Some (Date_now (clock w));
                  lastBatchId := lastBatchId (state w);
                  lastPublishedNear := lastPublishedNear (state w);
                  lastPublishedX := lastPublishedX (state w);
                  lastError := lastError (state w) |}.
Proof.
  intros W%RingBuffer.reachable_wf Hcase. unfold runOnce, tick.
  assert (Hbody : ∃ w', tick_start w = (w', NoOp) ∧
    pending w' = pending w ∧ calls w' = calls w ∧ store w' = store w ∧ gate w' = gate w ∧
    log w' = log w ∧
    state w' = {| busy := busy (state w); lastTickAt := Some (Date_now (clock w));
                  lastBatchId := lastBatchId (state w);
                  lastPublishedNear := lastPublishedNear (state w);
                  lastPublishedX := lastPublishedX (state w);
                  lastError := lastError (state w) |}).
  { unfold tick_start. cbn [stamp now set_state state busy].
    destruct (busy (state w)) eqn:Eb.
    { eexists. split; [reflexivity|]. repeat split; cbn; by rewrite ?Eb. }
    destruct (String.eqb (nearAiApiKey cfg) "") eqn:Ek.
    { eexists. split; [reflexivity|]. repeat split; cbn; by rewrite ?Eb. }
    destruct Hcase as [?|[Hk|Hp]]; [done|by rewrite Hk in Ek|].
    unfold Batcher.drainPending. cbn [batcher set_state].
    destruct (RingBuffer.drain_spec (Batcher.pendingBatches (batcher w)) 1 W ltac:(lia))
      as (_ & Hout & Hrest).
    destruct (RingBuffer.drain (Batcher.pendingBatches (batcher w)) 1) as [p out].
    cbn [fst snd] in *. unfold pending in Hp. rewrite Hp in Hout, Hrest.
    rewrite take_nil in Hout. rewrite drop_nil in Hrest. subst out. cbn [head].
    eexists. split; [reflexivity|]. unfold pending. cbn. rewrite Hrest, Hp, ?Eb.
    by repeat split. }
  destruct Hbody as (w' & Hb & H). exists w'. split; [|exact H].
  by rewrite Hb, chain_NoOp.
Qed.

(** [withNearAiPermit] entered with the permit free runs the function at
    once and hands the permit back whether the function returns or throws:
    afterwards the gate is free again, with the counters it had. *)
Theorem permit_released_on_return_and_throw {A} (fn : World → World * outcome A) (w : World) :
  gate_free (gate w) → (∀ w0, gate (fn w0).1 = gate w0) →
  (withNearAiPermit fn w).2 = (fn (set_gate (Semaphore.acquire (gate w) None) w)).2 ∧
  gate_free (gate (withNearAiPermit fn w).1) ∧
  Semaphore.stats (gate (withNearAiPermit fn w).1) = Semaphore.stats (gate w).
Proof.
  intros Hfree Hfn.
  destruct (gate_free_acquire _ Hfree) as (Hres & Hlive & Hq & Hav).
  unfold withNearAiPermit. rewrite bool_decide_eq_true_2 by done.
  pose proof (Hfn (set_gate (Semaphore.acquire (gate w) None) w)) as Hg. cbn [gate set_gate] in Hg.
  destruct (fn (set_gate (Semaphore.acquire (gate w) None) w)) as [w2 r].
  cbn [fst snd gate set_gate] in *. split; [done|]. rewrite Hg.
  split.
  - apply gate_free_release; [done..|]. rewrite Hav. destruct Hfree. lia.
  - unfold Semaphore.release. rewrite bool_decide_eq_true_2 by done. rewrite Hq.
    unfold Semaphore.stats. cbn. rewrite Hav. destruct Hfree as [_ Hq0]. rewrite Hq0.
    unfold Semaphore.acquire. destruct (0 <? _)%Z; cbn; f_equal; f_equal; lia.
Qed.

Lemma writeXNotification_loop_valid n : ∀ attempt lore id ids w w' text,
  writeXNotification_loop n attempt lore id ids w = (w', Val text) →
  XNotification.isValidXNotificationText text (Some ids) = true.
Proof.
  induction n as [|n IH]; intros attempt lore id ids w w' text; cbn [writeXNotification_loop];
    [done|].
  destruct (withNearAiPermit _ w) as [w1 [t|e| |]]; try done.
  destruct (negb (nonempty t) || _ || _ || _ || _) eqn:E.
  - apply IH.
  - intros [= <- <-]. unfold XNotification.isValidXNotificationText. cbn [default].
    repeat (apply orb_false_elim in E as [E ?]).
    rewrite E. destruct (decide (260 < length t)) as [Hlen|Hlen].
    { by rewrite bool_decide_eq_true_2 in * by done. }
    change (Datatypes.id ids) with ids.
    by repeat match goal with H : _ = false |- _ => rewrite H; clear H end.
Qed.

Lemma writeXNotification_loop_attempts n : ∀ attempt lore id ids w w' text,
  writeXNotification_loop n attempt lore id ids w = (w', Val text) →
  ∃ k, 1 ≤ k ≤ n ∧ x_attempts w' = x_attempts w ++ seq attempt k.
Proof.
  induction n as [|n IH]; intros attempt lore id ids w w' text; cbn [writeXNotification_loop];
    [done|].
  unfold withNearAiPermit. destruct (bool_decide _); [|done]. cbn [fst snd].
  destruct (to_outcome _) as [t|e| |]; try done.
  match goal with |- context [writeXNotification_loop n _ _ _ _ ?v] => set (w1 := v) end.
  assert (Hw1 : x_attempts w1 = x_attempts w ++ [attempt]).
  { unfold x_attempts, w1. cbn. by rewrite omap_app. }
  destruct (negb (nonempty t) || _ || _ || _ || _).
  - intros (k & Hk & ->)%IH. exists (S k). split; [lia|].
    rewrite Hw1, <- app_assoc. done.
  - intros [= <- <-]. exists 1. split; [lia|]. exact Hw1.
Qed.

(** The locked writer returns only a text that passes all five checks with
    the ids it was given, every id included verbatim, after at most four
    calls of the writer; without a key it throws before any attempt. *)
Theorem locked_writer_enforces_account_ids lore id ids (w w' : World) text :
  writeXNotificationFromLore lore id ids w = (w', Val text) →
  nearAiApiKey cfg ≠ "" ∧
  text ≠ [] ∧ length text ≤ 260 ∧
  XNotification.hasUrlLike text = false ∧ Regex.test XNotification.hashtag text = false ∧
  (∀ x, x ∈ ids → x ≠ [] ∧ includes text x = true) ∧
  ∃ k, 1 ≤ k ≤ 4 ∧ x_attempts w' = x_attempts w ++ seq 1 k.
Proof.
  unfold writeXNotificationFromLore.
  destruct (String.eqb (nearAiApiKey cfg) "") eqn:Ek; [done|].
  intros H. pose proof (writeXNotification_loop_attempts _ _ _ _ _ _ _ _ H) as Hk.
  apply writeXNotification_loop_valid in H. split.
  { intros E. by rewrite E in Ek. }
  unfold XNotification.isValidXNotificationText in H. cbn [default] in H.
  change (Datatypes.id ids) with ids in H.
  destruct (negb (nonempty text)) eqn:E1; [done|].
  destruct (decide (260 < length text)) as [E2|E2]; [done|].
  destruct (XNotification.hasUrlLike text) eqn:E3; [done|].
  destruct (Regex.test XNotification.hashtag text) eqn:E4; [done|].
  destruct (negb (XNotification.containsAllAccountIds text ids)) eqn:E5; [done|].
  split; [by destruct text|]. split; [lia|]. split; [done|]. split; [done|].
  split; [|exact Hk].
  intros x Hx. apply negb_false_iff in E5. unfold XNotification.containsAllAccountIds in E5.
  destruct ids as [|i0 ids0]; [by apply elem_of_nil in Hx|].
  rewrite forallb_forall in E5. specialize (E5 x).
  rewrite <- list_elem_of_In in E5. apply E5 in Hx.
  apply andb_true_iff in Hx as [Hne Hinc]. split; [by destruct x|done].
Qed.

(** The chronicle memory handed to the payload builder is the store's
    content, oldest first: the slice by [maxSize] drops nothing. *)
Theorem chronicle_memory_is_store_content (w : World) :
  RingBuffer.reachable (PublishedLoreStore.buf (store w)) →
  chronicle_memory w = RingBuffer.toArray (PublishedLoreStore.buf (store w)) ∧
  length (chronicle_memory w) ≤ PublishedLoreStore.maxSize (store w).
Proof.
  intros W%RingBuffer.reachable_wf.
  unfold chronicle_memory, PublishedLoreStore.listNewestFirst,
    PublishedLoreStore.maxSize, RingBuffer.maxSize.
  pose proof (RingBuffer.toArray_length _ W) as Hl. pose proof (RingBuffer.wf_size _ W) as Hs.
  rewrite take_ge by (rewrite length_reverse; lia).
  rewrite reverse_involutive. split; [done|lia].
Qed.


End Worker.

Arguments World : clear implicits.
Arguments LoreWorkerState : clear implicits.

(** *** A concrete deployment

    The default marketing configuration (20:00 Europe/Warsaw, a window of 60
    minutes), collaborators that always succeed, and the singleton batcher
    with the given batches pending.  The short-notification writer returns a
    text without the account id the payload builder asks for. *)

Definition demo_cfg (near x mk : bool) : Config :=
  {| nearAiApiKey := "key";
     publishLoreToNearSocial := near;
     publishLoreToX := x;
     marketing :=
       {| MarketingPolicy.marketingEnabled := mk;
          MarketingPolicy.marketingTime := js "20:00";
          MarketingPolicy.marketingTimezone := "Europe/Warsaw";
          MarketingPolicy.marketingWindowMinutes := MarketingPolicy.Finite 60;
          MarketingPolicy.marketingJitterMinutes := MarketingPolicy.Finite 15 |} |}.

Definition demo_batch (name : string) : LoreTypes.LoreBatch unit unit :=
  {| LoreTypes.id := name; LoreTypes.createdAt := 0; LoreTypes.rounds := [] |}.

Definition demo_now (k : nat) : Z := 1700000000000 + Z.of_nat k.
Definition demo_local (hm : Z * Z) (_ : string) : option (Z * Z) := Some hm.

Definition demo_build (_ : LoreTypes.LoreBatch unit unit)
    (_ : list PublishedLoreStore.PublishedLoreEntry)
  : result (jsstring * option jsstring * list jsstring) :=
  Ok (js "{}", None, [js "alice.near"]).

Definition demo_lore (_ : jsstring) (_ : string) : result jsstring :=
  Ok (js "alice.near walked out of the forest richer.").

Definition demo_x (_ : jsstring) (_ : string) (_ : nat) (_ : list jsstring) : result jsstring :=
  Ok (js "The forest has a new legend").

Definition demo_near (_ : LoreTypes.LoreBatch unit unit) (_ : list jsstring)
  : result LorePublishResult :=
  Ok {| rootKey := "lore_1_20_0"; partKeys := ["lore_1_20_0"]; txHashes := [Some "tx1"] |}.

Definition demo_xpub (_ : jsstring) (_ : string) (_ : jsstring) (_ : option jsstring)
  : result unit := Ok tt.

Definition demo_world (batches : list (LoreTypes.LoreBatch unit unit)) : World unit unit unit :=
  {| state := {| busy := false; lastTickAt := None; lastBatchId := None;
                 lastPublishedNear := None; lastPublishedX := None; lastError := None |};
     batcher :=
       {| Batcher.opts := Batcher.opts Batcher.fresh_singleton;
          Batcher.rounds := Batcher.rounds Batcher.fresh_singleton;
          Batcher.pendingBatches :=
            (RingBuffer.push_all (Batcher.pendingBatches Batcher.fresh_singleton) batches).1;
          Batcher.unbatchedQueue := []; Batcher.onBatchReady := None;
          Batcher.notified := 0; Batcher.clock := 0; Batcher.log := [] |};
     store := PublishedLoreStore.Store (RingBuffer.Ring (replicate 10 None) 0 0 10) 10;
     gate := Semaphore.nearAiSemaphore;
     log := []; calls := []; clock := 0; inflight := None |}.

(** The same when a batch becomes ready while the round-result writer holds
    the permit (its call of [acquire] is number 0): the way ticks start when
    a snapshot is processed. *)
Definition demo_held_world (batches : list (LoreTypes.LoreBatch unit unit))
  : World unit unit unit :=
  set_gate (Semaphore.acquire Semaphore.nearAiSemaphore None) (demo_world batches).

Lemma demo_store_is_singleton :
  PublishedLoreStore.publishedLoreStore = Some (store (demo_world [])).
Proof. reflexivity. Qed.

Lemma demo_idle_ready batches : idle_ready (demo_world batches).
Proof.
  split; [reflexivity|]. split; [reflexivity|].
  apply RingBuffer.reachable_wf, RingBuffer.push_all_reachable.
  apply (RingBuffer.reach_new 10). reflexivity.
Defined.

Lemma demo_held_idle_ready batches : idle_ready (demo_held_world batches).
Proof. exact (demo_idle_ready batches). Defined.


(** A failing generation call: the error is recorded and the other two
    batches are still processed. *)
Definition flaky_lore (_ : jsstring) (id : string) : result jsstring :=
  if String.eqb id "b1" then Err "Error: upstream 503"
  else Ok (js "alice.near walked out of the forest richer.").



Example worker_failure_example :
  let env_tick := tick_body (demo_cfg false false false) demo_now (demo_local (12, 0)%Z)
                    demo_build flaky_lore demo_x demo_near demo_xpub in
  let w0 := demo_world [demo_batch "b1"; demo_batch "b2"; demo_batch "b3"] in
  (env_tick w0).2 = Finished true ∧
  lastError (state (env_tick w0).1) = Some "Error: upstream 503" ∧
  busy (state (env_tick w0).1) = false ∧
  pending (env_tick w0).1 = [demo_batch "b2"; demo_batch "b3"] ∧
  (env_tick (env_tick w0).1).2 = Finished true ∧
  lastError (state (env_tick (env_tick w0).1).1) = None.
Proof. vm_compute. repeat split. Qed.

(** C4, at a failing input. The batch must mention [alice.near]; the writer
    returns a text that does not; the predicate given the required ids
    rejects the text, yet the worker, which calls the predicate without
    them, accepts it at the first attempt and publishes it. *)
Theorem worker_accepts_text_without_required_id :
  let w1 := (tick_body (demo_cfg false true false) demo_now (demo_local (12, 0)%Z)
               demo_build demo_lore demo_x demo_near demo_xpub
               (demo_world [demo_batch "b1"])).1 in
  demo_build (demo_batch "b1") [] = Ok (js "{}", None, [js "alice.near"]) ∧
  XNotification.isValidXNotificationText (js "The forest has a new legend")
    (Some [js "alice.near"]) = false ∧
  XNotification.isValidXNotificationText (js "The forest has a new legend") None = true ∧
  calls w1 = [call_writeLore "b1";
              call_writeXNotification "b1" 1 [js "alice.near"];
              call_publishLoreToX "b1" (js "The forest has a new legend")] ∧
  lastError (state w1) = None.
Proof. vm_compute. repeat split. Qed.

(** C5 as stated fails: short-form publication on, 20:10 local time inside
    the window 19:30..20:30, but the marketing scheduler disabled: the
    worker generates the short text and publishes it, and logs no skip. *)
Lemma marketing_window_counterexample :
  let cfg := demo_cfg false true false in
  let w1 := (tick_body cfg demo_now (demo_local (20, 10)%Z)
               demo_build demo_lore demo_x demo_near demo_xpub
               (demo_world [demo_batch "b1"])).1 in
  publishLoreToX cfg = true ∧
  MarketingPolicy.isInMarketingWindowAt (marketing cfg) (Some (20, 10)%Z) = Ok true ∧
  call_writeXNotification "b1" 1 [js "alice.near"] ∈ calls w1 ∧
  call_publishLoreToX "b1" (js "The forest has a new legend") ∈ calls w1 ∧
  log w1 = [].
Proof.
  vm_compute. split; [reflexivity|]. split; [reflexivity|].
  split; [right; left|]. split; [right; right; left|reflexivity].
Qed.

(** Witness of C5: the same deployment with the marketing scheduler enabled,
    the batch becoming ready while the round-result writer holds the permit. *)
Lemma marketing_window_skips_short_form_witness :
  let w1 := (tick_with (demo_cfg false true true) demo_now (demo_local (20, 10)%Z)
               demo_build demo_lore demo_x demo_near demo_xpub
               [Semaphore.Release 0] (demo_held_world [demo_batch "b1"])).1 in
  x_publish_skipped_marketing_window "b1" 1170 1230 "Europe/Warsaw" "marketing_window"
    ∈ log w1 ∧
  calls w1 = [call_writeLore "b1"].
Proof.
  destruct (marketing_window_skips_short_form
              (demo_cfg false true true) demo_now (demo_local (20, 10)%Z)
              demo_build demo_lore demo_x demo_near demo_xpub
              [Semaphore.Release 0] (demo_held_world [demo_batch "b1"]) (demo_batch "b1") []
              {| MarketingPolicy.enabled := true;
                 MarketingPolicy.timezone := "Europe/Warsaw";
                 MarketingPolicy.baseMinutes := 1200;
                 MarketingPolicy.windowMinutes := 60;
                 MarketingPolicy.windowStartMinutes := 1170;
                 MarketingPolicy.windowEndMinutes := 1230;
                 MarketingPolicy.jitterMinutes := 15 |}
              20 10 (js "{}") (js "alice.near walked out of the forest richer.")
              None [js "alice.near"])
    as (w1 & e & Htw & _ & Hif & _).
  - discriminate.
  - apply demo_held_idle_ready.
  - reflexivity.
  - reflexivity.
  - reflexivity.
  - reflexivity.
  - reflexivity.
  - reflexivity.
  - cbv zeta. rewrite Htw.
    change (bool_decide _) with true in Hif. destruct Hif as (_ & Hskip & _).
    exact (Hskip eq_refl eq_refl).
Defined.

(** C6 as stated fails: with long-form publication off, a cycle that ends
    without error has generated the lore and appended nothing. *)
Lemma continuity_store_counterexample :
  let r := tick_body (demo_cfg false false false) demo_now (demo_local (12, 0)%Z)
             demo_build demo_lore demo_x demo_near demo_xpub
             (demo_world [demo_batch "b1"]) in
  r.2 = Finished false ∧
  lastError (state r.1) = None ∧ busy (state r.1) = false ∧
  calls r.1 = [call_writeLore "b1"] ∧
  RingBuffer.toArray (PublishedLoreStore.buf (store r.1)) = [].
Proof. vm_compute. repeat split. Qed.

(** Witness of C6: the same deployment with long-form publication on, the
    batch becoming ready while the round-result writer holds the permit. *)
Lemma successful_cycle_appends_published_lore_witness :
  let w1 := (tick_with (demo_cfg true false false) demo_now (demo_local (12, 0)%Z)
               demo_build demo_lore demo_x demo_near demo_xpub
               [Semaphore.Release 0] (demo_held_world [demo_batch "b1"])).1 in
  busy (state w1) = false ∧
  ∃ entry,
    PublishedLoreStore.latest (store w1) = Some entry ∧
    PublishedLoreStore.batchId entry = "b1" ∧
    PublishedLoreStore.text entry = js "alice.near walked out of the forest richer." ∧
    PublishedLoreStore.size (store w1) ≤ 10.
Proof.
  cbv zeta.
  destruct (successful_cycle_appends_published_lore
              (demo_cfg true false false) demo_now (demo_local (12, 0)%Z)
              demo_build demo_lore demo_x demo_near demo_xpub
              [Semaphore.Release 0] (demo_held_world [demo_batch "b1"])
              (tick_with (demo_cfg true false false) demo_now (demo_local (12, 0)%Z)
                 demo_build demo_lore demo_x demo_near demo_xpub
                 [Semaphore.Release 0] (demo_held_world [demo_batch "b1"])).1
              (demo_batch "b1") [] false)
    as (Hidle & entry & payload & Hid & Hlore & _ & _ & Hlatest & Hsize).
  - discriminate.
  - apply demo_held_idle_ready.
  - reflexivity.
  - apply (RingBuffer.new_wf 10). reflexivity.
  - vm_compute. reflexivity.
  - reflexivity.
  - split; [exact Hidle|]. exists entry. split; [exact Hlatest|]. split; [exact Hid|].
    split; [|exact Hsize]. cbv [demo_lore] in Hlore. congruence.
Defined.

(** Witnesses of the further properties. *)

Lemma demo_pending_reachable batches :
  RingBuffer.reachable (Batcher.pendingBatches (batcher (demo_world batches))).
Proof.
  apply RingBuffer.push_all_reachable. apply (RingBuffer.reach_new 10). reflexivity.
Qed.

Lemma worker_tick_early_returns_witness :
  ∃ w', runOnce (demo_cfg true true false) demo_now (demo_local (12, 0)%Z)
          demo_build demo_lore demo_x demo_near demo_xpub (demo_world []) = (w', Val tt) ∧
        calls w' = [] ∧ lastTickAt (state w') = Some (demo_now 0).
Proof.
  destruct (worker_tick_early_returns (demo_cfg true true false) demo_now
              (demo_local (12, 0)%Z) demo_build demo_lore demo_x demo_near demo_xpub
              (demo_world []) (demo_pending_reachable []))
    as (w' & H & _ & Hc & _ & _ & _ & Hs).
  - right. right. reflexivity.
  - exists w'. split; [exact H|]. split; [exact Hc|]. by rewrite Hs.
Defined.

(** A function that throws under the permit. *)
Definition demo_thrower (w : World unit unit unit) : World unit unit unit * outcome unit :=
  (do_call (call_writeLore "b1") w, Exn "Error: upstream 503").

Lemma permit_released_on_return_and_throw_witness :
  (withNearAiPermit demo_thrower (demo_world [])).2 = Exn "Error: upstream 503" ∧
  Semaphore.stats (gate (withNearAiPermit demo_thrower (demo_world [])).1)
  = Semaphore.stats (gate (demo_world [])).
Proof.
  destruct (permit_released_on_return_and_throw demo_thrower (demo_world []))
    as (H1 & _ & H3).
  - split; reflexivity.
  - intros w0. reflexivity.
  - split; [exact H1|exact H3].
Defined.

(** A writer whose first text has a hashtag and whose second one is fine. *)
Definition demo_x_second (_ : jsstring) (_ : string) (attempt : nat) (_ : list jsstring)
  : result jsstring :=
  if decide (attempt = 1) then Ok (js "alice.near walks #again")
  else Ok (js "alice.near walks out of the forest richer").

Lemma locked_writer_enforces_account_ids_witness :
  ∃ w',
    writeXNotificationFromLore (demo_cfg false true false) demo_x_second
      (js "lore") "b1" [js "alice.near"] (demo_world [])
    = (w', Val (js "alice.near walks out of the forest richer")) ∧
    x_attempts w' = [1; 2] ∧
    includes (js "alice.near walks out of the forest richer") (js "alice.near") = true.
Proof.
  eexists. split; [vm_compute; reflexivity|].
  match goal with |- x_attempts ?w1 = _ ∧ _ =>
    destruct (locked_writer_enforces_account_ids (demo_cfg false true false) demo_x_second
                (js "lore") "b1" [js "alice.near"] (demo_world []) w1
                (js "alice.near walks out of the forest richer"))
      as (_ & _ & _ & _ & _ & Hids & _)
  end.
  - vm_compute. reflexivity.
  - split; [vm_compute; reflexivity|].
    apply (Hids (js "alice.near")). left.
Defined.

Definition demo_world_with_memory : World unit unit unit :=
  set_store (foldl PublishedLoreStore.push (store (demo_world []))
               (PublishedLoreStore.demo_entry <$> seq 1 12))
    (demo_world []).

Lemma chronicle_memory_is_store_content_witness :
  chronicle_memory demo_world_with_memory = PublishedLoreStore.demo_entry <$> seq 3 10.
Proof.
  destruct (chronicle_memory_is_store_content demo_world_with_memory) as [H _].
  - unfold demo_world_with_memory. cbn [store set_store].
    rewrite PublishedLoreStore.push_all_buf. apply RingBuffer.push_all_reachable.
    apply (RingBuffer.reach_new 10). reflexivity.
  - rewrite H. vm_compute. reflexivity.
Defined.

End Worker.

(** ** Marketing poster ([marketingPoster.ts])

    Two things come from the runtime and are parameters here: [toLowerCase]
    and the Unicode classes [\p{L}] and [\p{N}] (a predicate on code
    points).  Regular expressions with the [u] flag run on code points, the
    others on code units. *)

Module Marketing.
Import JsStr Regex.

(** *** Code points *)

Definition is_high (c : N) : bool := ((55296 <=? c) && (c <=? 56319))%N.
Definition is_low (c : N) : bool := ((56320 <=? c) && (c <=? 57343))%N.

Fixpoint decode (s : jsstring) : list N :=
  match s with
  | [] => []
  | h :: t =>
      match t with
      | l :: t' =>
          if is_high h && is_low l
          then (65536 + (h - 55296) * 1024 + (l - 56320))%N :: decode t'
          else h :: decode t
      | [] => [h]
      end
  end.

Definition encode1 (c : N) : jsstring :=
  if (c <? 65536)%N then [c]
  else [(55296 + (c - 65536) / 1024)%N; (56320 + (c - 65536) mod 1024)%N].

Definition encode (cs : list N) : jsstring := concat (encode1 <$> cs).

Section Poster.
Variable toLowerCase : jsstring → jsstring.
Variable uni_LN : N → bool.             (* \p{L} or \p{N} *)

(** [/https?:\/\/\S+/g] and [/www\.\S+/g] *)
Definition re_http_url : re :=
  Seq (Lit "http") (Seq (Opt (Chr 115)) (Seq (Lit "://") (Plus (Cls (λ c, negb (is_space c)))))).
Definition re_www_url : re :=
  Seq (Lit "www") (Seq (Chr 46) (Plus (Cls (λ c, negb (is_space c))))).
(** [/[^\p{L}\p{N}\s]+/gu] *)
Definition re_other : re := Plus (Cls (λ c, negb (uni_LN c || is_space c))).
(** [/\s+/g] *)
Definition re_spaces : re := Plus (Cls is_space).
(** [/[\p{L}\p{N}]+/gu] *)
Definition re_token : re := Plus (Cls uni_LN).

Definition normalizeText (s : jsstring) : jsstring :=
  let s1 := toLowerCase s in
  let s2 := replace_all re_http_url [] s1 in
  let s3 := replace_all re_www_url [] s2 in
  let s4 := encode (replace_all re_other [32%N] (decode s3)) in
  let s5 := replace_all re_spaces [32%N] s4 in
  trim s5.

Definition firstLongWords (s : jsstring) (n : nat) : jsstring :=
  join [32%N]
    (take n
       (filter (λ w, 4 ≤ length w)
          (filter (λ w, nonempty w = true) (split_on 32 (normalizeText s))))).

Definition tokenSet (s : jsstring) (stop : option (gset (list N))) : gset (list N) :=
  let t := normalizeText s in
  let words := encode <$> match_all re_token (decode t) in
  foldl (λ out w,
           let ww := toLowerCase w in
           if decide (length ww < 4) then out
           else if bool_decide (ww ∈ default ∅ stop) then out
           else out ∪ {[ww]})
        ∅ words.

(** The similarity as the fraction [inter / uni]; the two corner cases
    return 1 and 0. *)
Definition jaccard (a b : gset (list N)) : nat * nat :=
  if decide (size a = 0 ∧ size b = 0) then (1, 1)
  else if decide (size a = 0 ∨ size b = 0) then (0, 1)
  else
    let inter := size (a ∩ b) in
    let uni := size a + size b - inter in
    if decide (uni ≤ 0) then (0, 1) else (inter, uni).

(** [sim >= 0.62], on the exact fraction: the double nearest to a quotient
    of set sizes compares with the double [0.62] as the quotient does with
    62/100 (the two could differ only for sets of more than 10^14 words). *)
Definition at_least_062 (sim : nat * nat) : bool := bool_decide (62 * sim.2 ≤ 100 * sim.1).

Inductive Reason :=
| reason_empty
| same_first_word (c1 : jsstring)
| same_first_two_words (c2 : jsstring)
| same_first_four_words (c4 : jsstring)
| jaccard_ (sim : nat * nat)
| catchphrase_spitting_verses.

Record Verdict := { ok : bool; reason : option Reason }.

(** Strong n-gram guard: don't reuse the same first 1-2 words as any recent post. *)
Fixpoint ngram_guard (c1 c2 c4 : jsstring) (recentTexts : list jsstring) : option Reason :=
  match recentTexts with
  | [] => None
  | r :: rs =>
      let r1 := firstLongWords r 1 in
      let r2 := firstLongWords r 2 in
      let r4 := firstLongWords r 4 in
      if nonempty c1 && nonempty r1 && bool_decide (c1 = r1) then Some (same_first_word c1)
      else if nonempty c2 && nonempty r2 && bool_decide (c2 = r2)
      then Some (same_first_two_words c2)
      else if nonempty c4 && nonempty r4 && bool_decide (c4 = r4)
      then Some (same_first_four_words c4)
      else ngram_guard c1 c2 c4 rs
  end.

(** Semantic-ish guard: large word overlap => likely same template. *)
Fixpoint jaccard_guard (cSet : gset (list N)) (stop : option (gset (list N)))
    (recentTexts : list jsstring) : option Reason :=
  match recentTexts with
  | [] => None
  | r :: rs =>
      let sim := jaccard cSet (tokenSet r stop) in
      if at_least_062 sim then Some (jaccard_ sim) else jaccard_guard cSet stop rs
  end.

(** [/spitting\s+verses/i] *)
Definition re_spitting : re :=
  Seq (Liti "spitting") (Seq (Plus (Cls is_space)) (Liti "verses")).

Definition isTooSimilarToRecent (candidate : jsstring) (recentTexts : list jsstring)
    (stop : option (gset (list N))) : Verdict :=
  let c := trim candidate in
  if negb (nonempty c) then {| ok := false; reason := Some reason_empty |}
  else
    let c1 := firstLongWords c 1 in
    let c2 := firstLongWords c 2 in
    let c4 := firstLongWords c 4 in
    let cSet := tokenSet c stop in
    match ngram_guard c1 c2 c4 recentTexts with
    | Some r => {| ok := false; reason := Some r |}
    | None =>
        match jaccard_guard cSet stop recentTexts with
        | Some r => {| ok := false; reason := Some r |}
        | None =>
            if test re_spitting c
            then {| ok := false; reason := Some catchphrase_spitting_verses |}
            else {| ok := true; reason := None |}
        end
    end.

(** *** The validators of a draft *)

(** [/[a-z0-9_-]/i] *)
Definition is_idchar (c : N) : bool :=
  is_lower c || is_upper c || is_digit c || (c =? 95)%N || (c =? 45)%N.

(** [/\b[a-z0-9_-]+\.(near|testnet)\b/i] *)
Definition re_account : re :=
  Seq WordB (Seq (Plus (Cls is_idchar))
    (Seq (Chr 46) (Seq (Alt (Liti "near") (Liti "testnet")) WordB))).
(** [/\bblackjack-v\d+\b/i] *)
Definition re_blackjack : re :=
  Seq WordB (Seq (Liti "blackjack-v") (Seq (Plus (Cls is_digit)) WordB)).
(** [/\bft\.[a-z0-9_-]+\b/i] *)
Definition re_ft : re :=
  Seq WordB (Seq (Liti "ft") (Seq (Chr 46) (Seq (Plus (Cls is_idchar)) WordB))).

Definition containsContractLikeIdentifier (text : jsstring) : bool :=
  test re_account text || test re_blackjack text || test re_ft text.

(** [/\b(dark\s+forest|forest|oracle|chronicle|lore|canopy|embers|moss)\b/i] *)
Definition re_anchor : re :=
  Seq WordB
    (Seq (Alt (Seq (Liti "dark") (Seq (Plus (Cls is_space)) (Liti "forest")))
         (Alt (Liti "forest") (Alt (Liti "oracle") (Alt (Liti "chronicle")
         (Alt (Liti "lore") (Alt (Liti "canopy") (Alt (Liti "embers") (Liti "moss"))))))))
       WordB).

Definition hasDarkForestVibeAnchor (text : jsstring) : bool :=
  test re_anchor (normalizeText text).

(** [/#[A-Za-z0-9_]+/g] *)
Definition re_hashtag : re := Seq (Chr 35) (Plus (Cls is_word)).

Definition NEARCON26 : jsstring := js "#NEARCON26".

Definition hasOnlyNearcon26Hashtag (text : jsstring) : bool :=
  match match_all re_hashtag text with
  | [] => true
  | [tag] => bool_decide (tag = NEARCON26)
  | _ => false
  end.

(** [/\r\n/g] *)
Definition re_crlf : re := Seq (Chr 13) (Chr 10).

Definition lines (text : jsstring) : list jsstring :=
  filter (λ l, nonempty l = true)
    (trim <$> split_on 10 (replace_all re_crlf [10%N] text)).

(** The separator and the space after it. *)
Definition SEPARATOR : jsstring := [10022%N; 32%N].

Definition allLinesStartWithSeparator (text : jsstring) : bool :=
  let ls := lines text in
  if decide (length ls = 0) then false
  else forallb (λ l, startsWith l SEPARATOR) ls.

(** [/[ \t]+\n/g] and [/\n{3,}/g] *)
Definition re_blank_eol : re :=
  Seq (Plus (Cls (λ c, (c =? 32)%N || (c =? 9)%N))) (Chr 10).
Definition re_newlines3 : re := Seq (Chr 10) (Seq (Chr 10) (Plus (Chr 10))).
(** [/#NEARCON26\b/] and [/#NEARCON26$/] *)
Definition re_nearcon : re := Seq (Lit "#NEARCON26") WordB.
Definition re_nearcon_end : re := Seq (Lit "#NEARCON26") Eol.
(** [/\r?\n/] *)
Definition re_eol : re := Seq (Opt (Chr 13)) (Chr 10).

(** [s.split(r)] for a regular expression that matches no empty string. *)
Definition split_re (r : re) (s : jsstring) : list jsstring :=
  let '(segs, tl) := scan_all r s in
  (fst <$> segs) ++ [tl].

(** The loop of [normalizeHashtagsOnly] on the reversed lines: the first
    line that is not blank gets the hashtag. *)
Fixpoint tag_first (ls : list jsstring) : option (list jsstring) :=
  match ls with
  | [] => None
  | l :: ls' =>
      if nonempty (trim l) then Some ((trim l ++ js " #NEARCON26") :: ls')
      else (λ r, l :: r) <$> tag_first ls'
  end.

(** Keep at most one hashtag: #NEARCON26 at the very end (if present anywhere). *)
Definition normalizeHashtagsOnly (text : jsstring) : jsstring :=
  let hadNearcon := test re_nearcon text in
  let t :=
    trim (replace_all re_newlines3 [10%N; 10%N]
            (replace_all re_blank_eol [10%N] (replace_all re_hashtag [] text))) in
  if hadNearcon then
    match tag_first (reverse (split_re re_eol t)) with
    | Some ls => trim (join [10%N] (reverse ls))
    | None => trim (t ++ js " #NEARCON26")
    end
  else t.

Definition normalizeMarketingText (raw : jsstring) : jsstring :=
  let t := trim raw in
  if negb (nonempty t) then []
  else
    let t1 :=
      trim (replace_all re_newlines3 [10%N; 10%N]
              (replace_all re_blank_eol [10%N] (replace_all re_crlf [10%N] t))) in
    normalizeHashtagsOnly t1.

(** [stripCodeFences] ([nearAiClient.ts]), with the regular expression
    [/```(?:\w+)?\s*([\s\S]*?)\s*```/i]. *)
Definition re_fence : re :=
  Seq (Lit "```") (Seq (Opt (Plus (Cls is_word))) (Seq (Rep true (Cls is_space))
    (Seq (Cap (Rep false (Cls (λ _, true))))
       (Seq (Rep true (Cls is_space)) (Lit "```"))))).

Definition stripCodeFences (text : jsstring) : jsstring :=
  let t := trim text in
  trim (match exec re_fence t with
        | Some m => default t (m_group m)
        | None => t
        end).

(** [/check\s+(this|the)\s+profile/i] and [/visit\s+(this|our)\s+profile/i] *)
Definition re_check_profile : re :=
  Seq (Liti "check") (Seq (Plus (Cls is_space)) (Seq (Alt (Liti "this") (Liti "the"))
    (Seq (Plus (Cls is_space)) (Liti "profile")))).
Definition re_visit_profile : re :=
  Seq (Liti "visit") (Seq (Plus (Cls is_space)) (Seq (Alt (Liti "this") (Liti "our"))
    (Seq (Plus (Cls is_space)) (Liti "profile")))).

Record Validation := { v_ok : bool; v_reason : option string }.

Definition rejected (why : string) : Validation := {| v_ok := false; v_reason := Some why |}.

Definition validateMarketingText (text : jsstring) : Validation :=
  let t := trim text in
  if negb (nonempty t) then rejected "empty"
  (* No links/URLs *)
  else if test XNotification.url_like t then rejected "contains_url"
  (* No raw contract/token identifiers *)
  else if containsContractLikeIdentifier t then rejected "contains_contract_identifier"
  else
    (* the separator starts a new paragraph: each line must start with it *)
    let ls := lines t in
    if decide (length ls < 1 ∨ 2 < length ls)
    then rejected ("line_count_" +:+ pretty (length ls))
    else if negb (allLinesStartWithSeparator t) then rejected "bad_separator_lines"
    (* Hashtags: only #NEARCON26 (or none) *)
    else if negb (hasOnlyNearcon26Hashtag t) then rejected "invalid_hashtag"
    (* If present, hashtag must be at the very end. *)
    else if test re_nearcon t && negb (test re_nearcon_end t) then rejected "hashtag_not_at_end"
    (* CTA: avoid saying "check this profile" explicitly *)
    else if test re_check_profile t then rejected "explicit_check_profile"
    else if test re_visit_profile t then rejected "explicit_visit_profile"
    (* Keep Dark Forest narrative cohesion *)
    else if negb (hasDarkForestVibeAnchor t) then rejected "missing_dark_forest_anchor"
    else {| v_ok := true; v_reason := None |}.

(** X Premium can support longer posts; still keep a hard cap as a safety
    guard against runaway generations. *)
Definition HARD_CAP : nat := 25 * 1000.                 (* 25_000 *)

Definition enforceHardCap (text : jsstring) : jsstring :=
  let t := trim text in
  if decide (length t ≤ HARD_CAP) then t else slice0 t HARD_CAP.

(** *** The poster ([class MarketingPoster]) *)

Record MarketingContentMessage := {
  id : string;
  focus : jsstring;
  source : jsstring;
}.

Record MarketingMemory := {
  lastPostedYmd : option string;          (* YYYY-MM-DD in marketingTimezone *)
  lastPostedAt : option Z;
  lastTweetId : option string;
  lastUrl : option string;
  recentTexts : option (list jsstring);   (* most recent first *)
  recentThemeIds : option (list string);
}.

Definition MARKETING_RECENT_TEXTS_MAX : nat := 10.

(** The object [{}] *)
Definition no_memory : MarketingMemory :=
  {| lastPostedYmd := None; lastPostedAt := None; lastTweetId := None; lastUrl := None;
     recentTexts := None; recentThemeIds := None |}.

Inductive LogLine :=
| marketing_skip_already_posted_today (ymd reason : string)
| marketing_skip_in_flight (ymd reason : string)
| marketing_generating (ymd reason : string)
| marketing_regen_rejected (attempt : nat) (reason : string) (preview : jsstring)
| marketing_posting_to_x (ymd : string) (chars : nat)
| marketing_posted (ymd : string) (tweetId url : option string)
| marketing_failed (ymd err : string).

(** What of a prompt varies from one request to the next; the rest of its
    text is constant. *)
Record Prompt := {
  p_todayYmd : string;
  p_theme : MarketingContentMessage;
  p_attempt : nat;
  p_maxAttempts : nat;
  p_rejectHint : string;
  p_recent : list jsstring;
  p_latestLore : jsstring;
}.

Record World := {
  inFlight : bool;
  lastError : option string;
  stateCache : MarketingMemory;
  themeBag : list MarketingContentMessage;
  store : PublishedLoreStore.t;          (* the singleton publishedLoreStore *)
  gate : Semaphore.World;                (* the permit gate *)
  posted : list jsstring;                (* the arguments of postTweet, in order *)
  asked : list Prompt;                   (* the completion requests, in order *)
  log : list LogLine;
  clock : nat;                           (* the poster's readings of the clock so far *)
  rolls : nat;                           (* calls of Math.random() so far *)
}.

Variable cfg : MarketingPolicy.MarketingConfig.
Variable nearAiApiKey : string.
Variable MARKETING_CONTENT_MESSAGES : list MarketingContentMessage.
(** [Date.now()] at the poster's [k]-th reading of the clock, and the local
    date [getLocalYMD(new Date(), tz)] at it. *)
Variable Date_now : nat → Z.
Variable getLocalYMD : nat → string → result string.
(** [Math.floor(Math.random() * n)] is [random k mod n] at the [k]-th call. *)
Variable random : nat → nat.
(** The content of the completion for the [k]-th request. *)
Variable complete : nat → Prompt → result (option jsstring).
(** [postTweet(text)] at the [k]-th call: tweet id and url, both absent when
    the channel is not configured. *)
Variable postTweet : nat → jsstring → result (option string * option string).

Definition set_flags (f : bool) (e : option string) (w : World) : World :=
  {| inFlight := f; lastError := e; stateCache := stateCache w; themeBag := themeBag w;
     store := store w; gate := gate w; posted := posted w; asked := asked w;
     log := log w; clock := clock w; rolls := rolls w |}.

Definition set_stateCache (m : MarketingMemory) (w : World) : World :=
  {| inFlight := inFlight w; lastError := lastError w; stateCache := m;
     themeBag := themeBag w; store := store w; gate := gate w; posted := posted w;
     asked := asked w; log := log w; clock := clock w; rolls := rolls w |}.

Definition set_themeBag (b : list MarketingContentMessage) (k : nat) (w : World) : World :=
  {| inFlight := inFlight w; lastError := lastError w; stateCache := stateCache w;
     themeBag := b; store := store w; gate := gate w; posted := posted w;
     asked := asked w; log := log w; clock := clock w; rolls := k |}.

Definition set_gate (g : Semaphore.World) (w : World) : World :=
  {| inFlight := inFlight w; lastError := lastError w; stateCache := stateCache w;
     themeBag := themeBag w; store := store w; gate := g; posted := posted w;
     asked := asked w; log := log w; clock := clock w; rolls := rolls w |}.

Definition do_post (text : jsstring) (w : World) : World :=
  {| inFlight := inFlight w; lastError := lastError w; stateCache := stateCache w;
     themeBag := themeBag w; store := store w; gate := gate w;
     posted := posted w ++ [text]; asked := asked w; log := log w; clock := clock w;
     rolls := rolls w |}.

Definition do_ask (p : Prompt) (w : World) : World :=
  {| inFlight := inFlight w; lastError := lastError w; stateCache := stateCache w;
     themeBag := themeBag w; store := store w; gate := gate w; posted := posted w;
     asked := asked w ++ [p]; log := log w; clock := clock w; rolls := rolls w |}.

Definition add_log (l : LogLine) (w : World) : World :=
  {| inFlight := inFlight w; lastError := lastError w; stateCache := stateCache w;
     themeBag := themeBag w; store := store w; gate := gate w; posted := posted w;
     asked := asked w; log := log w ++ [l]; clock := clock w; rolls := rolls w |}.

(** A reading of the clock ([new Date()] or [Date.now()]): its index. *)
Definition tick (w : World) : nat * World :=
  (clock w,
   {| inFlight := inFlight w; lastError := lastError w; stateCache := stateCache w;
      themeBag := themeBag w; store := store w; gate := gate w; posted := posted w;
      asked := asked w; log := log w; clock := S (clock w); rolls := rolls w |}).

(** [shuffleInPlace]: the loop from index [i] down to 1, [k] random numbers
    drawn so far. *)
Fixpoint shuffle_loop {A} (i k : nat) (arr : list A) : list A * nat :=
  match i with
  | O => (arr, k)
  | S i' =>
      let j := random k `mod` (i + 1) in
      match arr !! i, arr !! j with
      | Some tmp, Some aj => shuffle_loop i' (S k) (<[j := tmp]> (<[i := aj]> arr))
      | _, _ => shuffle_loop i' (S k) arr
      end
  end.

Definition shuffleInPlace {A} (arr : list A) (k : nat) : list A * nat :=
  shuffle_loop (length arr - 1) k arr.

(** Content-message rotation: pick from a shuffled bag until exhausted, then
    reshuffle and start a new cycle. *)
Definition nextThemeForPost (w : World) : World * result MarketingContentMessage :=
  match MARKETING_CONTENT_MESSAGES with
  | [] => (w, Err "Error: marketing_no_content_messages_configured")
  | _ :: _ =>
      let w1 :=
        match themeBag w with
        | [] =>
            let '(bag, k) := shuffleInPlace MARKETING_CONTENT_MESSAGES (rolls w) in
            set_themeBag bag k w
        | _ :: _ => w
        end in
      (* Pop one. Retry attempts for the same post keep the same theme. *)
      match last (themeBag w1) with
      | Some theme =>
          (set_themeBag (take (length (themeBag w1) - 1) (themeBag w1)) (rolls w1) w1,
           Ok theme)
      | None => (w1, Err "TypeError: Cannot read properties of undefined (reading 'id')")
      end
  end.

Definition buildPrompt (w : World) (todayYmd : string) (theme : MarketingContentMessage)
    (attempt maxAttempts : nat) (rejectHint : string) : Prompt :=
  let recent :=
    take MARKETING_RECENT_TEXTS_MAX
      (filter (λ t, nonempty t = true) (default [] (recentTexts (stateCache w)))) in
  let latestLore :=
    match PublishedLoreStore.latest (store w) with
    | Some e => trim (PublishedLoreStore.text e)
    | None => []
    end in
  let latestLoreOneLine := slice0 (replace_all re_spaces [32%N] latestLore) 220 in
  {| p_todayYmd := todayYmd;
     p_theme := theme;
     p_attempt := 1 `max` attempt;
     p_maxAttempts := 1 `max` maxAttempts;
     p_rejectHint := if String.eqb rejectHint "" then "(none)" else rejectHint;
     p_recent := recent;
     p_latestLore := if nonempty latestLoreOneLine then latestLoreOneLine else js "(none)" |}.

Definition maxAttempts : nat := 2.

(** The loop of [generateMarketingTextWithRetries]: [n] attempts left, the
    next one numbered [attempt]. *)
Fixpoint attempts (n attempt : nat) (last_ : jsstring) (rejectHint : string)
    (todayYmd : string) (theme : MarketingContentMessage) (w : World)
  : World * outcome (jsstring * string) :=
  match n with
  | O =>
      (* If we couldn't satisfy the validator, return the last attempt but
         still report the theme. *)
      (w, Val (last_, id theme))
  | S n' =>
      let prompt := buildPrompt w todayYmd theme attempt maxAttempts rejectHint in
      if String.eqb nearAiApiKey "" then (w, Exn "Error: NEAR_AI_KEY is not set")
      else
        let w1 := do_ask prompt w in
        match complete (length (asked w)) prompt with
        | Err e => (w1, Exn e)
        | Ok raw =>
            let text := normalizeMarketingText (stripCodeFences (default [] raw)) in
            let v := validateMarketingText text in
            if v_ok v then (w1, Val (text, id theme))
            else
              let hint := default "rejected" (v_reason v) in
              attempts n' (S attempt) text hint todayYmd theme
                (add_log (marketing_regen_rejected attempt hint (slice0 text 120)) w1)
        end
  end.

Definition generateMarketingTextWithRetries (w : World)
  : World * outcome (jsstring * string) :=
  match MarketingPolicy.getMarketingPolicy cfg with
  | Err e => (w, Exn e)
  | Ok p =>
      let '(d, w1) := tick w in
      match getLocalYMD d (MarketingPolicy.timezone p) with
      | Err e => (w1, Exn e)
      | Ok todayYmd =>
          match nextThemeForPost w1 with
          | (w2, Err e) => (w2, Exn e)
          | (w2, Ok theme) => attempts maxAttempts 1 [] "(none)" todayYmd theme w2
          end
      end
  end.

(** [withNearAiPermit(label, fn)]: wait for the permit (no queue timeout),
    run [fn], release in [finally]. *)
Definition withNearAiPermit {A} (fn : World → World * outcome A) (w : World)
  : World * outcome A :=
  let me := Semaphore.calls (gate w) in
  let g1 := Semaphore.acquire (gate w) None in
  if bool_decide (me ∈ Semaphore.resolved g1) then
    let '(w2, r) := fn (set_gate g1 w) in
    (set_gate (Semaphore.release (gate w2) me) w2, r)
  else (set_gate g1 w, Parked).

(** The [try] block of [generateAndPost]. *)
Definition post_cycle (ymd reason : string) (w : World)
  : World * outcome (option string * option string) :=
  let w0 := add_log (marketing_generating ymd reason) w in
  match withNearAiPermit generateMarketingTextWithRetries w0 with
  | (w1, Val (draft_text, draft_themeId)) =>
      let text := enforceHardCap draft_text in
      if negb (nonempty (trim text)) then (w1, Exn "Error: marketing_empty_text")
      else
        let w2 := add_log (marketing_posting_to_x ymd (length text)) w1 in
        let w3 := do_post text w2 in
        match postTweet (length (posted w2)) text with
        | Err e => (w3, Exn e)
        | Ok (tweetId, url) =>
            let w4 := add_log (marketing_posted ymd tweetId url) w3 in
            let prev :=
              filter (λ t, nonempty t = true) (default [] (recentTexts (stateCache w4))) in
            let nextRecent := take MARKETING_RECENT_TEXTS_MAX (text :: prev) in
            let themePrev :=
              filter (λ t, t ≠ "") (default [] (recentThemeIds (stateCache w4))) in
            let themeNext := take MARKETING_RECENT_TEXTS_MAX (draft_themeId :: themePrev) in
            let '(k, w5) := tick w4 in
            (set_stateCache
               {| lastPostedYmd := Some ymd;
                  lastPostedAt := Some (Date_now k);
                  lastTweetId := tweetId;
                  lastUrl := url;
                  recentTexts := Some nextRecent;
                  recentThemeIds := Some themeNext |} w5,
             Val (tweetId, url))
        end
  | (w1, Exn e) => (w1, Exn e)
  | (w1, Fuel) => (w1, Fuel)
  | (w1, Parked) => (w1, Parked)
  end.

(** [generateAndPost({ force, reason })].  The result is the pair of the
    tweet id and the url, both absent in [{}]. *)
Definition generateAndPost (force : bool) (reason : string) (w : World)
  : World * outcome (option string * option string) :=
  match MarketingPolicy.getMarketingPolicy cfg with
  | Err e => (w, Exn e)
  | Ok p =>
      if negb (MarketingPolicy.enabled p) then (w, Val (None, None))
      else
        let '(now, w0) := tick w in
        match getLocalYMD now (MarketingPolicy.timezone p) with
        | Err e => (w0, Exn e)
        | Ok ymd =>
            if negb force && bool_decide (lastPostedYmd (stateCache w0) = Some ymd)
            then (add_log (marketing_skip_already_posted_today ymd reason) w0, Val (None, None))
            else if inFlight w0
            then (add_log (marketing_skip_in_flight ymd reason) w0, Val (None, None))
            else
              let w1 := set_flags true None w0 in
              match post_cycle ymd reason w1 with
              | (w2, Val res) => (set_flags false (lastError w2) w2, Val res)
              | (w2, Exn err) =>
                  let w3 := add_log (marketing_failed ymd err) (set_flags (inFlight w2) (Some err) w2) in
                  (set_flags false (lastError w3) w3, Exn err)
              | (w2, Fuel) => (w2, Fuel)
              | (w2, Parked) => (w2, Parked)
              end
        end
  end.

(** [postNow(opts)] *)
Definition postNow (force : option bool) (w : World) :=
  generateAndPost (bool_decide (force = Some true)) "manual" w.

(** *** What a run of the poster hands to the publisher *)

(** Nothing was posted and the memory is the same. *)
Definition untouched (w w' : World) : Prop :=
  posted w' = posted w ∧ stateCache w' = stateCache w.

Lemma untouched_refl w : untouched w w.
Proof. by split. Qed.

Lemma untouched_trans w1 w2 w3 : untouched w1 w2 → untouched w2 w3 → untouched w1 w3.
Proof. intros [H1 H2] [H3 H4]. split; congruence. Qed.

Lemma attempts_untouched n attempt last_ hint ymd theme w :
  untouched w (attempts n attempt last_ hint ymd theme w).1.
Proof.
  revert attempt last_ hint w.
  induction n as [|n IH]; intros attempt last_ hint w; cbn [attempts].
  - apply untouched_refl.
  - destruct (String.eqb nearAiApiKey ""); [apply untouched_refl|].
    destruct (complete _ _) as [raw|e]; [|by split].
    destruct (v_ok _); [by split|].
    eapply untouched_trans; [|apply IH]. by split.
Qed.

Lemma nextThemeForPost_untouched w : untouched w (nextThemeForPost w).1.
Proof.
  unfold nextThemeForPost.
  destruct MARKETING_CONTENT_MESSAGES as [|m ms]; [apply untouched_refl|].
  destruct (themeBag w) as [|b bs] eqn:Hbag.
  - destruct (shuffleInPlace (m :: ms) (rolls w)) as [bag k].
    destruct (last _); by split.
  - destruct (last _); by split.
Qed.

Lemma generateMarketingTextWithRetries_untouched w :
  untouched w (generateMarketingTextWithRetries w).1.
Proof.
  unfold generateMarketingTextWithRetries.
  destruct (MarketingPolicy.getMarketingPolicy cfg) as [p|e]; [|apply untouched_refl].
  cbn [tick]. destruct (getLocalYMD _ _) as [today|e]; [|by split].
  match goal with |- context [nextThemeForPost ?w1] =>
    pose proof (nextThemeForPost_untouched w1) as Hn;
    destruct (nextThemeForPost w1) as [w2 [theme|e]] end.
  - eapply untouched_trans; [|apply attempts_untouched].
    eapply untouched_trans; [|exact Hn]. by split.
  - eapply untouched_trans; [|exact Hn]. by split.
Qed.

Lemma withNearAiPermit_untouched {A} (fn : World → World * outcome A) w :
  (∀ v, untouched v (fn v).1) → untouched w (withNearAiPermit fn w).1.
Proof.
  intros Hfn. unfold withNearAiPermit.
  destruct (bool_decide _); [|by split].
  match goal with |- context [fn ?v] =>
    pose proof (Hfn v) as Hv; destruct (fn v) as [w2 r] end.
  eapply untouched_trans; [|split; reflexivity].
  eapply untouched_trans; [|exact Hv]. by split.
Qed.

(** The memory after a successful post of [text]. *)
Definition remembers (w w' : World) (text : jsstring) : Prop :=
  recentTexts (stateCache w') =
    Some (take MARKETING_RECENT_TEXTS_MAX
            (text :: filter (λ t, nonempty t = true) (default [] (recentTexts (stateCache w))))).

(** A run either posts nothing, or posts one capped draft. *)
Definition one_run (w w' : World) : Prop :=
  untouched w w' ∨
  ∃ draft,
    posted w' = posted w ++ [enforceHardCap draft] ∧
    (stateCache w' = stateCache w ∨ remembers w w' (enforceHardCap draft)).

Lemma post_cycle_run ymd reason w : one_run w (post_cycle ymd reason w).1.
Proof.
  unfold post_cycle.
  match goal with |- context [withNearAiPermit ?f ?v] =>
    pose proof (withNearAiPermit_untouched f v generateMarketingTextWithRetries_untouched) as Hp;
    destruct (withNearAiPermit f v) as [w1 r] end.
  assert (H0 : untouched w w1) by (destruct Hp; by split).
  destruct H0 as [Hpost Hmem].
  destruct r as [[draft themeId]|e| |]; cbn [fst]; try (by left).
  destruct (negb _); [by left|].
  destruct (postTweet _ _) as [[tweetId url]|e]; cbn [tick fst].
  - right. exists draft. split; [cbn; by rewrite Hpost|].
    right. unfold remembers. cbn. by rewrite Hmem.
  - right. exists draft. split; [cbn; by rewrite Hpost|]. left. exact Hmem.
Qed.

Lemma generateAndPost_run force reason w : one_run w (generateAndPost force reason w).1.
Proof.
  unfold generateAndPost.
  destruct (MarketingPolicy.getMarketingPolicy cfg) as [p|e]; [|left; apply untouched_refl].
  destruct (negb (MarketingPolicy.enabled p)); [left; apply untouched_refl|].
  cbn [tick]. destruct (getLocalYMD _ _) as [ymd|e]; [|by left].
  destruct (negb force && _); [by left|].
  cbn [inFlight]. destruct (inFlight w); [by left|].
  match goal with |- context [post_cycle ymd reason ?v] =>
    pose proof (post_cycle_run ymd reason v) as Hc;
    destruct (post_cycle ymd reason v) as [w2 r] end.
  cbn [fst] in Hc.
  assert (H : one_run w w2).
  { destruct Hc as [[H1 H2]|(draft & H1 & H2)]; [left; by split|].
    right. exists draft. split; [exact H1|]. exact H2. }
  destruct r; cbn [fst]; exact H.
Qed.

Lemma enforceHardCap_take draft : enforceHardCap draft = take HARD_CAP (trim draft).
Proof.
  unfold enforceHardCap, slice0. case_decide as Hlen; [|done].
  by rewrite take_ge.
Qed.

Lemma enforceHardCap_length draft : length (enforceHardCap draft) ≤ HARD_CAP.
Proof. rewrite enforceHardCap_take, length_take. lia. Qed.

(** A string has no more code points than code units. *)
Lemma decode_length s : length (decode s) ≤ length s.
Proof.
  assert (H : ∀ n s, length s ≤ n → length (decode s) ≤ length s).
  { clear s. induction n as [|n IH]; intros [|h [|l t]] Hn; cbn [length] in *;
      [done|lia|lia|done|cbn; lia|].
    change (decode (h :: l :: t))
      with (if is_high h && is_low l
            then (65536 + (h - 55296) * 1024 + (l - 56320))%N :: decode t
            else h :: decode (l :: t)).
    destruct (is_high h && is_low l); cbn [length].
    - specialize (IH t). lia.
    - specialize (IH (l :: t)). cbn [length] in IH. lia. }
  by apply (H (length s)).
Qed.

Local Ltac nothing_posted :=
  exists []; rewrite app_nil_r; cbn; split; [done|split; [lia|constructor]].

(** The state in which a run of [generateAndPost] on the local day [ymd]
    asks for the draft: the flags are set and [marketing_generating] is
    logged. *)
Definition asking (ymd reason : string) (w : World) : World :=
  add_log (marketing_generating ymd reason) (set_flags true None (tick w).2).

(** C10: a run of the poster hands at most one text to the publisher, and
    that text is the draft [generateMarketingTextWithRetries] returned to
    this run under the permit, trimmed and cut to its first 25,000 code
    units: it is at most 25,000 code units long (and so at most 25,000 code
    points), whatever the length of the draft.  Conversely, when the
    generator returns a draft, the run posts the draft as it is (trimmed)
    when it has at most 25,000 units, and its first 25,000 units when it is
    longer; a draft that is blank is not posted and the run throws. *)
Theorem marketing_text_hard_cap force reason w :
  Z.of_nat HARD_CAP = 25000%Z ∧
  (∃ new,
     posted (generateAndPost force reason w).1 = posted w ++ new ∧
     length new ≤ 1 ∧
     Forall (λ text,
       length text ≤ HARD_CAP ∧ length (decode text) ≤ HARD_CAP ∧
       ∃ p ymd w1 draft themeId,
         MarketingPolicy.getMarketingPolicy cfg = Ok p ∧
         getLocalYMD (clock w) (MarketingPolicy.timezone p) = Ok ymd ∧
         withNearAiPermit generateMarketingTextWithRetries (asking ymd reason w)
           = (w1, Val (draft, themeId)) ∧
         text = take HARD_CAP (trim draft)) new) ∧
  (∀ p ymd w1 draft themeId,
     MarketingPolicy.getMarketingPolicy cfg = Ok p →
     MarketingPolicy.enabled p = true →
     getLocalYMD (clock w) (MarketingPolicy.timezone p) = Ok ymd →
     force = true ∨ lastPostedYmd (stateCache w) ≠ Some ymd →
     inFlight w = false →
     withNearAiPermit generateMarketingTextWithRetries (asking ymd reason w)
       = (w1, Val (draft, themeId)) →
     let text := take HARD_CAP (trim draft) in
     (length (trim draft) ≤ HARD_CAP → text = trim draft) ∧
     (HARD_CAP < length (trim draft) → length text = HARD_CAP) ∧
     if nonempty (trim text)
     then posted (generateAndPost force reason w).1 = posted w ++ [text]
     else posted (generateAndPost force reason w).1 = posted w ∧
          (generateAndPost force reason w).2 = Exn "Error: marketing_empty_text").
Proof.
  assert (Hcap : ∀ draft, enforceHardCap draft = take HARD_CAP (trim draft)).
  { intros draft. unfold enforceHardCap. cbn zeta.
    destruct (decide _) as [Hl|Hl]; [by rewrite take_ge|reflexivity]. }
  split; [reflexivity|]. split.
  - unfold generateAndPost.
    destruct (MarketingPolicy.getMarketingPolicy cfg) as [p|e] eqn:Hp;
      [|nothing_posted].
    destruct (negb (MarketingPolicy.enabled p)); [nothing_posted|].
    cbn [tick].
    destruct (getLocalYMD (clock w) (MarketingPolicy.timezone p)) as [ymd|e] eqn:Hymd;
      [|nothing_posted].
    destruct (negb force && _); [nothing_posted|].
    cbn [inFlight]. destruct (inFlight w); [nothing_posted|].
    unfold post_cycle.
    match goal with |- context [withNearAiPermit ?f ?v] =>
      change v with (asking ymd reason w);
      pose proof (withNearAiPermit_untouched f (asking ymd reason w)
                    generateMarketingTextWithRetries_untouched) as [Hpost _];
      destruct (withNearAiPermit f (asking ymd reason w)) as [w1 r] eqn:Hgen
    end.
    cbn [fst snd] in Hpost. change (posted (asking ymd reason w)) with (posted w) in Hpost.
    destruct r as [[draft themeId]|e'| |]; cbn [fst snd];
      try (nothing_posted).
    rewrite Hcap.
    destruct (negb _); [nothing_posted|].
    exists [take HARD_CAP (trim draft)].
    assert (Hlen : length (take HARD_CAP (trim draft)) ≤ HARD_CAP)
      by (rewrite length_take; lia).
    pose proof (decode_length (take HARD_CAP (trim draft))) as Hdec.
    split; [|split; [cbn; lia|]].
    + destruct (postTweet _ _) as [[tweetId url]|e']; cbn; by rewrite Hpost.
    + constructor; [|constructor].
      split; [exact Hlen|]. split; [lia|].
      by exists p, ymd, w1, draft, themeId.
  - intros p ymd w1 draft themeId Hp Hen Hymd Hday Hfl Hgen. cbn zeta.
    split; [intros Hl; by rewrite take_ge|].
    split; [intros Hl; rewrite length_take; lia|].
    pose proof (withNearAiPermit_untouched _ (asking ymd reason w)
                  generateMarketingTextWithRetries_untouched) as [Hpost _].
    rewrite Hgen in Hpost. cbn [fst snd] in Hpost.
    change (posted (asking ymd reason w)) with (posted w) in Hpost.
    unfold generateAndPost. rewrite Hp, Hen. cbn [negb tick]. rewrite Hymd.
    assert (Hskip : negb force && bool_decide (lastPostedYmd (stateCache w) = Some ymd) = false).
    { destruct Hday as [->|Hne]; [reflexivity|].
      rewrite bool_decide_eq_false_2 by exact Hne. by rewrite andb_false_r. }
    cbn [stateCache inFlight]. rewrite Hskip, Hfl.
    unfold post_cycle.
    match goal with |- context [withNearAiPermit ?f ?v] =>
      change v with (asking ymd reason w) end.
    rewrite Hgen, Hcap.
    destruct (nonempty (trim (take HARD_CAP (trim draft)))); cbn [negb].
    + destruct (postTweet _ _) as [[tweetId url]|e']; cbn; by rewrite Hpost.
    + cbn. by rewrite Hpost.
Qed.

(** *** The anti-repetition check *)

Lemma guard_condition (c r : jsstring) :
  r ≠ [] → c = r → nonempty c && nonempty r && bool_decide (c = r) = true.
Proof.
  intros Hne ->. destruct r as [|x r]; [done|].
  cbn. by apply bool_decide_eq_true_2.
Qed.

Lemma ngram_guard_hit c (recent : list jsstring) r n :
  r ∈ recent → n = 1 ∨ n = 2 ∨ n = 4 →
  firstLongWords r n ≠ [] → firstLongWords c n = firstLongWords r n →
  is_Some (ngram_guard (firstLongWords c 1) (firstLongWords c 2) (firstLongWords c 4) recent).
Proof.
  intros Hin Hn Hne Heq.
  induction recent as [|a recent IH]; [by apply elem_of_nil in Hin|].
  cbn [ngram_guard].
  destruct (nonempty (firstLongWords c 1) && _ && _) eqn:E1; [by eexists|].
  destruct (nonempty (firstLongWords c 2) && _ && _) eqn:E2; [by eexists|].
  destruct (nonempty (firstLongWords c 4) && _ && _) eqn:E4; [by eexists|].
  apply elem_of_cons in Hin as [->|Hin]; [|by apply IH].
  pose proof (guard_condition _ _ Hne Heq) as Hc.
  destruct Hn as [->|[->| ->]]; congruence.
Qed.

Lemma jaccard_guard_hit cSet stop (recent : list jsstring) r :
  r ∈ recent → at_least_062 (jaccard cSet (tokenSet r stop)) = true →
  is_Some (jaccard_guard cSet stop recent).
Proof.
  intros Hin Hsim.
  induction recent as [|a recent IH]; [by apply elem_of_nil in Hin|].
  cbn [jaccard_guard].
  destruct (at_least_062 (jaccard cSet (tokenSet a stop))) eqn:E; [by eexists|].
  apply elem_of_cons in Hin as [->|Hin]; [congruence|by apply IH].
Qed.

(** *** A validated draft is posted whatever the window holds *)

Lemma drop_while_head (p : N → bool) s :
  drop_while p s = [] ∨ ∃ c s', drop_while p s = c :: s' ∧ p c = false.
Proof.
  induction s as [|c s IH]; cbn; [by left|].
  destruct (p c) eqn:E; [exact IH|]. right. by exists c, s.
Qed.

Lemma drop_while_snoc (p : N → bool) l c :
  p c = false → ∃ l', drop_while p (l ++ [c]) = l' ++ [c].
Proof.
  intros Hc. induction l as [|a l IH]; cbn.
  - rewrite Hc. by exists [].
  - destruct (p a); [exact IH|]. by exists (a :: l).
Qed.

Lemma trimEnd_head c s : is_space c = false → ∃ s', trimEnd (c :: s) = c :: s'.
Proof.
  intros Hc. unfold trimEnd. rewrite reverse_cons.
  destruct (drop_while_snoc is_space (reverse s) c Hc) as [l' ->].
  exists (reverse l'). by rewrite reverse_app.
Qed.

Lemma trim_head s : trim s = [] ∨ ∃ c s', trim s = c :: s' ∧ is_space c = false.
Proof.
  unfold trim, trimStart.
  destruct (drop_while_head is_space s) as [->|(c & s' & -> & Hc)]; [by left|].
  right. destruct (trimEnd_head c s' Hc) as [s'' ->]. by exists c, s''.
Qed.

Lemma trim_nonblank c s : is_space c = false → nonempty (trim (c :: s)) = true.
Proof.
  intros Hc. unfold trim, trimStart. cbn [drop_while]. rewrite Hc.
  by destruct (trimEnd_head c s Hc) as [s' ->].
Qed.

Lemma validated_not_blank text :
  v_ok (validateMarketingText text) = true →
  nonempty (trim (enforceHardCap text)) = true.
Proof.
  intros Hv. rewrite enforceHardCap_take.
  destruct (trim_head text) as [E|(c & s' & E & Hc)].
  - unfold validateMarketingText in Hv. rewrite E in Hv. discriminate.
  - rewrite E. cbn [HARD_CAP Nat.mul take]. by apply trim_nonblank.
Qed.

Lemma shuffle_loop_length {A} i k (arr : list A) :
  length (shuffle_loop i k arr).1 = length arr.
Proof.
  revert k arr. induction i as [|i IH]; intros k arr; cbn [shuffle_loop]; [done|].
  destruct (arr !! S i); [|apply IH].
  destruct (arr !! _); rewrite IH; [|done].
  by rewrite !length_insert.
Qed.

Lemma nextThemeForPost_ok v :
  MARKETING_CONTENT_MESSAGES ≠ [] → ∃ theme, (nextThemeForPost v).2 = Ok theme.
Proof.
  intros Hne. unfold nextThemeForPost.
  destruct MARKETING_CONTENT_MESSAGES as [|m ms] eqn:Em; [done|].
  assert (Hlast : ∀ l : list MarketingContentMessage, l ≠ [] → is_Some (last l)).
  { intros l Hl. destruct l as [|x l _] using rev_ind; [done|].
    rewrite last_snoc. by eexists. }
  destruct (themeBag v) as [|b bs] eqn:Hbag.
  - pose proof (shuffle_loop_length (length (m :: ms) - 1) (rolls v) (m :: ms)) as Hlen.
    unfold shuffleInPlace.
    destruct (shuffle_loop _ _ (m :: ms)) as [bag k]. cbn [fst] in Hlen.
    cbn [themeBag set_themeBag].
    destruct (Hlast bag) as [th ->]; [by destruct bag|]. by exists th.
  - rewrite Hbag. destruct (Hlast (b :: bs)) as [th ->]; [done|]. by exists th.
Qed.

Lemma attempts_first_valid n attempt last_ hint ymd theme v raw :
  nearAiApiKey ≠ "" →
  (∀ k prompt, complete k prompt = Ok (Some raw)) →
  v_ok (validateMarketingText (normalizeMarketingText (stripCodeFences raw))) = true →
  (attempts (S n) attempt last_ hint ymd theme v).2
    = Val (normalizeMarketingText (stripCodeFences raw), id theme).
Proof.
  intros Hkey Hraw Hv. cbn [attempts].
  destruct (String.eqb nearAiApiKey "") eqn:E; [by apply String.eqb_eq in E|].
  rewrite Hraw. cbv beta iota. change (default [] (Some raw)) with raw.
  by rewrite Hv.
Qed.

Lemma generate_first_valid v raw p ymd :
  MarketingPolicy.getMarketingPolicy cfg = Ok p →
  (∀ k, getLocalYMD k (MarketingPolicy.timezone p) = Ok ymd) →
  nearAiApiKey ≠ "" → MARKETING_CONTENT_MESSAGES ≠ [] →
  (∀ k prompt, complete k prompt = Ok (Some raw)) →
  v_ok (validateMarketingText (normalizeMarketingText (stripCodeFences raw))) = true →
  ∃ themeId,
    (generateMarketingTextWithRetries v).2
      = Val (normalizeMarketingText (stripCodeFences raw), themeId).
Proof.
  intros Hp Hymd Hkey Hmsg Hraw Hv. unfold generateMarketingTextWithRetries.
  rewrite Hp. cbn [tick]. rewrite Hymd.
  match goal with |- context [nextThemeForPost ?w1] =>
    destruct (nextThemeForPost_ok w1 Hmsg) as [theme Hth];
    destruct (nextThemeForPost w1) as [w2 r] end.
  cbn [snd] in Hth. subst r. exists (id theme).
  by apply attempts_first_valid.
Qed.

(** A scheduled run on a day without a post, with the permit free: a draft
    that passes [validateMarketingText] at the first attempt is handed to
    the publisher, whatever the recent texts are. *)
Lemma validated_draft_is_posted w raw p ymd :
  MarketingPolicy.getMarketingPolicy cfg = Ok p → MarketingPolicy.enabled p = true →
  (∀ k, getLocalYMD k (MarketingPolicy.timezone p) = Ok ymd) →
  lastPostedYmd (stateCache w) ≠ Some ymd → inFlight w = false →
  Worker.gate_free (gate w) →
  nearAiApiKey ≠ "" → MARKETING_CONTENT_MESSAGES ≠ [] →
  (∀ k prompt, complete k prompt = Ok (Some raw)) →
  v_ok (validateMarketingText (normalizeMarketingText (stripCodeFences raw))) = true →
  posted (generateAndPost false "scheduled" w).1
    = posted w ++ [enforceHardCap (normalizeMarketingText (stripCodeFences raw))].
Proof.
  intros Hp Hen Hymd Hday Hfl Hfree Hkey Hmsg Hraw Hv.
  unfold generateAndPost. rewrite Hp, Hen. cbn [negb tick]. rewrite Hymd.
  cbn [stateCache inFlight andb]. rewrite bool_decide_eq_false_2 by done. rewrite Hfl.
  unfold post_cycle, withNearAiPermit.
  cbn [gate add_log set_flags].
  destruct (Worker.gate_free_acquire _ Hfree) as (Hres & _).
  rewrite bool_decide_eq_true_2 by exact Hres.
  match goal with |- context [generateMarketingTextWithRetries ?v] =>
    destruct (generate_first_valid v raw p ymd Hp Hymd Hkey Hmsg Hraw Hv) as [themeId Hg];
    pose proof (generateMarketingTextWithRetries_untouched v) as [Hpost _];
    destruct (generateMarketingTextWithRetries v) as [w2 r] end.
  cbn [fst snd] in *. subst r.
  rewrite (validated_not_blank _ Hv). cbn [negb].
  destruct (postTweet _ _) as [[tweetId url]|e]; cbn; by rewrite Hpost.
Qed.

(** C3 (amended): the anti-repetition check, given a window of recent
    posts, rejects a candidate whose first two words of length >= 4 (after
    normalization) are those of a text of the window; likewise for the first
    such word and the first four, and for a token-Jaccard similarity of 0.62
    or more with a text of the window.  The validation step of the poster
    does not run this check: in a scheduled run, such a candidate, once it
    passes [validateMarketingText] at the first attempt, is handed to the
    publisher although the window is the poster's memory of recent texts. *)
Theorem anti_repetition_rejects_but_does_not_gate
    candidate (recent : list jsstring) stop r :
  r ∈ recent →
  (∃ n, (n = 1 ∨ n = 2 ∨ n = 4) ∧ firstLongWords r n ≠ [] ∧
        firstLongWords (trim candidate) n = firstLongWords r n)
  ∨ at_least_062 (jaccard (tokenSet (trim candidate) stop) (tokenSet r stop)) = true →
  ok (isTooSimilarToRecent candidate recent stop) = false ∧
  ∀ w raw p ymd,
    recentTexts (stateCache w) = Some recent →
    normalizeMarketingText (stripCodeFences raw) = candidate →
    v_ok (validateMarketingText candidate) = true →
    MarketingPolicy.getMarketingPolicy cfg = Ok p → MarketingPolicy.enabled p = true →
    (∀ k, getLocalYMD k (MarketingPolicy.timezone p) = Ok ymd) →
    lastPostedYmd (stateCache w) ≠ Some ymd → inFlight w = false →
    Worker.gate_free (gate w) →
    nearAiApiKey ≠ "" → MARKETING_CONTENT_MESSAGES ≠ [] →
    (∀ k prompt, complete k prompt = Ok (Some raw)) →
    posted (generateAndPost false "scheduled" w).1 = posted w ++ [enforceHardCap candidate].
Proof.
  intros Hin Hmatch. split.
  - unfold isTooSimilarToRecent.
    destruct (negb (nonempty (trim candidate))); [reflexivity|].
    destruct (ngram_guard _ _ _ recent) as [why|] eqn:Hng; [reflexivity|].
    destruct (jaccard_guard _ stop recent) as [why|] eqn:Hjg; [reflexivity|].
    exfalso. destruct Hmatch as [(n & Hn & Hne & Heq)|Hsim].
    + destruct (ngram_guard_hit (trim candidate) recent r n Hin Hn Hne Heq) as [x Hx].
      congruence.
    + destruct (jaccard_guard_hit _ stop recent r Hin Hsim) as [x Hx]. congruence.
  - intros w raw p ymd _ <- Hv Hp Hen Hymd Hday Hfl Hfree Hkey Hmsg Hraw.
    by eapply validated_draft_is_posted.
Qed.

(** The window the poster keeps holds at most ten texts. *)
Lemma recent_window_bounded force reason w :
  let w' := (generateAndPost force reason w).1 in
  stateCache w' = stateCache w ∨
  ∃ l, recentTexts (stateCache w') = Some l ∧ length l ≤ MARKETING_RECENT_TEXTS_MAX.
Proof.
  cbn zeta.
  destruct (generateAndPost_run force reason w) as [[_ Hm]|(draft & _ & [Hm|Hm])];
    [by left..|].
  right. eexists. split; [exact Hm|]. rewrite length_take. lia.
Qed.

(** *** Further properties of the poster *)

(** The flags of the poster are the same. *)
Definition flags_kept (w w' : World) : Prop :=
  inFlight w' = inFlight w ∧ lastError w' = lastError w.

Lemma flags_kept_trans w1 w2 w3 : flags_kept w1 w2 → flags_kept w2 w3 → flags_kept w1 w3.
Proof. intros [H1 H2] [H3 H4]. split; congruence. Qed.

Lemma attempts_flags n attempt last_ hint ymd theme w :
  flags_kept w (attempts n attempt last_ hint ymd theme w).1.
Proof.
  revert attempt last_ hint w.
  induction n as [|n IH]; intros attempt last_ hint w; cbn [attempts]; [by split|].
  destruct (String.eqb nearAiApiKey ""); [by split|].
  destruct (complete _ _) as [raw|e]; [|by split].
  destruct (v_ok _); [by split|].
  eapply flags_kept_trans; [|apply IH]. by split.
Qed.

Lemma nextThemeForPost_flags w : flags_kept w (nextThemeForPost w).1.
Proof.
  unfold nextThemeForPost.
  destruct MARKETING_CONTENT_MESSAGES as [|m ms]; [by split|].
  destruct (themeBag w) as [|b bs] eqn:Hbag.
  - destruct (shuffleInPlace (m :: ms) (rolls w)) as [bag k].
    destruct (last _); by split.
  - destruct (last _); by split.
Qed.

Lemma generateMarketingTextWithRetries_flags w :
  flags_kept w (generateMarketingTextWithRetries w).1.
Proof.
  unfold generateMarketingTextWithRetries.
  destruct (MarketingPolicy.getMarketingPolicy cfg) as [p|e]; [|by split].
  cbn [tick]. destruct (getLocalYMD _ _) as [today|e]; [|by split].
  match goal with |- context [nextThemeForPost ?w1] =>
    pose proof (nextThemeForPost_flags w1) as Hn;
    destruct (nextThemeForPost w1) as [w2 [theme|e]] end.
  - eapply flags_kept_trans; [|apply attempts_flags].
    eapply flags_kept_trans; [|exact Hn]. by split.
  - eapply flags_kept_trans; [|exact Hn]. by split.
Qed.

Lemma withNearAiPermit_flags {A} (fn : World → World * outcome A) w :
  (∀ v, flags_kept v (fn v).1) → flags_kept w (withNearAiPermit fn w).1.
Proof.
  intros Hfn. unfold withNearAiPermit.
  destruct (bool_decide _); [|by split].
  match goal with |- context [fn ?v] =>
    pose proof (Hfn v) as Hv; destruct (fn v) as [w2 r] end.
  eapply flags_kept_trans; [|split; reflexivity].
  eapply flags_kept_trans; [|exact Hv]. by split.
Qed.

(** What the [try] block leaves when it returns: the day is marked, and the
    memory holds the posted text first. *)
Lemma post_cycle_returns ymd reason w w' res :
  post_cycle ymd reason w = (w', Val res) →
  ∃ text,
    posted w' = posted w ++ [text] ∧
    lastPostedYmd (stateCache w') = Some ymd ∧
    remembers w w' text ∧ flags_kept w w'.
Proof.
  unfold post_cycle.
  match goal with |- context [withNearAiPermit ?f ?v] =>
    pose proof (withNearAiPermit_untouched f v generateMarketingTextWithRetries_untouched)
      as [Hpost Hmem];
    pose proof (withNearAiPermit_flags f v generateMarketingTextWithRetries_flags) as Hfl;
    destruct (withNearAiPermit f v) as [w1 r]
  end.
  cbn [fst snd] in *.
  destruct r as [[draft themeId]|e| |]; try done.
  destruct (negb _); [done|].
  destruct (postTweet _ _) as [[tweetId url]|e]; [|done]. cbn [tick].
  intros [= <- <-]. exists (enforceHardCap draft). cbn.
  split; [by rewrite Hpost|]. split; [done|]. split; [|exact Hfl].
  unfold remembers. cbn. by rewrite Hmem.
Qed.

(** What the [try] block leaves when it throws: nothing is remembered. *)
Lemma post_cycle_throws ymd reason w w' e :
  post_cycle ymd reason w = (w', Exn e) →
  stateCache w' = stateCache w ∧ flags_kept w w'.
Proof.
  unfold post_cycle.
  match goal with |- context [withNearAiPermit ?f ?v] =>
    pose proof (withNearAiPermit_untouched f v generateMarketingTextWithRetries_untouched)
      as [Hpost Hmem];
    pose proof (withNearAiPermit_flags f v generateMarketingTextWithRetries_flags) as Hfl;
    destruct (withNearAiPermit f v) as [w1 r]
  end.
  cbn [fst snd] in *.
  destruct r as [[draft themeId]|e'| |]; try done.
  - destruct (negb _); [by intros [= <- <-]|].
    destruct (postTweet _ _) as [[tweetId url]|e']; [done|].
    intros [= <- <-]. by split.
  - by intros [= <- <-].
Qed.

(** A run that returns after posting. *)
Lemma successful_run force reason w w1 res p ymd :
  MarketingPolicy.getMarketingPolicy cfg = Ok p →
  getLocalYMD (clock w) (MarketingPolicy.timezone p) = Ok ymd →
  generateAndPost force reason w = (w1, Val res) → posted w1 ≠ posted w →
  ∃ text,
    posted w1 = posted w ++ [text] ∧
    lastPostedYmd (stateCache w1) = Some ymd ∧
    remembers w w1 text ∧ inFlight w1 = false ∧ lastError w1 = None.
Proof.
  intros Hp Hymd. unfold generateAndPost. rewrite Hp.
  destruct (negb (MarketingPolicy.enabled p)); [by intros [= <- <-]|].
  cbn [tick]. rewrite Hymd.
  destruct (negb force && _); [by intros [= <- <-]|].
  cbn [inFlight]. destruct (inFlight w); [by intros [= <- <-]|].
  match goal with |- context [post_cycle ymd reason ?v] =>
    pose proof (post_cycle_returns ymd reason v) as Hr;
    destruct (post_cycle ymd reason v) as [w2 r] end.
  destruct r as [res'|e| |]; try done.
  intros [= <- <-] _.
  destruct (Hr w2 res' eq_refl) as (text & H1 & H2 & H3 & [H4 H5]).
  exists text. cbn in *. split; [exact H1|]. split; [exact H2|]. split; [exact H3|].
  split; [done|exact H5].
Qed.

(** At most one ordinary post per local day: after a run that posted, a run
    that is not forced, on the same local day, generates nothing and posts
    nothing. *)
Theorem one_ordinary_post_per_day force reason reason' w w1 res p ymd :
  MarketingPolicy.getMarketingPolicy cfg = Ok p →
  (∀ k, getLocalYMD k (MarketingPolicy.timezone p) = Ok ymd) →
  generateAndPost force reason w = (w1, Val res) → posted w1 ≠ posted w →
  ∃ w2,
    generateAndPost false reason' w1 = (w2, Val (None, None)) ∧
    posted w2 = posted w1 ∧ asked w2 = asked w1 ∧ stateCache w2 = stateCache w1 ∧
    marketing_skip_already_posted_today ymd reason' ∈ log w2.
Proof.
  intros Hp Hymd Hrun Hposted.
  destruct (successful_run force reason w w1 res p ymd Hp (Hymd _) Hrun Hposted)
    as (text & _ & Hday & _).
  assert (Hen : MarketingPolicy.enabled p = true).
  { revert Hrun. unfold generateAndPost. rewrite Hp.
    destruct (MarketingPolicy.enabled p); [done|]. cbn. intros [= <- _]. done. }
  unfold generateAndPost. rewrite Hp, Hen. cbn [negb tick]. rewrite Hymd.
  cbn [stateCache andb]. rewrite bool_decide_eq_true_2 by done.
  eexists. split; [reflexivity|]. cbn. repeat split; try done.
  apply elem_of_app. right. left.
Qed.

(** A run that posted remembers the text first in its window of recent
    texts, which never holds more than ten. *)
Theorem posted_text_is_remembered_first force reason w w1 res p ymd :
  MarketingPolicy.getMarketingPolicy cfg = Ok p →
  getLocalYMD (clock w) (MarketingPolicy.timezone p) = Ok ymd →
  generateAndPost force reason w = (w1, Val res) → posted w1 ≠ posted w →
  ∃ text rest,
    posted w1 = posted w ++ [text] ∧
    recentTexts (stateCache w1) = Some (text :: rest) ∧
    rest = take 9 (filter (λ t, nonempty t = true) (default [] (recentTexts (stateCache w)))) ∧
    length (text :: rest) ≤ MARKETING_RECENT_TEXTS_MAX.
Proof.
  intros Hp Hymd Hrun Hposted.
  destruct (successful_run force reason w w1 res p ymd Hp Hymd Hrun Hposted)
    as (text & H1 & _ & H3 & _).
  exists text,
    (take 9 (filter (λ t, nonempty t = true) (default [] (recentTexts (stateCache w))))).
  split; [exact H1|]. split; [exact H3|]. split; [reflexivity|].
  cbn [length]. rewrite length_take. unfold MARKETING_RECENT_TEXTS_MAX. lia.
Qed.

(** A run that throws never marks the day: the saved state is the same, so
    the next run may post.  Thrown inside the [try] (by the generator, by the
    blank-text check or by the publisher), the error is recorded as
    [lastError], [marketing_failed] is logged and the run is no longer in
    flight.  Thrown before the [try], while the policy or the local date is
    read, it is recorded nowhere: flags and log are as they were. *)
Theorem failed_run_keeps_day_open force reason w w' e :
  generateAndPost force reason w = (w', Exn e) →
  stateCache w' = stateCache w ∧
  ((∃ p ymd,
      MarketingPolicy.getMarketingPolicy cfg = Ok p ∧
      getLocalYMD (clock w) (MarketingPolicy.timezone p) = Ok ymd ∧
      inFlight w' = false ∧ lastError w' = Some e ∧
      marketing_failed ymd e ∈ log w') ∨
   ((MarketingPolicy.getMarketingPolicy cfg = Err e ∨
     ∃ p, MarketingPolicy.getMarketingPolicy cfg = Ok p ∧
          getLocalYMD (clock w) (MarketingPolicy.timezone p) = Err e) ∧
    inFlight w' = inFlight w ∧ lastError w' = lastError w ∧ log w' = log w)).
Proof.
  unfold generateAndPost.
  destruct (MarketingPolicy.getMarketingPolicy cfg) as [p|e0] eqn:Hp.
  2:{ intros [= <- <-]. split; [done|]. right. split; [by left|done]. }
  destruct (negb (MarketingPolicy.enabled p)); [done|].
  cbn [tick].
  destruct (getLocalYMD (clock w) (MarketingPolicy.timezone p)) as [ymd|e0] eqn:Hymd.
  2:{ intros [= <- <-]. cbn. split; [done|]. right. split; [right; by exists p|done]. }
  destruct (negb force && _); [done|].
  cbn [inFlight]. destruct (inFlight w) eqn:Hfl; [done|].
  match goal with |- context [post_cycle ymd reason ?v] =>
    pose proof (post_cycle_throws ymd reason v) as Hr;
    destruct (post_cycle ymd reason v) as [w2 r] end.
  destruct r as [res'|e'| |]; try done.
  intros [= <- <-]. destruct (Hr w2 e' eq_refl) as (H1 & _).
  split; [exact H1|].
  left. exists p, ymd. cbn. split; [done|]. split; [done|]. split; [done|]. split; [done|].
  apply elem_of_app. right. left.
Qed.

(** *** Content-message rotation *)

Lemma delete_insert_same {A} (l : list A) i v : delete i (<[i:=v]> l) = delete i l.
Proof.
  revert i. induction l as [|x l IH]; intros [|i]; cbn; try done. by rewrite IH.
Qed.

Lemma swap_Permutation {A} (arr : list A) i j x y :
  arr !! i = Some x → arr !! j = Some y → <[j:=x]> (<[i:=y]> arr) ≡ₚ arr.
Proof.
  intros Hi Hj. destruct (decide (i = j)) as [->|Hne].
  - assert (x = y) as -> by congruence.
    rewrite list_insert_insert_eq. by rewrite list_insert_id.
  - assert (Hlen : j < length (<[i:=y]> arr)).
    { rewrite length_insert. by eapply lookup_lt_Some. }
    pose proof (list_lookup_insert_eq (<[i:=y]> arr) j x Hlen) as H1.
    apply delete_Permutation in H1. rewrite delete_insert_same in H1.
    assert (H2 : (<[i:=y]> arr) !! j = Some y) by (by rewrite list_lookup_insert_ne).
    apply delete_Permutation in H2.
    assert (H3 : (<[i:=y]> arr) !! i = Some y).
    { apply list_lookup_insert_eq. by eapply lookup_lt_Some. }
    apply delete_Permutation in H3. rewrite delete_insert_same in H3.
    pose proof (delete_Permutation _ _ _ Hi) as H4.
    etrans; [exact H1|]. etrans; [|symmetry; exact H4]. apply perm_skip.
    apply (Permutation_cons_inv (a := y)). etrans; [symmetry; exact H2|exact H3].
Qed.

Lemma shuffle_loop_Permutation {A} i k (arr : list A) : (shuffle_loop i k arr).1 ≡ₚ arr.
Proof.
  revert k arr. induction i as [|i IH]; intros k arr; cbn [shuffle_loop]; [done|].
  destruct (arr !! S i) as [tmp|] eqn:Hi; [|apply IH].
  destruct (arr !! (random k `mod` (S i + 1))) as [aj|] eqn:Hj; [|apply IH].
  etrans; [apply IH|]. by eapply swap_Permutation.
Qed.

(** [n] consecutive calls of [nextThemeForPost], as [n] posts make them. *)
Fixpoint draw_themes (n : nat) (w : World) : World * list MarketingContentMessage :=
  match n with
  | O => (w, [])
  | S n' =>
      match nextThemeForPost w with
      | (w1, Ok theme) => let '(w2, themes) := draw_themes n' w1 in (w2, theme :: themes)
      | (w1, Err _) => (w1, [])
      end
  end.

Lemma draw_from_bag (bag : list MarketingContentMessage) : ∀ w,
  MARKETING_CONTENT_MESSAGES ≠ [] → themeBag w = bag →
  (draw_themes (length bag) w).2 = reverse bag ∧ themeBag (draw_themes (length bag) w).1 = [].
Proof.
  induction bag as [|x bag IH] using rev_ind; intros w Hne Hbag; [done|].
  rewrite length_app. cbn [length]. rewrite Nat.add_1_r. cbn [draw_themes].
  unfold nextThemeForPost. destruct MARKETING_CONTENT_MESSAGES as [|m ms] eqn:Em; [done|].
  match goal with |- context [match themeBag w with [] => ?a | _ :: _ => w end] =>
    assert (Hw : match themeBag w with [] => a | _ :: _ => w end = w)
      by (rewrite Hbag; by destruct bag);
    rewrite !Hw; clear Hw
  end.
  rewrite Hbag, last_snoc. rewrite length_app. cbn [length].
  rewrite Nat.add_sub, take_app_length.
  destruct (IH (set_themeBag bag (rolls w) w) ltac:(done) eq_refl) as [H1 H2].
  destruct (draw_themes (length bag) (set_themeBag bag (rolls w) w)) as [w2 ths].
  cbn [fst snd] in *. rewrite reverse_snoc. by rewrite H1.
Qed.

(** Starting with an empty bag, as many posts as there are content messages
    use every message exactly once, in the order the shuffle gave; the bag
    is then empty again, so the next post starts a new cycle. *)
Theorem themes_rotate_through_all_messages (w : World) :
  MARKETING_CONTENT_MESSAGES ≠ [] → themeBag w = [] →
  (draw_themes (length MARKETING_CONTENT_MESSAGES) w).2 ≡ₚ MARKETING_CONTENT_MESSAGES ∧
  themeBag (draw_themes (length MARKETING_CONTENT_MESSAGES) w).1 = [].
Proof.
  intros Hne Hbag.
  destruct (length MARKETING_CONTENT_MESSAGES) as [|n] eqn:En.
  { destruct MARKETING_CONTENT_MESSAGES; done. }
  cbn [draw_themes]. unfold nextThemeForPost.
  destruct MARKETING_CONTENT_MESSAGES as [|m ms] eqn:Em; [done|].
  rewrite Hbag. unfold shuffleInPlace.
  pose proof (shuffle_loop_Permutation (length (m :: ms) - 1) (rolls w) (m :: ms)) as Hperm.
  pose proof (shuffle_loop_length (length (m :: ms) - 1) (rolls w) (m :: ms)) as Hlen.
  destruct (shuffle_loop _ _ (m :: ms)) as [bag k]. cbn [fst] in Hperm, Hlen.
  cbn [themeBag set_themeBag rolls].
  destruct bag as [|x bag _] using rev_ind; [done|].
  rewrite last_snoc. rewrite length_app. cbn [length]. rewrite Nat.add_sub, take_app_length.
  assert (Hn : n = length bag).
  { rewrite length_app in Hlen. cbn [length] in Hlen, En. lia. }
  subst n.
  destruct (draw_from_bag bag (set_themeBag bag k (set_themeBag (bag ++ [x]) k w)))
    as [H1 H2]; [by rewrite Em|done|].
  destruct (draw_themes (length bag) _) as [w2 ths]. cbn [fst snd] in *.
  split; [|exact H2]. rewrite H1, <- (reverse_snoc bag x).
  etrans; [apply reverse_Permutation|exact Hperm].
Qed.

End Poster.

(** *** A deployment

    Lower-casing and the letter and number classes on ASCII; they are those
    of the runtime on the texts below, whose only other character is the
    separator (a symbol without case). *)

Definition ascii_toLowerCase (s : jsstring) : jsstring := ascii_lower <$> s.
Definition ascii_LN (c : N) : bool := is_lower c || is_upper c || is_digit c.

Definition demo_cfg : MarketingPolicy.MarketingConfig :=
  {| MarketingPolicy.marketingEnabled := true;
     MarketingPolicy.marketingTime := js "20:00";
     MarketingPolicy.marketingTimezone := "Europe/Warsaw";
     MarketingPolicy.marketingWindowMinutes := MarketingPolicy.Finite 60;
     MarketingPolicy.marketingJitterMinutes := MarketingPolicy.Finite 15 |}.

Definition demo_messages : list MarketingContentMessage :=
  [ {| id := "theme-wars-of-cards-world"; focus := js "Dark Forest world intro";
       source := js "Wars of Cards is a Web3 game world" |};
    {| id := "theme-whisper"; focus := js "Whisper"; source := js "Whisper reacts" |} ].

Definition demo_recent : jsstring := SEPARATOR ++ js "The forest oracle hums tonight.".
Definition demo_candidate : jsstring := SEPARATOR ++ js "The forest oracle naps at noon.".

Definition demo_now (k : nat) : Z := 1769900000000 + Z.of_nat k.
Definition demo_ymd (_ : nat) (_ : string) : result string := Ok "2026-02-01".
Definition demo_random (k : nat) : nat := k.
Definition demo_complete (_ : nat) (_ : Prompt) : result (option jsstring) :=
  Ok (Some demo_candidate).
Definition demo_postTweet (k : nat) (_ : jsstring)
  : result (option string * option string) :=
  Ok (Some (pretty k), Some ("https://x.com/i/web/status/" +:+ pretty k)).

(** The poster the day after it posted [demo_recent]. *)
Definition demo_world : World :=
  {| inFlight := false; lastError := None;
     stateCache :=
       {| lastPostedYmd := Some "2026-01-31"; lastPostedAt := Some 1769800000000%Z;
          lastTweetId := Some "0"; lastUrl := Some "https://x.com/i/web/status/0";
          recentTexts := Some [demo_recent];
          recentThemeIds := Some ["theme-whisper"] |};
     themeBag := [];
     store := PublishedLoreStore.Store (RingBuffer.Ring (replicate 10 None) 0 0 10) 10;
     gate := Semaphore.nearAiSemaphore;
     posted := []; asked := []; log := []; clock := 0; rolls := 0 |}.

Definition demo_run : World * outcome (option string * option string) :=
  generateAndPost ascii_toLowerCase ascii_LN demo_cfg "key" demo_messages
    demo_now demo_ymd demo_random demo_complete demo_postTweet false "scheduled" demo_world.

(** C3, counterexample: the draft opens with the two long words of the post
    in the window, the anti-repetition check rejects it, and the scheduled
    run still validates it at the first attempt and hands it to the
    publisher. *)
Lemma repeated_opening_counterexample :
  recentTexts (stateCache demo_world) = Some [demo_recent] ∧
  firstLongWords ascii_toLowerCase ascii_LN demo_recent 2 = js "forest oracle" ∧
  firstLongWords ascii_toLowerCase ascii_LN demo_candidate 2 = js "forest oracle" ∧
  ok (isTooSimilarToRecent ascii_toLowerCase ascii_LN demo_candidate [demo_recent] None)
    = false ∧
  v_ok (validateMarketingText ascii_toLowerCase ascii_LN demo_candidate) = true ∧
  length (asked demo_run.1) = 1 ∧
  posted demo_run.1 = [demo_candidate] ∧
  demo_run.2 = Val (Some "0", Some "https://x.com/i/web/status/0").
Proof. vm_compute. repeat split. Qed.

Definition demo_policy : MarketingPolicy.Policy :=
  {| MarketingPolicy.enabled := true;
     MarketingPolicy.timezone := "Europe/Warsaw";
     MarketingPolicy.baseMinutes := 1200;
     MarketingPolicy.windowMinutes := 60;
     MarketingPolicy.windowStartMinutes := 1170;
     MarketingPolicy.windowEndMinutes := 1230;
     MarketingPolicy.jitterMinutes := 15 |}.

Lemma anti_repetition_rejects_but_does_not_gate_witness :
  ok (isTooSimilarToRecent ascii_toLowerCase ascii_LN demo_candidate [demo_recent] None)
    = false ∧
  posted demo_run.1 = posted demo_world ++ [enforceHardCap demo_candidate].
Proof.
  destruct (anti_repetition_rejects_but_does_not_gate
              ascii_toLowerCase ascii_LN demo_cfg "key" demo_messages
              demo_now demo_ymd demo_random demo_complete demo_postTweet
              demo_candidate [demo_recent] None demo_recent) as [Hrej Hpost].
  - constructor.
  - left. exists 2. split; [right; left; reflexivity|].
    split; [vm_compute; discriminate|vm_compute; reflexivity].
  - split; [exact Hrej|].
    apply (Hpost demo_world demo_candidate demo_policy "2026-02-01").
    + reflexivity.
    + vm_compute. reflexivity.
    + vm_compute. reflexivity.
    + reflexivity.
    + reflexivity.
    + reflexivity.
    + discriminate.
    + reflexivity.
    + split; [reflexivity|reflexivity].
    + discriminate.
    + discriminate.
    + reflexivity.
Defined.

#[local] Instance outcome_eq_dec {A} `{EqDecision A} : EqDecision (outcome A).
Proof. solve_decision. Defined.

(** C10, witness: the generator returns a valid draft of 26,034 code units;
    the run hands its first 25,000 units to the publisher. *)
Definition demo_long_draft : jsstring :=
  demo_candidate ++ 32%N :: replicate (N.to_nat 26000) 97%N.

Definition demo_long_complete (_ : nat) (_ : Prompt) : result (option jsstring) :=
  Ok (Some demo_long_draft).

Definition demo_long_run : World * outcome (option string * option string) :=
  generateAndPost ascii_toLowerCase ascii_LN demo_cfg "key" demo_messages
    demo_now demo_ymd demo_random demo_long_complete demo_postTweet
    false "scheduled" demo_world.

Lemma marketing_text_hard_cap_witness :
  Z.of_nat (length demo_long_draft) = 26034%Z ∧
  posted demo_long_run.1 = [take HARD_CAP demo_long_draft] ∧
  Z.of_nat (length (take HARD_CAP demo_long_draft)) = 25000%Z.
Proof.
  destruct (marketing_text_hard_cap ascii_toLowerCase ascii_LN demo_cfg "key" demo_messages
              demo_now demo_ymd demo_random demo_long_complete demo_postTweet
              false "scheduled" demo_world) as (_ & _ & H).
  specialize (H demo_policy "2026-02-01"
                (withNearAiPermit
                   (generateMarketingTextWithRetries ascii_toLowerCase ascii_LN
                      demo_cfg "key" demo_messages demo_ymd demo_random demo_long_complete)
                   (asking "2026-02-01" "scheduled" demo_world)).1
                demo_long_draft "theme-wars-of-cards-world").
  assert (Hgen : (withNearAiPermit
                    (generateMarketingTextWithRetries ascii_toLowerCase ascii_LN
                       demo_cfg "key" demo_messages demo_ymd demo_random demo_long_complete)
                    (asking "2026-02-01" "scheduled" demo_world)).2
                 = Val (demo_long_draft, "theme-wars-of-cards-world")).
  { match goal with |- ?P => apply (bool_decide_eq_true_1 P) end.
    vm_compute. reflexivity. }
  assert (Htrim : trim demo_long_draft = demo_long_draft).
  { match goal with |- ?P => apply (bool_decide_eq_true_1 P) end.
    vm_compute. reflexivity. }
  assert (Hne : nonempty (trim (take HARD_CAP demo_long_draft)) = true).
  { vm_compute. reflexivity. }
  assert (Hlen : Z.of_nat (length demo_long_draft) = 26034%Z).
  { vm_compute. reflexivity. }
  assert (Hcut : Z.of_nat (length (take HARD_CAP demo_long_draft)) = 25000%Z).
  { vm_compute. reflexivity. }
  split; [exact Hlen|]. split; [|exact Hcut].
  assert (Hpol : MarketingPolicy.getMarketingPolicy demo_cfg = Ok demo_policy).
  { vm_compute. reflexivity. }
  assert (Hday : false = true ∨ lastPostedYmd (stateCache demo_world) ≠ Some "2026-02-01").
  { right. discriminate. }
  assert (Hret : withNearAiPermit
                   (generateMarketingTextWithRetries ascii_toLowerCase ascii_LN
                      demo_cfg "key" demo_messages demo_ymd demo_random demo_long_complete)
                   (asking "2026-02-01" "scheduled" demo_world)
                 = ((withNearAiPermit
                       (generateMarketingTextWithRetries ascii_toLowerCase ascii_LN
                          demo_cfg "key" demo_messages demo_ymd demo_random demo_long_complete)
                       (asking "2026-02-01" "scheduled" demo_world)).1,
                    Val (demo_long_draft, "theme-wars-of-cards-world"))).
  { rewrite <- Hgen. apply surjective_pairing. }
  specialize (H Hpol eq_refl eq_refl Hday eq_refl Hret).
  cbn zeta in H. destruct H as (_ & _ & H).
  rewrite Htrim, Hne in H. exact H.
Defined.

(** A draft of 30,000 code units is cut to the cap. *)
Example hard_cap_cuts_long_draft :
  Z.of_nat (length (enforceHardCap (replicate (N.to_nat 30000) 97%N))) = 25000%Z.
Proof. vm_compute. reflexivity. Qed.


(** Witnesses of the further properties: the scheduled run of the deployment,
    and the same run with a publisher that fails. *)

Lemma demo_run_posts :
  generateAndPost ascii_toLowerCase ascii_LN demo_cfg "key" demo_messages
    demo_now demo_ymd demo_random demo_complete demo_postTweet false "scheduled" demo_world
  = (demo_run.1, Val (Some "0", Some "https://x.com/i/web/status/0")).
Proof. vm_compute. reflexivity. Qed.

Lemma one_ordinary_post_per_day_witness :
  ∃ w2,
    generateAndPost ascii_toLowerCase ascii_LN demo_cfg "key" demo_messages
      demo_now demo_ymd demo_random demo_complete demo_postTweet false "late_boot" demo_run.1
    = (w2, Val (None, None)) ∧
    posted w2 = posted demo_run.1.
Proof.
  destruct (one_ordinary_post_per_day ascii_toLowerCase ascii_LN demo_cfg "key" demo_messages
              demo_now demo_ymd demo_random demo_complete demo_postTweet
              false "scheduled" "late_boot" demo_world demo_run.1
              (Some "0", Some "https://x.com/i/web/status/0") demo_policy "2026-02-01")
    as (w2 & H1 & H2 & _).
  - reflexivity.
  - intros k. reflexivity.
  - exact demo_run_posts.
  - vm_compute. discriminate.
  - exists w2. split; [exact H1|exact H2].
Defined.

Lemma posted_text_is_remembered_first_witness :
  ∃ text rest,
    posted demo_run.1 = posted demo_world ++ [text] ∧
    recentTexts (stateCache demo_run.1) = Some (text :: rest) ∧
    rest = take 9 (filter (λ t, nonempty t = true) [demo_recent]).
Proof.
  destruct (posted_text_is_remembered_first ascii_toLowerCase ascii_LN demo_cfg "key"
              demo_messages demo_now demo_ymd demo_random demo_complete demo_postTweet
              false "scheduled" demo_world demo_run.1
              (Some "0", Some "https://x.com/i/web/status/0") demo_policy "2026-02-01")
    as (text & rest & H1 & H2 & H3 & _).
  - reflexivity.
  - reflexivity.
  - exact demo_run_posts.
  - vm_compute. discriminate.
  - exists text, rest. split; [exact H1|]. split; [exact H2|exact H3].
Defined.

Definition demo_failing_postTweet (_ : nat) (_ : jsstring)
  : result (option string * option string) :=
  Err "Error: X post tweet failed (503): {}".

Definition demo_failed_run : World * outcome (option string * option string) :=
  generateAndPost ascii_toLowerCase ascii_LN demo_cfg "key" demo_messages
    demo_now demo_ymd demo_random demo_complete demo_failing_postTweet
    false "scheduled" demo_world.

(** A configuration whose posting time is no time of the day: reading the
    policy throws, before the [try] of [generateAndPost]. *)
Definition demo_bad_cfg : MarketingPolicy.MarketingConfig :=
  {| MarketingPolicy.marketingEnabled := true;
     MarketingPolicy.marketingTime := js "25:00";
     MarketingPolicy.marketingTimezone := "Europe/Warsaw";
     MarketingPolicy.marketingWindowMinutes := MarketingPolicy.Finite 60;
     MarketingPolicy.marketingJitterMinutes := MarketingPolicy.Finite 15 |}.

Definition demo_bad_run : World * outcome (option string * option string) :=
  postNow ascii_toLowerCase ascii_LN demo_bad_cfg "key" demo_messages
    demo_now demo_ymd demo_random demo_complete demo_postTweet (Some true) demo_world.

Lemma failed_run_keeps_day_open_witness :
  (demo_failed_run.2 = Exn "Error: X post tweet failed (503): {}" ∧
   stateCache demo_failed_run.1 = stateCache demo_world ∧
   inFlight demo_failed_run.1 = false ∧
   lastError demo_failed_run.1 = Some "Error: X post tweet failed (503): {}" ∧
   marketing_failed "2026-02-01" "Error: X post tweet failed (503): {}"
     ∈ log demo_failed_run.1) ∧
  (demo_bad_run.2 = Exn "Error: Invalid time value: 25:00" ∧
   stateCache demo_bad_run.1 = stateCache demo_world ∧
   lastError demo_bad_run.1 = None ∧
   log demo_bad_run.1 = log demo_world).
Proof.
  split.
  - split; [vm_compute; reflexivity|].
    destruct (failed_run_keeps_day_open ascii_toLowerCase ascii_LN demo_cfg "key"
                demo_messages demo_now demo_ymd demo_random demo_complete
                demo_failing_postTweet false "scheduled" demo_world demo_failed_run.1
                "Error: X post tweet failed (503): {}")
      as (H1 & [(p & ymd & _ & Hymd & H2 & H3 & H4)|([Hpol|(p & _ & Hymd)] & _)]).
    + vm_compute. reflexivity.
    + injection Hymd as <-. split; [exact H1|]. split; [exact H2|]. split; [exact H3|exact H4].
    + vm_compute in Hpol. discriminate Hpol.
    + discriminate Hymd.
  - split; [vm_compute; reflexivity|].
    destruct (failed_run_keeps_day_open ascii_toLowerCase ascii_LN demo_bad_cfg "key"
                demo_messages demo_now demo_ymd demo_random demo_complete
                demo_postTweet true "manual" demo_world demo_bad_run.1
                "Error: Invalid time value: 25:00")
      as (H1 & [(p & ymd & Hpol & _)|(_ & _ & H2 & H3)]).
    + vm_compute. reflexivity.
    + vm_compute in Hpol. discriminate Hpol.
    + split; [exact H1|]. split; [exact H2|exact H3].
Defined.

Lemma themes_rotate_through_all_messages_witness :
  (draw_themes demo_messages demo_random (length demo_messages) demo_world).2 ≡ₚ demo_messages.
Proof.
  refine (proj1 (themes_rotate_through_all_messages demo_messages demo_random demo_world _ _)).
  - discriminate.
  - reflexivity.
Defined.

End Marketing.

(** ** Round-result store ([src/lore/batcher.ts], class [RoundResultsStore])

    A map from round number to the round's comment, with the order of the
    writes kept beside it for the clean-up.  Round numbers are integers. *)

Module RoundResultsStore.
Import JsStr.

Record RoundResultEntry := {
  roundNumber : Z;
  comment : jsstring;
  createdAt : Z;
}.

Record t := {
  store : gmap Z RoundResultEntry;
  insertionOrder : list Z;       (* Track insertion order for FIFO cleanup *)
  capacity : Z;
}.

Inductive LogLine :=
| round_result_evicted (roundNumber : Z)
| round_result_stored (roundNumber : Z) (storeSize : nat) (capacity : Z).

(** The constructor; the default capacity is 100. *)
Definition new_RoundResultsStore (capacity : option Z) : t :=
  {| store := ∅; insertionOrder := []; capacity := default 100%Z capacity |}.

(** [indexOf(k)] then [splice(idx, 1)]: the first occurrence goes. *)
Fixpoint remove_first (k : Z) (l : list Z) : list Z :=
  match l with
  | [] => []
  | x :: l' => if decide (x = k) then l' else x :: remove_first k l'
  end.

(** [set(entry)]: the new state and the lines logged. *)
Definition set_ (s : t) (entry : RoundResultEntry) : t * list LogLine :=
  let k := roundNumber entry in
  (* If entry already exists, remove it from insertion order (we'll re-add it) *)
  let order1 :=
    if decide (is_Some (store s !! k)) then remove_first k (insertionOrder s)
    else insertionOrder s in
  let store2 := <[k := entry]> (store s) in
  let order2 := order1 ++ [k] in
  (* Auto-cleanup: remove oldest if capacity exceeded *)
  let '(store3, order3, evicted) :=
    if decide (capacity s < Z.of_nat (size store2))%Z then
      match order2 with
      | oldest :: rest => (delete oldest store2, rest, [round_result_evicted oldest])
      | [] => (store2, order2, [])
      end
    else (store2, order2, []) in
  ({| store := store3; insertionOrder := order3; capacity := capacity s |},
   evicted ++ [round_result_stored k (size store3) (capacity s)]).

Definition get (s : t) (roundNumber : Z) : option RoundResultEntry := store s !! roundNumber.

(** [getMany(roundNumbers)]: the entries found, as a map. *)
Definition getMany (s : t) (roundNumbers : list Z) : gmap Z RoundResultEntry :=
  foldl (λ results rn,
           match store s !! rn with
           | Some entry => <[rn := entry]> results
           | None => results
           end)
        ∅ roundNumbers.

Definition size_ (s : t) : nat := size (store s).
Definition maxSize (s : t) : Z := capacity s.

Definition clear (s : t) : t := {| store := ∅; insertionOrder := []; capacity := capacity s |}.

(** The module's singleton: [new RoundResultsStore(100)]. *)
Definition roundResultsStore : t := new_RoundResultsStore (Some 100%Z).

(** [set] called on each entry in turn. *)
Definition set_all (s : t) (entries : list RoundResultEntry) : t :=
  foldl (λ s e, (set_ s e).1) s entries.

(** *** What the store holds *)

(** The round numbers written, each once, ordered by their latest write. *)
Definition touch (k : Z) (l : list Z) : list Z := filter (λ x, x ≠ k) l ++ [k].
Definition written (entries : list RoundResultEntry) : list Z :=
  foldl (λ l e, touch (roundNumber e) l) [] entries.

(** The latest entry written for a round number. *)
Definition latest_entry (entries : list RoundResultEntry) (k : Z) : option RoundResultEntry :=
  last (filter (λ e, roundNumber e = k) entries).

Lemma written_snoc es e : written (es ++ [e]) = touch (roundNumber e) (written es).
Proof. unfold written. by rewrite foldl_snoc. Qed.

Lemma set_all_snoc s es e : set_all s (es ++ [e]) = (set_ (set_all s es) e).1.
Proof. unfold set_all. by rewrite foldl_snoc. Qed.

Lemma latest_entry_snoc es e k :
  latest_entry (es ++ [e]) k = if decide (roundNumber e = k) then Some e else latest_entry es k.
Proof.
  unfold latest_entry. rewrite filter_app.
  destruct (decide (roundNumber e = k)) as [Hk|Hk].
  - rewrite filter_cons_True by done. cbn. by rewrite last_snoc.
  - rewrite filter_cons_False by done. cbn. by rewrite app_nil_r.
Qed.

Lemma filter_ne_id (k : Z) (l : list Z) : k ∉ l → filter (λ x, x ≠ k) l = l.
Proof.
  induction l as [|x l IH]; [done|]. intros [Hne Hl]%not_elem_of_cons.
  rewrite filter_cons_True by done. by rewrite IH.
Qed.

Lemma filter_ne_length_in (k : Z) (l : list Z) :
  NoDup l → k ∈ l → S (length (filter (λ x, x ≠ k) l)) = length l.
Proof.
  induction 1 as [|x l Hx Hnd IH]; [by intros ?%elem_of_nil|].
  intros [->|Hin]%elem_of_cons.
  - rewrite filter_cons_False by (intros ?; done). by rewrite filter_ne_id.
  - assert (x ≠ k) by (intros ->; done).
    rewrite filter_cons_True by done. cbn. f_equal. auto.
Qed.

Lemma remove_first_filter (k : Z) (l : list Z) : NoDup l → remove_first k l = filter (λ x, x ≠ k) l.
Proof.
  induction 1 as [|x l Hx Hnd IH]; [done|]. cbn [remove_first].
  destruct (decide (x = k)) as [->|Hne].
  - rewrite filter_cons_False by (intros ?; done). by rewrite filter_ne_id.
  - rewrite filter_cons_True by done. by rewrite IH.
Qed.

Lemma touch_NoDup k l : NoDup l → NoDup (touch k l).
Proof.
  intros Hnd. unfold touch. apply NoDup_app. split; [by apply NoDup_filter|].
  split; [|apply NoDup_singleton].
  intros x [Hne _]%list_elem_of_filter ->%list_elem_of_singleton. done.
Qed.

Lemma written_NoDup es : NoDup (written es).
Proof.
  induction es as [|e es IH] using rev_ind; [constructor|].
  rewrite written_snoc. by apply touch_NoDup.
Qed.

(** The state after the writes [es], for a capacity [c]. *)
Record Inv (c : Z) (es : list RoundResultEntry) (s : t) : Prop := {
  inv_cap : capacity s = c;
  inv_split : ∃ P, written es = P ++ insertionOrder s ∧
                   (P ≠ [] → length (insertionOrder s) = Z.to_nat c);
  inv_len : length (insertionOrder s) ≤ Z.to_nat c;
  inv_keys : ∀ k, is_Some (store s !! k) ↔ k ∈ insertionOrder s;
  inv_size : size (store s) = length (insertionOrder s);
  inv_latest : ∀ k e, store s !! k = Some e → latest_entry es k = Some e;
}.

Lemma new_Inv c : Inv c [] (new_RoundResultsStore (Some c)).
Proof.
  split; cbn; try done.
  - by exists [].
  - lia.
  - intros k. rewrite lookup_empty. split; [by intros [? ?]|by intros ?%elem_of_nil].
Qed.

Lemma set_Inv c es s e : (1 ≤ c)%Z → Inv c es s → Inv c (es ++ [e]) (set_ s e).1.
Proof.
  intros Hc [Hcap (P & HW & HP) Hlen Hkeys Hsize Hlatest].
  pose proof (written_NoDup es) as Hnd. rewrite HW in Hnd.
  apply NoDup_app in Hnd as (HndP & Hdisj & HndO).
  set (k := roundNumber e).
  assert (Hlat' : ∀ j x, <[k:=e]> (store s) !! j = Some x →
                         latest_entry (es ++ [e]) j = Some x).
  { intros j x. rewrite latest_entry_snoc. fold k. destruct (decide (k = j)) as [<-|Hne].
    - by rewrite lookup_insert_eq.
    - rewrite lookup_insert_ne by done. apply Hlatest. }
  assert (HW' : written (es ++ [e]) = filter (λ x, x ≠ k) P
                                      ++ filter (λ x, x ≠ k) (insertionOrder s) ++ [k]).
  { rewrite written_snoc. fold k. unfold touch. by rewrite HW, filter_app, <- app_assoc. }
  unfold set_. fold k.
  destruct (decide (is_Some (store s !! k))) as [Hhas|Hnot].
  - pose proof (proj1 (Hkeys k) Hhas) as HkO.
    pose proof (filter_ne_length_in k _ HndO HkO) as Hfl.
    rewrite remove_first_filter by done.
    rewrite map_size_insert_Some by done. rewrite Hsize, Hcap.
    rewrite decide_False by lia. cbn [fst].
    split; cbn [store insertionOrder capacity].
    + done.
    + exists P. split.
      * rewrite HW'. rewrite (filter_ne_id k P); [done|].
        intros HkP. by apply (Hdisj k).
      * intros HPne. rewrite length_app. cbn [length]. specialize (HP HPne). lia.
    + rewrite length_app. cbn [length]. lia.
    + intros j. rewrite lookup_insert_is_Some, elem_of_app, list_elem_of_filter,
        list_elem_of_singleton, Hkeys. split.
      * intros [<-|[Hne Hj]]; [by right|left; split; [congruence|done]].
      * intros [[Hne Hj]| ->]; [right; split; [congruence|done]|by left].
    + rewrite map_size_insert_Some by done. rewrite length_app. cbn [length]. lia.
    + exact Hlat'.
  - assert (HkO : k ∉ insertionOrder s) by (intros H; apply Hnot, Hkeys, H).
    assert (Hnone : store s !! k = None).
    { destruct (store s !! k) eqn:E; [exfalso; apply Hnot; eauto|done]. }
    rewrite (filter_ne_id k (insertionOrder s)) in HW' by done.
    rewrite map_size_insert_None by done. rewrite Hsize, Hcap.
    destruct (decide (c < Z.of_nat (S (length (insertionOrder s))))%Z) as [Hfull|Hroom].
    + assert (HlenO : length (insertionOrder s) = Z.to_nat c) by lia.
      destruct (insertionOrder s) as [|o O'] eqn:EO; [cbn in HlenO; lia|].
      cbn [app fst]. apply NoDup_cons in HndO as [HoO' HndO'].
      assert (Hok : o ≠ k) by (intros ->; apply HkO; left).
      split; cbn [store insertionOrder capacity].
      * done.
      * exists (filter (λ x, x ≠ k) P ++ [o]). split; [by rewrite HW', <- app_assoc|].
        intros _. rewrite length_app. cbn [length] in *. lia.
      * rewrite length_app. cbn [length] in *. lia.
      * intros j. rewrite lookup_delete_is_Some, lookup_insert_is_Some, elem_of_app,
          list_elem_of_singleton, Hkeys, elem_of_cons. split.
        -- intros [Hoj [<-|[Hkj [->|Hj]]]]; [by right|done|by left].
        -- intros [Hj| ->].
           ++ split; [by intros ->|]. destruct (decide (k = j)); [by left|].
              right. split; [done|by right].
           ++ split; [done|by left].
      * rewrite map_size_delete_Some.
        { rewrite map_size_insert_None by done. rewrite Hsize, length_app. cbn [length]. lia. }
        rewrite lookup_insert_is_Some. right. split; [done|]. apply Hkeys. left.
      * intros j x [_ Hj]%lookup_delete_Some. by apply Hlat'.
    + cbn [fst]. assert (HPnil : P = []).
      { destruct P as [|p0 P']; [done|]. specialize (HP ltac:(done)). lia. }
      subst P. cbn [filter app] in HW'.
      split; cbn [store insertionOrder capacity].
      * done.
      * exists []. split; [exact HW'|done].
      * rewrite length_app. cbn [length]. lia.
      * intros j. rewrite lookup_insert_is_Some, elem_of_app, list_elem_of_singleton, Hkeys.
        split.
        -- intros [<-|[Hne Hj]]; [by right|by left].
        -- intros [Hj| ->]; [|by left]. destruct (decide (k = j)); [by left|by right].
      * rewrite map_size_insert_None by done. rewrite Hsize, length_app. cbn [length]. lia.
      * exact Hlat'.
Qed.

Lemma set_all_Inv c es : (1 ≤ c)%Z → Inv c es (set_all (new_RoundResultsStore (Some c)) es).
Proof.
  intros Hc. induction es as [|e es IH] using rev_ind; [apply new_Inv|].
  rewrite set_all_snoc. by apply set_Inv.
Qed.

(** A store of capacity [c >= 1] holds exactly the [c] round numbers
    written most recently (a round written again counts as new), each with
    the entry written last for it; the older rounds are gone. *)
Theorem store_holds_latest_rounds (c : Z) (es : list RoundResultEntry) :
  (1 ≤ c)%Z →
  let s := set_all (new_RoundResultsStore (Some c)) es in
  insertionOrder s = drop (length (written es) - Z.to_nat c) (written es) ∧
  (∀ k, get s k = if decide (k ∈ insertionOrder s) then latest_entry es k else None) ∧
  size_ s = Nat.min (Z.to_nat c) (length (written es)) ∧
  (Z.of_nat (size_ s) ≤ maxSize s)%Z.
Proof.
  intros Hc s.
  destruct (set_all_Inv c es Hc) as [Hcap (P & HW & HP) Hlen Hkeys Hsize Hlatest].
  fold s in Hcap, HW, HP, Hlen, Hkeys, Hsize, Hlatest.
  assert (Hdrop : insertionOrder s = drop (length (written es) - Z.to_nat c) (written es)).
  { rewrite HW, length_app. destruct P as [|p0 P'].
    - cbn [length app]. replace (0 + _ - _) with 0 by lia. done.
    - specialize (HP ltac:(done)). rewrite HP.
      replace (length (p0 :: P') + Z.to_nat c - Z.to_nat c) with (length (p0 :: P')) by lia.
      by rewrite drop_app_length. }
  split; [exact Hdrop|]. split.
  - intros k. unfold get. destruct (decide (k ∈ insertionOrder s)) as [Hin|Hout].
    + apply Hkeys in Hin as [x Hx]. rewrite Hx. symmetry. by apply Hlatest.
    + destruct (store s !! k) eqn:E; [|done]. exfalso. apply Hout, Hkeys. eauto.
  - unfold size_, maxSize. rewrite Hsize, Hcap. split; [|lia].
    rewrite Hdrop at 1. rewrite length_drop. lia.
Qed.

(** [getMany] returns the stored entries of the requested rounds and
    nothing else. *)
Theorem getMany_is_restriction (s : t) (rns : list Z) (k : Z) :
  getMany s rns !! k = if decide (k ∈ rns) then get s k else None.
Proof.
  unfold getMany, get. induction rns as [|rn rns IH] using rev_ind.
  - cbn. rewrite lookup_empty. by rewrite decide_False by (by intros ?%elem_of_nil).
  - rewrite foldl_snoc.
    assert (Hin : k ∈ rns ++ [rn] ↔ k ∈ rns ∨ k = rn).
    { by rewrite elem_of_app, list_elem_of_singleton. }
    destruct (store s !! rn) as [e|] eqn:E.
    + destruct (decide (k = rn)) as [->|Hne].
      * rewrite lookup_insert_eq.
        rewrite decide_True by (apply Hin; by right). by rewrite E.
      * rewrite lookup_insert_ne by done. rewrite IH.
        destruct (decide (k ∈ rns)) as [H|H].
        -- by rewrite decide_True by (apply Hin; by left).
        -- rewrite decide_False; [done|]. intros [?|?]%Hin; done.
    + rewrite IH.
      destruct (decide (k ∈ rns)) as [H|H].
      * by rewrite decide_True by (apply Hin; by left).
      * destruct (decide (k ∈ rns ++ [rn])) as [H'|H']; [|done].
        apply Hin in H'. destruct H' as [?|Heq]; [done|]. subst k. by rewrite E.
Qed.

Definition demo_round (rn : Z) (text : string) : RoundResultEntry :=
  {| roundNumber := rn; comment := js text; createdAt := 0 |}.

(** Rounds 1, 2, 1 again, 3 into a store of two: it holds 1 (rewritten) and 3. *)
Lemma store_holds_latest_rounds_witness :
  insertionOrder
    (set_all (new_RoundResultsStore (Some 2%Z))
       [demo_round 1 "a"; demo_round 2 "b"; demo_round 1 "c"; demo_round 3 "d"])
  = [1%Z; 3%Z] ∧
  get (set_all (new_RoundResultsStore (Some 2%Z))
         [demo_round 1 "a"; demo_round 2 "b"; demo_round 1 "c"; demo_round 3 "d"]) 1
  = latest_entry [demo_round 1 "a"; demo_round 2 "b"; demo_round 1 "c"; demo_round 3 "d"] 1.
Proof.
  destruct (store_holds_latest_rounds 2
              [demo_round 1 "a"; demo_round 2 "b"; demo_round 1 "c"; demo_round 3 "d"])
    as (H1 & H2 & _); [lia|].
  split; [rewrite H1; reflexivity|]. rewrite (H2 1%Z), H1. reflexivity.
Defined.

End RoundResultsStore.

(** * The dedupe window ([src/utils/dedupe.ts]) *)

Module DedupeStore.
Import JsStr.

Record t := {
  set : gset jsstring;
  queue : list jsstring;
  capacity : Z;
}.

(** The constructor throws on a capacity that is not positive.  Capacities
    are integers here, as the one the routes pass (100). *)
Definition new_DedupeStore (capacity : Z) : result t :=
  if decide (capacity ≤ 0)%Z then Err ("Error: Invalid dedupe capacity: " +:+ pretty capacity)
  else Ok {| set := ∅; queue := []; capacity := capacity |}.

(** [while (queue.length > capacity) { oldest = queue.shift(); if (oldest)
    set.delete(oldest) }]: each turn shortens the queue, so the loop is a
    recursion on it.  The empty string is falsy: it leaves the queue and
    stays in the set. *)
Fixpoint evict (capacity : Z) (set : gset jsstring) (queue : list jsstring)
  : gset jsstring * list jsstring :=
  match queue with
  | [] => (set, [])
  | oldest :: rest =>
      if decide (capacity < Z.of_nat (length queue))%Z then
        evict capacity (if decide (oldest = []) then set else set ∖ {[oldest]}) rest
      else (set, queue)
  end.

(** [markOnce(key)]: the new state, and whether the key is newly added. *)
Definition markOnce (s : t) (key : jsstring) : t * bool :=
  if decide (key ∈ set s) then (s, false)
  else
    let '(set', queue') := evict (capacity s) ({[key]} ∪ set s) (queue s ++ [key]) in
    ({| set := set'; queue := queue'; capacity := capacity s |}, true).

(** A run of calls: the final state and the keys that were accepted, in order. *)
Definition mark_all (s : t) (keys : list jsstring) : t * list jsstring :=
  foldl (λ st key,
           let '(s', fresh) := markOnce st.1 key in
           (s', if fresh then st.2 ++ [key] else st.2))
        (s, []) keys.

Lemma mark_all_snoc s keys key :
  mark_all s (keys ++ [key])
  = let '(s', fresh) := markOnce (mark_all s keys).1 key in
    (s', if fresh then (mark_all s keys).2 ++ [key] else (mark_all s keys).2).
Proof. unfold mark_all. by rewrite foldl_snoc. Qed.

Lemma evict_keeps_empty c S q : [] ∈ S → [] ∈ (evict c S q).1.
Proof.
  revert S. induction q as [|o q IH]; intros S HS; cbn; [done|].
  destruct (decide _); [|done]. apply IH.
  destruct (decide (o = [])); [done|]. set_solver.
Qed.

Lemma markOnce_keeps_empty s key : [] ∈ set s → [] ∈ set (markOnce s key).1.
Proof.
  intros HS. unfold markOnce. destruct (decide (key ∈ set s)); [done|].
  destruct (evict _ _ _) as [S' q'] eqn:E. cbn.
  change S' with (S', q').1. rewrite <- E. apply evict_keeps_empty. set_solver.
Qed.

Lemma markOnce_empty s : [] ∈ set (markOnce s []).1.
Proof.
  unfold markOnce. destruct (decide _) as [H|H]; [exact H|].
  destruct (evict _ _ _) as [S' q'] eqn:E. cbn.
  change S' with (S', q').1. rewrite <- E. apply evict_keeps_empty. set_solver.
Qed.

Lemma mark_all_keeps_empty s keys : [] ∈ set s → [] ∈ set (mark_all s keys).1.
Proof.
  intros HS. induction keys as [|key keys IH] using rev_ind; [exact HS|].
  rewrite mark_all_snoc.
  pose proof (markOnce_keeps_empty (mark_all s keys).1 key IH) as H.
  by destruct (markOnce _ key).
Qed.

Lemma mark_all_app s k1 k2 :
  (mark_all s (k1 ++ k2)).1 = (mark_all (mark_all s k1).1 k2).1.
Proof.
  induction k2 as [|key k2 IH] using rev_ind; [by rewrite app_nil_r|].
  rewrite app_assoc, !mark_all_snoc, IH.
  by destruct (markOnce _ key).
Qed.

(** The state the window keeps when no key is empty. *)
Record Inv (c : Z) (acc : list jsstring) (s : t) : Prop := {
  inv_cap : capacity s = c;
  inv_set : ∀ k, k ∈ set s ↔ k ∈ queue s;
  inv_nodup : NoDup (queue s);
  inv_nonempty : Forall (λ k, k ≠ []) (queue s);
  inv_queue : queue s = drop (length acc - Z.to_nat c) acc;
}.

Lemma evict_step (c : Z) (seen : gset jsstring) (q : list jsstring) (key : jsstring) :
  (1 ≤ c)%Z → (Z.of_nat (length q) ≤ c)%Z →
  evict c seen (q ++ [key])
  = if decide (c < Z.of_nat (length q) + 1)%Z then
      match q ++ [key] with
      | o :: rest => (if decide (o = []) then seen else seen ∖ {[o]}, rest)
      | [] => (seen, [])
      end
    else (seen, q ++ [key]).
Proof.
  intros Hc Hq. destruct q as [|o q]; cbn [app evict length].
  - rewrite decide_False by lia. by rewrite decide_False by lia.
  - rewrite length_app. cbn [length].
    destruct (decide (c < Z.of_nat (S (length q + 1)))%Z) as [H|H].
    + destruct (decide (c < Z.of_nat (S (length q)) + 1)%Z); [|lia].
      destruct (q ++ [key]) as [|o' r'] eqn:E; [done|].
      cbn [evict]. rewrite decide_False; [done|].
      apply (f_equal length) in E. rewrite length_app in E. cbn [length] in *. lia.
    + destruct (decide (c < Z.of_nat (S (length q)) + 1)%Z); [lia|done].
Qed.

Lemma markOnce_Inv c acc s key :
  (1 ≤ c)%Z → key ≠ [] → Inv c acc s →
  (markOnce s key).2 = bool_decide (key ∉ queue s) ∧
  Inv c (if (markOnce s key).2 then acc ++ [key] else acc) (markOnce s key).1.
Proof.
  intros Hc Hkey [Hcap Hset Hnd Hne Hq]. unfold markOnce.
  assert (Hlen : (Z.of_nat (length (queue s)) ≤ c)%Z).
  { rewrite Hq, length_drop. lia. }
  destruct (decide _) as [Hin|Hnin].
  - cbn. split; [|done].
    rewrite bool_decide_eq_false_2; [done|]. intros H. apply H. by apply Hset.
  - assert (HkQ : key ∉ queue s) by (by rewrite <- Hset).
    rewrite Hcap, evict_step by done.
    destruct (decide (c < Z.of_nat (length (queue s)) + 1)%Z) as [Hfull|Hroom].
    + assert (Hl : length (queue s) = Z.to_nat c) by lia.
      destruct (queue s) as [|o q] eqn:EQ; [cbn in Hl; lia|].
      cbn [app fst snd]. apply NoDup_cons in Hnd as [Hoq Hndq].
      apply Forall_cons in Hne as [Ho Hneq].
      rewrite decide_False by done.
      split; [by rewrite bool_decide_eq_true_2|].
      split; cbn [set queue capacity].
      * done.
      * intros k. rewrite elem_of_difference, elem_of_union, !elem_of_singleton, Hset,
          elem_of_app, elem_of_cons, list_elem_of_singleton.
        split.
        -- intros [[->|[->|H]] Hno]; [by right|done|by left].
        -- intros [H| ->]; (split; [|intros ->]).
           ++ right. by right.
           ++ done.
           ++ by left.
           ++ apply HkQ. left.
      * apply NoDup_app. split; [done|]. split; [|apply NoDup_singleton].
        intros x Hx ->%list_elem_of_singleton. apply HkQ. by right.
      * apply Forall_app. split; [done|]. by apply Forall_singleton.
      * rewrite length_app. cbn [length].
        assert (Hacc : Z.to_nat c ≤ length acc).
        { apply (f_equal length) in Hq. rewrite length_drop in Hq. cbn [length] in *. lia. }
        replace (length acc + 1 - Z.to_nat c) with ((length acc - Z.to_nat c) + 1) by lia.
        rewrite drop_app_le by lia.
        rewrite <- drop_drop, <- Hq. done.
    + cbn [fst snd].
      split; [by rewrite bool_decide_eq_true_2|].
      assert (Hacc : length acc < Z.to_nat c).
      { pose proof (f_equal length Hq) as Hl. rewrite length_drop in Hl. lia. }
      split; cbn [set queue capacity].
      * done.
      * intros k. rewrite elem_of_union, elem_of_singleton, Hset, elem_of_app,
          list_elem_of_singleton. tauto.
      * apply NoDup_app. split; [done|]. split; [|apply NoDup_singleton].
        intros x Hx ->%list_elem_of_singleton. by apply HkQ.
      * apply Forall_app. split; [done|]. by apply Forall_singleton.
      * rewrite Hq, length_app. cbn [length].
        replace (length acc - Z.to_nat c) with 0 by lia.
        replace (length acc + 1 - Z.to_nat c) with 0 by lia. done.
Qed.

Lemma new_DedupeStore_Inv c : (1 ≤ c)%Z →
  ∃ s, new_DedupeStore c = Ok s ∧ Inv c [] s.
Proof.
  intros Hc. unfold new_DedupeStore. rewrite decide_False by lia.
  eexists. split; [done|]. split; cbn; try done.
  - intros k. set_solver.
  - apply NoDup_nil_2.
Qed.

Lemma mark_all_Inv c s keys :
  (1 ≤ c)%Z → Forall (λ k, k ≠ []) keys → Inv c [] s →
  Inv c (mark_all s keys).2 (mark_all s keys).1.
Proof.
  intros Hc Hkeys Hs. induction keys as [|key keys IH] using rev_ind; [exact Hs|].
  apply Forall_app in Hkeys as [Hkeys Hkey]. rewrite Forall_singleton in Hkey.
  rewrite mark_all_snoc.
  destruct (markOnce_Inv c _ _ key Hc Hkey (IH Hkeys)) as [_ H].
  by destruct (markOnce _ key) as [s' []].
Qed.

(** With non-empty keys, the store remembers exactly the last [capacity]
    keys it accepted: a key is accepted iff it is not among them. *)
Theorem dedupe_window_is_last_accepted (c : Z) (s0 : t) (keys : list jsstring) :
  new_DedupeStore c = Ok s0 →
  Forall (λ k, k ≠ []) keys →
  let s := (mark_all s0 keys).1 in
  let accepted := (mark_all s0 keys).2 in
  queue s = drop (length accepted - Z.to_nat c) accepted ∧
  ∀ key, key ≠ [] → (markOnce s key).2 = bool_decide (key ∉ queue s).
Proof.
  intros Hnew Hkeys s accepted.
  assert (Hc : (1 ≤ c)%Z).
  { unfold new_DedupeStore in Hnew. destruct (decide (c ≤ 0)%Z); [done|lia]. }
  destruct (new_DedupeStore_Inv c Hc) as (s0' & Hnew' & Hs0).
  assert (s0' = s0) by congruence. subst s0'.
  pose proof (mark_all_Inv c s0 keys Hc Hkeys Hs0) as HI.
  split; [apply HI|].
  intros key Hkey. by destruct (markOnce_Inv c _ _ key Hc Hkey HI).
Qed.

(** A window of two: after a, b, a (duplicate), c the store holds b and c,
    so a is accepted again. *)
Lemma dedupe_window_is_last_accepted_witness :
  queue (mark_all {| set := ∅; queue := []; capacity := 2 |}
           [js "a"; js "b"; js "a"; js "c"]).1
  = [js "b"; js "c"] ∧
  (markOnce (mark_all {| set := ∅; queue := []; capacity := 2 |}
               [js "a"; js "b"; js "a"; js "c"]).1 (js "a")).2 = true.
Proof.
  destruct (dedupe_window_is_last_accepted 2
              {| set := ∅; queue := []; capacity := 2 |}
              [js "a"; js "b"; js "a"; js "c"]) as [H1 H2].
  - reflexivity.
  - repeat constructor; by vm_compute.
  - split; [rewrite H1; by vm_compute|].
    rewrite (H2 (js "a")) by (by vm_compute). rewrite H1. by vm_compute.
Defined.

(** The empty key is never forgotten: once it was passed, it is refused for
    good, however many keys follow.  (The eviction tests the key for
    truthiness before deleting it from the set.) *)
Theorem dedupe_empty_key_never_expires (s : t) (before after : list jsstring) :
  (markOnce (mark_all s (before ++ [] :: after)).1 []).2 = false.
Proof.
  assert (H : [] ∈ set (mark_all s (before ++ [] :: after)).1).
  { rewrite (mark_all_app s before ([] :: after)).
    change ([] :: after) with ([[]] ++ after).
    rewrite (mark_all_app _ [[]] after). apply mark_all_keeps_empty.
    unfold mark_all. cbn [foldl fst snd].
    pose proof (markOnce_empty (mark_all s before).1) as H.
    unfold mark_all in H. by destruct (markOnce _ []). }
  unfold markOnce. by destruct (decide _).
Qed.

End DedupeStore.

(** * Account ids of the lore payload ([src/lore/worker/worker.ts]) *)

Module AccountIds.
Import JsStr.

(** [s.endsWith(p)] *)
Definition endsWith (s p : jsstring) : bool := startsWith (reverse s) (reverse p).

(** [toFullNearAccountId(accountId)]; [None] is a nullish argument, which the
    code answers with the empty string. *)
Definition toFullNearAccountId (accountId : option jsstring) : jsstring :=
  match accountId with
  | None => []
  | Some a =>
      if nonempty (trim a) then
        let s := trim a in
        if endsWith s (js ".near") || endsWith s (js ".testnet") then s
        else s ++ js ".near"
      else a
  end.

(** Nothing to trim at the front. *)
Definition tight (s : jsstring) : Prop :=
  match s with [] => True | c :: _ => is_space c = false end.

Lemma drop_while_tight s : tight (drop_while is_space s).
Proof. induction s as [|c s IH]; cbn; [done|]. by destruct (is_space c) eqn:E. Qed.

Lemma tight_drop_while s : tight s → drop_while is_space s = s.
Proof. destruct s as [|c s]; cbn; [done|]. by intros ->. Qed.

Lemma drop_while_suffix s : ∃ k, s = k ++ drop_while is_space s.
Proof.
  induction s as [|c s [k IH]]; cbn; [by exists []|].
  destruct (is_space c); [|by exists []].
  exists (c :: k). cbn. by rewrite <- IH.
Qed.

Lemma trimEnd_tight s : tight s → tight (trimEnd s).
Proof.
  unfold trimEnd. intros Hs.
  destruct (drop_while_suffix (reverse s)) as [k Hk].
  destruct (drop_while is_space (reverse s)) as [|d ds] eqn:E; [done|].
  assert (Hs' : s = reverse (d :: ds) ++ reverse k).
  { rewrite <- reverse_app, <- Hk. by rewrite reverse_involutive. }
  destruct (reverse (d :: ds)) as [|x xs] eqn:Er.
  - apply (f_equal length) in Er. rewrite length_reverse in Er. done.
  - rewrite Hs' in Hs. exact Hs.
Qed.

Lemma trimEnd_fix s : tight (reverse s) → trimEnd s = s.
Proof.
  unfold trimEnd. intros H. rewrite tight_drop_while by done. apply reverse_involutive.
Qed.

Lemma trim_tight s : tight (trim s) ∧ tight (reverse (trim s)).
Proof.
  unfold trim. split.
  - apply trimEnd_tight, drop_while_tight.
  - unfold trimEnd. rewrite reverse_involutive. apply drop_while_tight.
Qed.

Lemma trim_fix s : tight s → tight (reverse s) → trim s = s.
Proof.
  intros H1 H2. unfold trim, trimStart. rewrite tight_drop_while by done.
  by apply trimEnd_fix.
Qed.

Lemma startsWith_app p s : startsWith (p ++ s) p = true.
Proof. induction p as [|c p IH]; cbn; [by destruct s|]. rewrite N.eqb_refl. exact IH. Qed.

Lemma endsWith_app s p : endsWith (s ++ p) p = true.
Proof. unfold endsWith. rewrite reverse_app. apply startsWith_app. Qed.

(** The account id of every player with a name is written in full: trimmed,
    ending in [.near] or [.testnet]; writing it in full twice changes
    nothing. *)
Theorem toFullNearAccountId_normalises (accountId : option jsstring) :
  let full := toFullNearAccountId accountId in
  toFullNearAccountId (Some full) = full ∧
  (nonempty (trim full) = true →
   trim full = full ∧
   endsWith full (js ".near") || endsWith full (js ".testnet") = true).
Proof.
  assert (Hfull : ∀ s : jsstring,
            tight s → tight (reverse s) → nonempty s = true →
            (endsWith s (js ".near") || endsWith s (js ".testnet") = true) →
            toFullNearAccountId (Some s) = s).
  { intros s H1 H2 Hne He. unfold toFullNearAccountId.
    rewrite (trim_fix s H1 H2), Hne. cbn zeta. by rewrite He. }
  assert (Hsuffix : ∀ s : jsstring, tight s → tight (reverse s) → nonempty s = true →
            tight (s ++ js ".near") ∧ tight (reverse (s ++ js ".near")) ∧
            nonempty (s ++ js ".near") = true).
  { intros s H1 H2 Hne. destruct s as [|c s]; [done|]. split; [exact H1|].
    split; [|done]. rewrite reverse_app. by vm_compute. }
  destruct accountId as [a|]; cbn zeta.
  2:{ split; [done|]. by cbn. }
  destruct (nonempty (trim a)) eqn:Hne.
  - destruct (trim_tight a) as [H1 H2].
    destruct (endsWith (trim a) (js ".near") || endsWith (trim a) (js ".testnet")) eqn:He.
    + assert (E : toFullNearAccountId (Some a) = trim a).
      { unfold toFullNearAccountId. rewrite Hne. cbn zeta. by rewrite He. }
      rewrite E. split; [by apply Hfull|]. intros _. split; [by apply trim_fix|done].
    + assert (E : toFullNearAccountId (Some a) = trim a ++ js ".near").
      { unfold toFullNearAccountId. rewrite Hne. cbn zeta. by rewrite He. }
      rewrite E. destruct (Hsuffix _ H1 H2 Hne) as (T1 & T2 & T3).
      assert (E' : endsWith (trim a ++ js ".near") (js ".near")
                   || endsWith (trim a ++ js ".near") (js ".testnet") = true).
      { by rewrite endsWith_app. }
      split; [by apply Hfull|]. intros _. split; [by apply trim_fix|done].
  - assert (E : toFullNearAccountId (Some a) = a).
    { unfold toFullNearAccountId. by rewrite Hne. }
    rewrite E. split; [exact E|]. by rewrite Hne.
Qed.

End AccountIds.

(** * Publishing to X ([src/lore/worker/xLorePublisher.ts]) *)

Module XLorePublisher.
Import JsStr.

Section Publisher.

Context {XPostResult Image : Type}.

(** [config.xEnableImages] *)
Variable xEnableImages : bool.
(** The collaborators: what each returns or throws for its arguments. *)
Variable postTweet : jsstring → result XPostResult.
Variable postTweetWithMedia : jsstring → list jsstring → result XPostResult.
Variable generateImageFromPrompt : jsstring → result Image.
(** [uploadTweetImage(img.bytes, img.mimeType)]: the [mediaIdString] of the upload. *)
Variable uploadTweetImage : Image → result jsstring.

(** The calls that reach the outside, in order.  (Log lines are left out.) *)
Inductive Call :=
| call_postTweet (text : jsstring)
| call_generateImageFromPrompt (prompt : jsstring)
| call_uploadTweetImage (img : Image)
| call_postTweetWithMedia (text : jsstring) (mediaIds : list jsstring).

Record XLorePublishResult := {
  res : XPostResult;
  text : option jsstring;
  mediaId : option jsstring;
  error : option string;
}.

(** The [try] block: the result and media id, or what was thrown. *)
Definition with_media (text : jsstring) (imagePrompt : option jsstring)
  : result (XPostResult * jsstring) * list Call :=
  match imagePrompt with
  | Some prompt =>
      if nonempty (trim prompt) then
        match generateImageFromPrompt prompt with
        | Err e => (Err e, [call_generateImageFromPrompt prompt])
        | Ok img =>
            match uploadTweetImage img with
            | Err e => (Err e, [call_generateImageFromPrompt prompt; call_uploadTweetImage img])
            | Ok mediaIdString =>
                let calls := [call_generateImageFromPrompt prompt; call_uploadTweetImage img;
                              call_postTweetWithMedia text [mediaIdString]] in
                match postTweetWithMedia text [mediaIdString] with
                | Err e => (Err e, calls)
                | Ok r => (Ok (r, mediaIdString), calls)
                end
            end
        end
      else (Err "Error: x_campaign_image_prompt_missing", [])
  | None => (Err "Error: x_campaign_image_prompt_missing", [])
  end.

(** [publishLoreToXWithText(markdown, batchId, text, imagePrompt)] *)
Definition publishLoreToXWithText (markdown : jsstring) (batchId : string)
    (text_ : jsstring) (imagePrompt : option jsstring)
  : result XLorePublishResult * list Call :=
  if negb xEnableImages then
    match postTweet text_ with
    | Ok r => (Ok {| res := r; text := Some text_; mediaId := None; error := None |},
               [call_postTweet text_])
    | Err e => (Err e, [call_postTweet text_])
    end
  else
    match with_media text_ imagePrompt with
    | (Ok (r, mediaIdString), calls) =>
        (Ok {| res := r; text := Some text_; mediaId := Some mediaIdString; error := None |},
         calls)
    | (Err error_, calls) =>
        (* Fallback: publish text-only tweet. *)
        match postTweet text_ with
        | Ok r => (Ok {| res := r; text := Some text_; mediaId := None; error := Some error_ |},
                   calls ++ [call_postTweet text_])
        | Err e => (Err e, calls ++ [call_postTweet text_])
        end
    end.

(** A failing image never costs the post: the call throws only when the
    text-only post itself throws, and that post is then the last call made.
    When it returns, the result carries the given text, and either a media
    id with no error, or the result of the text-only post. *)
Theorem publish_falls_back_to_text_only
    (markdown : jsstring) (batchId : string) (text_ : jsstring)
    (imagePrompt : option jsstring) :
  match publishLoreToXWithText markdown batchId text_ imagePrompt with
  | (Err e, calls) => postTweet text_ = Err e ∧ last calls = Some (call_postTweet text_)
  | (Ok out, calls) =>
      text out = Some text_ ∧
      match mediaId out with
      | Some m => error out = None ∧ xEnableImages = true ∧
                  postTweetWithMedia text_ [m] = Ok (res out) ∧
                  call_postTweet text_ ∉ calls
      | None => postTweet text_ = Ok (res out) ∧
                last calls = Some (call_postTweet text_) ∧
                (is_Some (error out) ↔ xEnableImages = true)
      end
  end.
Proof.
  unfold publishLoreToXWithText.
  destruct xEnableImages; cbn [negb].
  2:{ destruct (postTweet text_) as [r|e] eqn:E; cbn; [|done].
      split; [done|]. split; [done|]. split; [done|].
      split; [intros [? ?]; done|done]. }
  destruct (with_media text_ imagePrompt) as [[[r m]|e] calls] eqn:Ew.
  - cbn. split; [done|]. split; [done|]. split; [done|].
    unfold with_media in Ew.
    destruct imagePrompt as [p|]; [|done].
    destruct (nonempty (trim p)); [|done].
    destruct (generateImageFromPrompt p) as [img|]; [|done].
    destruct (uploadTweetImage img) as [mid|]; [|done].
    destruct (postTweetWithMedia text_ [mid]) as [r'|] eqn:Ep; [|done].
    injection Ew as -> -> <-. split; [done|].
    rewrite !elem_of_cons, elem_of_nil. intros [?|[?|[?|?]]]; done.
  - destruct (postTweet text_) as [r|e'] eqn:E; cbn.
    + split; [done|]. split; [done|]. split; [by rewrite last_snoc|].
      split; [done|intros _; by eexists].
    + split; [done|by rewrite last_snoc].
Qed.

End Publisher.

End XLorePublisher.
